(** * logiface: a shallow embedding of the builder, conditional-builder,
    chain and formatting code, with the properties checked against it.

    Layout: the first half of the file holds the model (one module per
    source area); the second half holds the lemmas and theorems. *)

From Stdlib Require Import ZArith Lia String Ascii Bool.
From stdpp Require Import base option list gmap strings.

Local Open Scope Z_scope.

(* ===================================================================== *)
(** * Part I: the model                                                   *)
(* ===================================================================== *)

(** ** Go primitives used by the sources (strings, fixed-width ints, fmt) *)
Module Go.

(** [s[n:]] on a byte string. *)
Fixpoint slice_from (n : nat) (s : string) : string :=
  match n, s with
  | O, _ => s
  | S n', String _ s' => slice_from n' s'
  | S _, EmptyString => EmptyString
  end.

(** [s[:n]] on a byte string. *)
Fixpoint slice_to (n : nat) (s : string) : string :=
  match n, s with
  | O, _ => EmptyString
  | S n', String c s' => String c (slice_to n' s')
  | S _, EmptyString => EmptyString
  end.

(** [strings.HasSuffix]:
    [len(s) >= len(suffix) && s[len(s)-len(suffix):] == suffix]. *)
Definition HasSuffix (s suffix : string) : bool :=
  (String.length suffix <=? String.length s)%nat
  && String.eqb (slice_from (String.length s - String.length suffix) s) suffix.

(** [strings.TrimSuffix]. *)
Definition TrimSuffix (s suffix : string) : string :=
  if HasSuffix s suffix
  then slice_to (String.length s - String.length suffix) s
  else s.

(** Two's complement wrap-around of a 64-bit signed integer. *)
Definition wrap64 (z : Z) : Z := (z + 2 ^ 63) mod 2 ^ 64 - 2 ^ 63.

Definition in_int64 (z : Z) : Prop := - 2 ^ 63 <= z < 2 ^ 63.

Definition add64 (x y : Z) : Z := wrap64 (x + y).
Definition sub64 (x y : Z) : Z := wrap64 (x - y).
Definition mul64 (x y : Z) : Z := wrap64 (x * y).
(** Go's [/] on signed integers truncates toward zero. *)
Definition div64 (x y : Z) : Z := wrap64 (x `quot` y).

(** The decimal digit [d] (0..9) as a byte. *)
Definition digit (d : Z) : ascii := ascii_of_nat (48 + Z.to_nat d).

(** Decimal digits of a non-negative integer, most significant first;
    [fuel] bounds the number of digits produced. *)
Fixpoint utoa_aux (fuel : nat) (n : Z) : string :=
  match fuel with
  | O => EmptyString
  | S f =>
      if n <? 10 then String (digit n) EmptyString
      else utoa_aux f (n / 10) +:+ String (digit (n mod 10)) EmptyString
  end.

Definition utoa (n : Z) : string := utoa_aux (S (Z.to_nat (Z.log2 n))) n.

(** [w] copies of the byte ['0']. *)
Fixpoint zeros (w : nat) : string :=
  match w with
  | O => EmptyString
  | S w' => String "0" (zeros w')
  end.

(** The verb [%d]. *)
Definition fmt_d (n : Z) : string :=
  if n <? 0 then "-" +:+ utoa (- n) else utoa n.

(** The verb [%0wd]: zero padding goes between the sign and the digits,
    and the sign counts towards the width. *)
Definition fmt_0wd (w : nat) (n : Z) : string :=
  if n <? 0
  then "-" +:+ zeros (w - 1 - String.length (utoa (- n))) +:+ utoa (- n)
  else zeros (w - String.length (utoa n)) +:+ utoa n.

(** Exactly [w] decimal digits of [n], least significant last. *)
Fixpoint digitsw (w : nat) (n : Z) : string :=
  match w with
  | O => EmptyString
  | S w' => digitsw w' (n / 10) +:+ String (digit (n mod 10)) EmptyString
  end.

(** Whether a byte is one of ['0'] ... ['9']. *)
Definition is_digit (c : ascii) : bool :=
  (48 <=? nat_of_ascii c)%nat && (nat_of_ascii c <=? 57)%nat.

Fixpoint all_digits (s : string) : bool :=
  match s with
  | EmptyString => true
  | String c s' => is_digit c && all_digits s'
  end.

(** Whether a string starts with a byte that is not a digit. *)
Definition starts_nondigit (s : string) : bool :=
  match s with
  | EmptyString => false
  | String c _ => negb (is_digit c)
  end.

End Go.

(** ** context.go: formatTimestamp and formatDuration *)
Module Fmt.
Import Go.

(** A [time.Time]: an instant (seconds since the Unix epoch plus a
    nanosecond part in [0, 1e9)) together with the offset of its
    location, in seconds east of UTC. *)
Record Time := mkTime { unixSec : Z; nsec : Z; zoneOffset : Z }.

(** [t.UTC()]: same instant, location set to UTC. *)
Definition UTC (t : Time) : Time :=
  {| unixSec := unixSec t; nsec := nsec t; zoneOffset := 0 |}.

Section WithLayout.
(** [layoutSeconds sec off] stands for the standard library's rendering
    of the layout ["2006-01-02T15:04:05"] for the instant [sec] shown
    at offset [off]. *)
Variable layoutSeconds : Z -> Z -> string.

(** [t.Format("2006-01-02T15:04:05.000000000")]: the whole-second part,
    a dot, and the nanoseconds as exactly nine digits. *)
Definition Format_nanos (t : Time) : string :=
  layoutSeconds (unixSec t) (zoneOffset t) +:+ "." +:+ fmt_0wd 9 (nsec t).

Definition formatTimestamp (t : Time) : string :=
  let t := UTC t in
  let x := Format_nanos t in
  let x := TrimSuffix x "000" in
  let x := TrimSuffix x "000" in
  let x := TrimSuffix x ".000" in
  x +:+ "Z".
End WithLayout.

(** [fmt.Sprintf("%s%d.%09d", sign, secs, nanos)]. *)
Definition Sprintf_s_d_09d (sign : string) (secs nanos : Z) : string :=
  sign +:+ fmt_d secs +:+ "." +:+ fmt_0wd 9 nanos.

(** [d] is a [time.Duration], an int64 count of nanoseconds. *)
Definition formatDuration (d : Z) : string :=
  let nanos := d in
  let secs := div64 nanos 1000000000 in
  let nanos := sub64 nanos (mul64 secs 1000000000) in
  let '(sign, secs, nanos) :=
    if (secs <? 0) || (nanos <? 0)
    then ("-"%string, mul64 (-1) secs, mul64 (-1) nanos)
    else (""%string, secs, nanos) in
  let x := Sprintf_s_d_09d sign secs nanos in
  let x := TrimSuffix x "000" in
  let x := TrimSuffix x "000" in
  let x := TrimSuffix x ".000" in
  x +:+ "s".

(** The fractional part as the comments above the two functions word
    it: 0, 3, 6 or 9 digits, the shortest that loses no precision (a
    definition that follows the documentation, to compare with the
    trimming done by the code). *)
Definition fraction_0369 (nanos : Z) : string :=
  if nanos =? 0 then ""
  else if nanos mod 1000000 =? 0 then "." +:+ digitsw 3 (nanos / 1000000)
  else if nanos mod 1000 =? 0 then "." +:+ digitsw 6 (nanos / 1000)
  else "." +:+ digitsw 9 nanos.

(** The three [TrimSuffix] calls shared by both functions. *)
Definition trim3 (x : string) : string :=
  TrimSuffix (TrimSuffix (TrimSuffix x "000") "000") ".000".

(** A concrete whole-second rendering for UTC in the years 0000..9999,
    used to evaluate [formatTimestamp] on sample instants: days since the
    epoch are converted to a civil date in the proleptic Gregorian
    calendar. *)
Definition civil_from_days (z : Z) : Z * Z * Z :=
  let z := z + 719468 in
  let era := z / 146097 in
  let doe := z - era * 146097 in
  let yoe := (doe - doe / 1460 + doe / 36524 - doe / 146096) / 365 in
  let y := yoe + era * 400 in
  let doy := doe - (365 * yoe + yoe / 4 - yoe / 100) in
  let mp := (5 * doy + 2) / 153 in
  let d := doy - (153 * mp + 2) / 5 + 1 in
  let m := if mp <? 10 then mp + 3 else mp - 9 in
  (if m <=? 2 then y + 1 else y, m, d).

Definition civilSeconds (sec off : Z) : string :=
  let s := sec + off in
  let days := s / 86400 in
  let rest := s mod 86400 in
  let '(y, m, d) := civil_from_days days in
  digitsw 4 y +:+ "-" +:+ digitsw 2 m +:+ "-" +:+ digitsw 2 d +:+ "T"
    +:+ digitsw 2 (rest / 3600) +:+ ":" +:+ digitsw 2 (rest mod 3600 / 60)
    +:+ ":" +:+ digitsw 2 (rest mod 60).

End Fmt.

(** ** level.go *)
Module Level.

(** Modelled from the spec: level.go is not among the sources. A level is
    a signed small integer; [LevelDisabled] is the least verbose sentinel,
    and the named levels grow in verbosity from [LevelEmergency] to
    [LevelTrace] (the syslog numbering, with trace above debug). *)
Definition Level := Z.

Definition LevelDisabled : Level := -1.
Definition LevelEmergency : Level := 0.
Definition LevelAlert : Level := 1.
Definition LevelCritical : Level := 2.
Definition LevelError : Level := 3.
Definition LevelWarning : Level := 4.
Definition LevelNotice : Level := 5.
Definition LevelInformational : Level := 6.
Definition LevelDebug : Level := 7.
Definition LevelTrace : Level := 8.

(** Modelled from the spec: [Level.Enabled], the "enabled-check against
    the disabled sentinel". *)
Definition Enabled (x : Level) : bool := LevelDisabled <? x.

(** Modelled from the spec: [Level.Custom], "true when outside the named
    enum range"; the range of custom levels lies above the named ones. *)
Definition Custom (x : Level) : bool := LevelTrace <? x.

(** Modelled from the spec: "a level is enabled relative to a logger's
    configured threshold iff loggerLevel >= requestedLevel (disabled
    sentinel is never satisfied)". *)
Definition satisfies (loggerLevel requestedLevel : Level) : bool :=
  Enabled requestedLevel && (requestedLevel <=? loggerLevel).

(** The named levels, in the order of the table of [TestBuilder_IfLevel]. *)
Definition named : list Level :=
  [LevelEmergency; LevelAlert; LevelCritical; LevelError; LevelWarning;
   LevelNotice; LevelInformational; LevelDebug; LevelTrace].

End Level.

(** ** context.go (Builder, Context, modifierMethods) and the
    conditional-builder protocol *)
Module Core.
Import Go.

(** Addresses of heap-allocated structs; a Go pointer is an [option loc],
    [None] being [nil]. *)
Definition loc := nat.

(** Go [error] values that occur in the sources. *)
Inductive error :=
| ErrDisabled
| ErrOther (msg : string).

(** A value of static type [any], by dynamic type: the cases of the
    type switch in [modifierMethods.Field], errors, nil, and any other
    dynamic type (kept by a description). A [float32] is kept as its bit
    pattern. *)
Inductive any :=
| VNil
| VString (s : string)
| VBytes (b : list Byte.byte)
| VTime (t : Fmt.Time)
| VDuration (d : Z)
| VInt (i : Z)
| VFloat32 (bits : Z)
| VError (e : error)
| VOther (description : string).

(** Modelled from the spec: the [Event] interface (event.go is not among
    the sources). [Level] reports the event's level, [AddField] is the
    generic primitive, and every typed primitive reports whether it
    handled the value. The event is mutable in Go; here each primitive
    returns the event's new state. *)
Class Event (E : Type) := {
  Level : E -> Level.Level;
  AddField : E -> string -> any -> E;
  AddMessage : E -> string -> bool * E;
  AddError : E -> option error -> bool * E;
  AddString : E -> string -> string -> bool * E;
  AddInt : E -> string -> Z -> bool * E;
  AddFloat32 : E -> string -> Z -> bool * E;
}.

(** Standard-library functions the sources call and whose results they
    pass on unchanged. *)
Record StdLib := {
  layoutSeconds : Z -> Z -> string;
  base64_StdEncoding_EncodeToString : list Byte.byte -> string;
  fmt_Sprintf : string -> list any -> string;
}.

Section Model.
Context {E : Type} `{Event E} {U : Type}.
Variable std : StdLib.

(** [loggerShared]: the fields the sources read. The writer is kept by
    the error its [Write] returns for an event, the pool by its identity;
    calls to both are recorded in the world. *)
Record loggerShared := {
  level : Level.Level;
  writer : E -> option error;
  pool : nat;
}.

Record Builder := {
  BEvent : E;
  shared : option loggerShared;
}.

(** [ModifyFunc]: a deferred field setter, replayed onto an event. *)
Definition ModifyFunc := E -> E * option error.

(** [*Logger]: only its identity matters to the sources modelled here. *)
Definition Logger := nat.

Record Context := {
  Modifiers : list ModifyFunc;
  logger : option Logger;
}.

(** Calls made on the external collaborators. *)
Inductive effect :=
| PoolPut (pool : nat) (b : loc)
| WriterWrite (e : E).

(** The store: builders and contexts by address, the calls made so far
    on pools and writers, and the state of the calling code. *)
Record World := {
  builders : gmap loc Builder;
  contexts : gmap loc Context;
  effects : list effect;
  user : U;
}.

(** The result of running a piece of code: normal return, or a run-time
    panic; both carry the store reached. *)
Inductive Outcome (A : Type) :=
| Ok (a : A) (w : World)
| Panic (msg : string) (w : World).
Global Arguments Ok {A} a w.
Global Arguments Panic {A} msg w.

Definition M (A : Type) : Type := World -> Outcome A.

Definition ret {A} (a : A) : M A := fun w => Ok a w.

Definition bind {A B} (f : A -> M B) (m : M A) : M B :=
  fun w => match m w with
           | Ok a w' => f a w'
           | Panic msg w' => Panic msg w'
           end.

Global Instance M_ret : MRet M := @ret.
Global Instance M_bind : MBind M := @bind.

Definition panic {A} (msg : string) : M A := fun w => Panic msg w.

(** [defer d] followed by [body]: [d] runs when [body] returns and also
    when it panics, after which the panic resumes. *)
Definition defer {A} (d : M unit) (body : M A) : M A :=
  fun w => match body w with
           | Ok a w1 =>
               match d w1 with
               | Ok _ w2 => Ok a w2
               | Panic msg w2 => Panic msg w2
               end
           | Panic msg w1 =>
               match d w1 with
               | Ok _ w2 => Panic msg w2
               | Panic msg' w2 => Panic msg' w2
               end
           end.

Definition nil_deref : string := "invalid memory address or nil pointer dereference".

Definition loadBuilder (l : loc) : M Builder :=
  fun w => match builders w !! l with
           | Some b => Ok b w
           | None => Panic nil_deref w
           end.

Definition modify (f : World -> World) : M unit := fun w => Ok tt (f w).

(** [x.Event] is updated in place (the event is mutated through the
    builder at address [l]). *)
Definition setEvent (l : loc) (e : E) : M unit :=
  modify (fun w =>
    {| builders := alter (fun b => {| BEvent := e; shared := shared b |}) l (builders w);
       contexts := contexts w; effects := effects w; user := user w |}).

Definition loadContext (l : loc) : M Context :=
  fun w => match contexts w !! l with
           | Some c => Ok c w
           | None => Panic nil_deref w
           end.

Definition emit (ef : effect) : M unit :=
  modify (fun w =>
    {| builders := builders w; contexts := contexts w;
       effects := effects w ++ [ef]; user := user w |}).

(** A Go function value taking [A]: [None] is the nil function. *)
Definition func (A B : Type) : Type := option (A -> M B).

(** Calling a function value; calling nil panics. *)
Definition call {A B} (fn : func A B) (a : A) : M B :=
  match fn with
  | Some f => f a
  | None => panic nil_deref
  end.

(** *** modifierMethods *)

Definition methods_str (event : E) (key val : string) : E :=
  let '(handled, event) := AddString event key val in
  if handled then event else AddField event key (VString val).

Definition methods_bytes (event : E) (key : string) (val : list Byte.byte) : E :=
  methods_str event key (base64_StdEncoding_EncodeToString std val).

Definition methods_timestamp (event : E) (key : string) (val : Fmt.Time) : E :=
  methods_str event key (Fmt.formatTimestamp (layoutSeconds std) val).

Definition methods_duration (event : E) (key : string) (val : Z) : E :=
  methods_str event key (Fmt.formatDuration val).

Definition methods_int (event : E) (key : string) (val : Z) : E :=
  let '(handled, event) := AddInt event key val in
  if handled then event else AddField event key (VInt val).

Definition methods_float32 (event : E) (key : string) (val : Z) : E :=
  let '(handled, event) := AddFloat32 event key val in
  if handled then event else AddField event key (VFloat32 val).

Definition methods_Field (event : E) (key : string) (val : any) : E * option error :=
  if negb (Level.Enabled (Level event)) then (event, Some ErrDisabled)
  else
    (match val with
     | VString v => methods_str event key v
     | VBytes v => methods_bytes event key v
     | VTime v => methods_timestamp event key v
     | VDuration v => methods_duration event key v
     | VInt v => methods_int event key v
     | VFloat32 v => methods_float32 event key v
     | _ => AddField event key val
     end, None).

Definition methods_Interface (event : E) (key : string) (val : any) : E * option error :=
  if negb (Level.Enabled (Level event)) then (event, Some ErrDisabled)
  else (AddField event key val, None).

Definition err_any (err : option error) : any :=
  match err with
  | Some e => VError e
  | None => VNil
  end.

Definition methods_Err (event : E) (err : option error) : E * option error :=
  if negb (Level.Enabled (Level event)) then (event, Some ErrDisabled)
  else
    (let '(handled, event) := AddError event err in
     if handled then event else AddField event "err" (err_any err), None).

Definition methods_Str (event : E) (key val : string) : E * option error :=
  if negb (Level.Enabled (Level event)) then (event, Some ErrDisabled)
  else (methods_str event key val, None).

Definition methods_Int (event : E) (key : string) (val : Z) : E * option error :=
  if negb (Level.Enabled (Level event)) then (event, Some ErrDisabled)
  else (methods_int event key val, None).

Definition methods_Float32 (event : E) (key : string) (val : Z) : E * option error :=
  if negb (Level.Enabled (Level event)) then (event, Some ErrDisabled)
  else (methods_float32 event key val, None).

(** *** Builder *)

(** The shape shared by the Builder field methods:
    [if x != nil && x.shared != nil { _ = x.methods.F(x.Event, ...) }; return x]. *)
Definition Builder_apply (x : option loc) (m : ModifyFunc) : M (option loc) :=
  match x with
  | Some l =>
      b ← loadBuilder l;
      match shared b with
      | Some _ => let '(event, _) := m (BEvent b) in setEvent l event
      | None => mret tt
      end;;
      mret x
  | None => mret x
  end.

Definition Builder_Field (x : option loc) (key : string) (val : any) : M (option loc) :=
  Builder_apply x (fun event => methods_Field event key val).
Definition Builder_Interface (x : option loc) (key : string) (val : any) : M (option loc) :=
  Builder_apply x (fun event => methods_Interface event key val).
Definition Builder_Err (x : option loc) (err : option error) : M (option loc) :=
  Builder_apply x (fun event => methods_Err event err).
Definition Builder_Str (x : option loc) (key val : string) : M (option loc) :=
  Builder_apply x (fun event => methods_Str event key val).
Definition Builder_Int (x : option loc) (key : string) (val : Z) : M (option loc) :=
  Builder_apply x (fun event => methods_Int event key val).
Definition Builder_Float32 (x : option loc) (key : string) (val : Z) : M (option loc) :=
  Builder_apply x (fun event => methods_Float32 event key val).

(** [func (x *Builder[E]) Call(fn func(b *Builder[E])) *Builder[E]]:
    [fn(x); return x], with no guard on [x] or [fn]. *)
Definition Builder_Call (x : option loc) (fn : func (option loc) unit) : M (option loc) :=
  call fn x;; mret x.

Definition Builder_log (l : loc) (msg : string) : M unit :=
  b ← loadBuilder l;
  let '(handled, event) := AddMessage (BEvent b) msg in
  let event := if handled then event else AddField event "msg" (VString msg) in
  setEvent l event;;
  match shared b with
  | Some sh => emit (WriterWrite event);; let _ := writer sh event in mret tt
  | None => panic nil_deref
  end.

Definition Builder_release (l : loc) : M unit :=
  b ← loadBuilder l;
  match shared b with
  | Some sh => emit (PoolPut (pool sh) l)
  | None => mret tt
  end.

Definition Builder_Log (x : option loc) (msg : string) : M unit :=
  match x with
  | None => mret tt
  | Some l =>
      defer (Builder_release l)
        (b ← loadBuilder l;
         if Level.Enabled (Level (BEvent b)) then Builder_log l msg else mret tt)
  end.

Definition Builder_Logf (x : option loc) (format : string) (args : list any) : M unit :=
  match x with
  | None => mret tt
  | Some l =>
      defer (Builder_release l)
        (b ← loadBuilder l;
         if Level.Enabled (Level (BEvent b))
         then Builder_log l (fmt_Sprintf std format args)
         else mret tt)
  end.

Definition Builder_LogFunc (x : option loc) (fn : func unit string) : M unit :=
  match x with
  | None => mret tt
  | Some l =>
      defer (Builder_release l)
        (b ← loadBuilder l;
         if Level.Enabled (Level (BEvent b))
         then msg ← call fn tt; Builder_log l msg
         else mret tt)
  end.

(** The event after a log call, in the words of the documentation: the
    message is added through [AddMessage], and through the generic field
    [msg] when [AddMessage] reports it unhandled. *)
Definition with_message (event : E) (msg : string) : E :=
  if fst (AddMessage event msg)
  then snd (AddMessage event msg)
  else AddField (snd (AddMessage event msg)) "msg" (VString msg).

(** The store after a log call on the builder at [l] whose event is
    disabled: the builder went back to its pool, nothing else happened. *)
Definition released (sh : loggerShared) (l : loc) (w : World) : World :=
  {| builders := builders w; contexts := contexts w;
     effects := effects w ++ [PoolPut (pool sh) l]; user := user w |}.

(** The store after a log call on the builder at [l] whose event is
    enabled: the event carries the message, it was handed to the writer,
    and then the builder went back to its pool. *)
Definition logged (sh : loggerShared) (l : loc) (event : E) (w : World) : World :=
  {| builders := alter (fun b => {| BEvent := event; shared := shared b |}) l (builders w);
     contexts := contexts w;
     effects := effects w ++ [WriterWrite event; PoolPut (pool sh) l];
     user := user w |}.

(** The store after a field method on the builder at [l] set its event
    to [event]. *)
Definition event_set (l : loc) (event : E) (w : World) : World :=
  {| builders := alter (fun b => {| BEvent := event; shared := shared b |}) l (builders w);
     contexts := contexts w; effects := effects w; user := user w |}.

(** The store after a field method on the context at [l]: one more
    modifier, at the end. *)
Definition modifier_added (l : loc) (c : Context) (m : ModifyFunc) (w : World) : World :=
  {| builders := builders w;
     contexts := <[l := {| Modifiers := Modifiers c ++ [m]; logger := logger c |}]> (contexts w);
     effects := effects w; user := user w |}.

(** *** Context *)

Definition Context_Logger (x : option loc) : M (option Logger) :=
  match x with
  | None => mret None
  | Some l => c ← loadContext l; mret (logger c)
  end.

(** [x.Modifiers = append(x.Modifiers, fn)]. *)
Definition Context_add (l : loc) (fn : ModifyFunc) : M unit :=
  c ← loadContext l;
  modify (fun w =>
    {| builders := builders w;
       contexts := <[l := {| Modifiers := Modifiers c ++ [fn]; logger := logger c |}]> (contexts w);
       effects := effects w; user := user w |}).

(** The shape shared by the Context field methods:
    [if x != nil && x.logger != nil { x.add(func(event E) error {...}) }; return x]. *)
Definition Context_apply (x : option loc) (m : ModifyFunc) : M (option loc) :=
  match x with
  | Some l =>
      c ← loadContext l;
      match logger c with
      | Some _ => Context_add l m
      | None => mret tt
      end;;
      mret x
  | None => mret x
  end.

Definition Context_Field (x : option loc) (key : string) (val : any) : M (option loc) :=
  Context_apply x (fun event => methods_Field event key val).
Definition Context_Interface (x : option loc) (key : string) (val : any) : M (option loc) :=
  Context_apply x (fun event => methods_Interface event key val).
Definition Context_Err (x : option loc) (err : option error) : M (option loc) :=
  Context_apply x (fun event => methods_Err event err).
Definition Context_Str (x : option loc) (key val : string) : M (option loc) :=
  Context_apply x (fun event => methods_Str event key val).
Definition Context_Int (x : option loc) (key : string) (val : Z) : M (option loc) :=
  Context_apply x (fun event => methods_Int event key val).
Definition Context_Float32 (x : option loc) (key : string) (val : Z) : M (option loc) :=
  Context_apply x (fun event => methods_Float32 event key val).

(** *** The conditional-builder protocol *)

(** Modelled from the spec: conditionalbuilder.go is not among the sources
    (its tests are). A ConditionalBuilder is the Builder pointer itself
    under one of three representations, enabled, disabled or terminated;
    the pointer may be nil in each of them. *)
Inductive ConditionalBuilder :=
| enabledBuilder (b : option loc)
| disabledBuilder (b : option loc)
| terminatedBuilder (b : option loc).

(** Modelled from the spec: [Enabled] is "true only in the enabled
    state". *)
Definition CB_Enabled (c : ConditionalBuilder) : bool :=
  match c with
  | enabledBuilder _ => true
  | _ => false
  end.

(** Modelled from the spec: [Builder] "returns the underlying Builder in
    every state". *)
Definition CB_Builder (c : ConditionalBuilder) : option loc :=
  match c with
  | enabledBuilder b | disabledBuilder b | terminatedBuilder b => b
  end.

(** Modelled from the spec: [Else] turns enabled into terminated,
    disabled into enabled, and leaves terminated as it is. *)
Definition CB_Else (c : ConditionalBuilder) : ConditionalBuilder :=
  match c with
  | enabledBuilder b => terminatedBuilder b
  | disabledBuilder b => enabledBuilder b
  | terminatedBuilder b => terminatedBuilder b
  end.

(** Modelled from the spec: [Call] "invokes fn with the underlying Builder
    only in the enabled state, and only if fn is non-nil; no-op
    otherwise", and returns the receiver so that the chain goes on. On an
    enabled wrapper of a nil Builder the sentences of the spec pull apart
    (identical to a non-nil one, yet fully disabled); the model follows
    the assertion of [testEnabledBuilder] in conditionalbuilder_test.go,
    which fails unless the number of calls is 0 for a nil Builder and 1
    for a non-nil one. *)
Definition CB_Call (c : ConditionalBuilder) (fn : func (option loc) unit)
  : M ConditionalBuilder :=
  match c, fn with
  | enabledBuilder (Some l), Some f => f (Some l);; mret c
  | _, _ => mret c
  end.

(** Modelled from the spec: [If]; on a nil Builder the result is the
    disabled wrapper whatever the condition ([TestBuilder_If_nil]). *)
Definition Builder_If (x : option loc) (cond : bool) : ConditionalBuilder :=
  match x with
  | Some _ => if cond then enabledBuilder x else disabledBuilder x
  | None => disabledBuilder x
  end.

(** Modelled from the spec: [IfFunc], "nil predicate => disabled"; the
    predicate is not consulted on a nil Builder. *)
Definition Builder_IfFunc (x : option loc) (cond : func unit bool) : M ConditionalBuilder :=
  match x, cond with
  | Some _, Some f => c ← f tt; mret (Builder_If x c)
  | _, _ => mret (disabledBuilder x)
  end.

(** Modelled from the spec: [IfLevel], "enabled iff the logger's
    configured threshold satisfies the requested level". *)
Definition Builder_IfLevel (x : option loc) (lvl : Level.Level) : M ConditionalBuilder :=
  match x with
  | Some l =>
      b ← loadBuilder l;
      match shared b with
      | Some sh => mret (Builder_If x (Level.satisfies (level sh) lvl))
      | None => mret (disabledBuilder x)
      end
  | None => mret (disabledBuilder x)
  end.

(** Modelled from the spec: the named shorthands, "each equivalent to
    IfLevel with the corresponding constant". *)
Definition Builder_IfEmerg (x : option loc) := Builder_IfLevel x Level.LevelEmergency.
Definition Builder_IfAlert (x : option loc) := Builder_IfLevel x Level.LevelAlert.
Definition Builder_IfCrit (x : option loc) := Builder_IfLevel x Level.LevelCritical.
Definition Builder_IfErr (x : option loc) := Builder_IfLevel x Level.LevelError.
Definition Builder_IfWarning (x : option loc) := Builder_IfLevel x Level.LevelWarning.
Definition Builder_IfNotice (x : option loc) := Builder_IfLevel x Level.LevelNotice.
Definition Builder_IfInfo (x : option loc) := Builder_IfLevel x Level.LevelInformational.
Definition Builder_IfDebug (x : option loc) := Builder_IfLevel x Level.LevelDebug.
Definition Builder_IfTrace (x : option loc) := Builder_IfLevel x Level.LevelTrace.

(** The chain [x.If(cond).Call(f).Else().Call(g)]. *)
Definition if_call_else_call (x : option loc) (cond : bool)
    (f g : func (option loc) unit) : M ConditionalBuilder :=
  c ← CB_Call (Builder_If x cond) f;
  CB_Call (CB_Else c) g.

End Model.

Global Arguments loggerShared E : clear implicits.
Global Arguments Builder E : clear implicits.
Global Arguments Context E : clear implicits.
Global Arguments ModifyFunc E : clear implicits.
Global Arguments effect E : clear implicits.
Global Arguments World E U : clear implicits.
Global Arguments Outcome E U A : clear implicits.
Global Arguments M E U A : clear implicits.
Global Arguments func E U A B : clear implicits.

(** *** A sample backend, for evaluating the model on concrete inputs *)

(** An event that records what it is given. With [typed] set, the typed
    primitives handle their values; without, they report them unhandled,
    so that callers fall back to [AddField]. *)
Record sampleEvent := {
  LevelValue : Level.Level;
  typed : bool;
  fields : list (string * any);
  message : option string;
}.

Definition sample_add (e : sampleEvent) (key : string) (val : any) : sampleEvent :=
  {| LevelValue := LevelValue e; typed := typed e;
     fields := fields e ++ [(key, val)]; message := message e |}.

Definition sample_typed (e : sampleEvent) (key : string) (val : any) : bool * sampleEvent :=
  if typed e then (true, sample_add e key val) else (false, e).

Global Instance sampleEvent_Event : Event sampleEvent := {
  Level := LevelValue;
  AddField := sample_add;
  AddMessage e msg :=
    if typed e
    then (true, {| LevelValue := LevelValue e; typed := typed e;
                   fields := fields e; message := Some msg |})
    else (false, e);
  AddError e err := sample_typed e "error" (err_any err);
  AddString e key val := sample_typed e key (VString val);
  AddInt e key val := sample_typed e key (VInt val);
  AddFloat32 e key val := sample_typed e key (VFloat32 val);
}.

Definition sampleStd : StdLib := {|
  layoutSeconds := Fmt.civilSeconds;
  base64_StdEncoding_EncodeToString := fun _ => "";
  fmt_Sprintf := fun format _ => format;
|}.

Definition sampleShared (lvl : Level.Level) : loggerShared sampleEvent :=
  {| level := lvl; writer := fun _ => Some (ErrOther "write failed"); pool := 0%nat |}.

(** The sample event at level [lvl], before any field. *)
Definition sampleEventAt (lvl : Level.Level) (typedEvent : bool) : sampleEvent :=
  {| LevelValue := lvl; typed := typedEvent; fields := []; message := None |}.

Definition sampleBuilder (eventLevel loggerLevel : Level.Level) (typedEvent : bool)
  : Builder sampleEvent :=
  {| BEvent := sampleEventAt eventLevel typedEvent;
     shared := Some (sampleShared loggerLevel) |}.

Definition sampleContext : Context sampleEvent :=
  {| Modifiers := []; logger := Some 7%nat |}.

(** A store with one builder, at address 0, whose event has level
    [eventLevel] and whose logger has threshold [loggerLevel], and one
    context, at address 1; the state of the calling code is a counter. *)
Definition sampleWorld (eventLevel loggerLevel : Level.Level) (typedEvent : bool)
  : World sampleEvent nat :=
  {| builders := {[ 0%nat := sampleBuilder eventLevel loggerLevel typedEvent ]};
     contexts := {[ 1%nat := sampleContext ]};
     effects := [];
     user := 0%nat |}.

(** A store with one builder, at address 0, that has no shared state (the
    zero value of [Builder] around an event of level [eventLevel]). *)
Definition bareWorld (eventLevel : Level.Level) : World sampleEvent nat :=
  {| builders := {[ 0%nat := {| BEvent := sampleEventAt eventLevel true; shared := None |} ]};
     contexts := ∅; effects := []; user := 0%nat |}.

(** A callback of the calling code that counts its calls. *)
Definition count_call {E A : Type} : func E nat A unit :=
  Some (fun _ => modify (fun w =>
    {| builders := builders w; contexts := contexts w; effects := effects w;
       user := S (user w) |})).

(** The calls counted so far, when the code returned. *)
Definition calls_of {E A : Type} (o : Outcome E nat A) : option nat :=
  match o with
  | Ok _ w => Some (user w)
  | Panic _ _ => None
  end.

(** A callback that returns a message and leaves the store alone. *)
Definition constant_message (msg : string) : unit -> M sampleEvent nat string :=
  fun _ => mret msg.

(** *** The assertions of conditionalbuilder_test.go, run on the model *)

Definition cb_eqb (c1 c2 : ConditionalBuilder) : bool :=
  match c1, c2 with
  | enabledBuilder a, enabledBuilder b
  | disabledBuilder a, disabledBuilder b
  | terminatedBuilder a, terminatedBuilder b => bool_decide (a = b)
  | _, _ => false
  end.

(** [testEnabledBuilder]: one call for a non-nil Builder, none for nil. *)
Definition testEnabledBuilder (b : option loc) (w : World sampleEvent nat) : bool :=
  let c := enabledBuilder b in
  match CB_Call c count_call w with
  | Ok _ w' =>
      match user w' with
      | 0%nat => bool_decide (b = None)
      | 1%nat => negb (bool_decide (b = None))
      | _ => false
      end
      && CB_Enabled c
      && bool_decide (CB_Builder c = b)
      && cb_eqb (CB_Else c) (terminatedBuilder b)
  | Panic _ _ => false
  end.

(** [testDisabledBuilder] and [testTerminatedBuilder]: no call at all. *)
Definition testDisabledBuilder (b : option loc) (w : World sampleEvent nat) : bool :=
  let c := disabledBuilder b in
  match (CB_Call c None;; CB_Call c count_call) w with
  | Ok _ w' =>
      bool_decide (user w' = user w)
      && negb (CB_Enabled c)
      && bool_decide (CB_Builder c = b)
      && cb_eqb (CB_Else c) (enabledBuilder b)
  | Panic _ _ => false
  end.

Definition testTerminatedBuilder (b : option loc) (w : World sampleEvent nat) : bool :=
  let c := terminatedBuilder b in
  match (CB_Call c None;; CB_Call c count_call) w with
  | Ok _ w' =>
      bool_decide (user w' = user w)
      && negb (CB_Enabled c)
      && bool_decide (CB_Builder c = b)
      && cb_eqb (CB_Else c) c
  | Panic _ _ => false
  end.

(** [TestBuilder_IfLevel]: every named level and its shorthand against
    every logger level from [LevelDisabled] to [LevelTrace+1]. *)
Definition shorthands
  : list (Level.Level * (option loc -> M sampleEvent nat ConditionalBuilder)) :=
  [(Level.LevelEmergency, Builder_IfEmerg); (Level.LevelAlert, Builder_IfAlert);
   (Level.LevelCritical, Builder_IfCrit); (Level.LevelError, Builder_IfErr);
   (Level.LevelWarning, Builder_IfWarning); (Level.LevelNotice, Builder_IfNotice);
   (Level.LevelInformational, Builder_IfInfo); (Level.LevelDebug, Builder_IfDebug);
   (Level.LevelTrace, Builder_IfTrace)].

Definition TestBuilder_IfLevel : bool :=
  forallb (fun '(conditionLevel, method) =>
    forallb (fun loggerLevel =>
      let w := sampleWorld 0 loggerLevel true in
      let b := Some 0%nat in
      match method b w, Builder_IfLevel b conditionLevel w with
      | Ok v _, Ok v' _ =>
          (if loggerLevel <? conditionLevel
           then cb_eqb v (disabledBuilder b)
           else cb_eqb v (enabledBuilder b))
          && cb_eqb v v'
      | _, _ => false
      end)
      [-1; 0; 1; 2; 3; 4; 5; 6; 7; 8; 9])
    shorthands.

(** Whether a run returned the wrapper [c]. *)
Definition returns {E U : Type} (o : Outcome E U ConditionalBuilder)
    (c : ConditionalBuilder) : bool :=
  match o with
  | Ok v _ => cb_eqb v c
  | Panic _ _ => false
  end.

Definition constant_predicate (v : bool) : func sampleEvent nat unit bool :=
  Some (fun _ => mret v).

(** [TestBuilder_If_nil], [TestBuilder_IfFunc_nil],
    [TestBuilder_IfLevel_nil] and the nil tests of the shorthands: on a
    nil Builder every constructor returns the disabled wrapper of nil. *)
Definition TestBuilder_nil : bool :=
  let w := sampleWorld 6 0 true in
  let nil := disabledBuilder None in
  cb_eqb (Builder_If None true) nil
  && cb_eqb (Builder_If None false) nil
  && returns (Builder_IfFunc None None w) nil
  && returns (Builder_IfFunc None (constant_predicate true) w) nil
  && returns (Builder_IfFunc None (constant_predicate false) w) nil
  && returns (Builder_IfLevel None Level.LevelInformational w) nil
  && returns (Builder_IfLevel None Level.LevelEmergency w) nil
  && forallb (fun '(_, method) => returns (method None w) nil) shorthands.

(** [TestBuilder_If] and [TestBuilder_IfFunc], on a Builder whose event is
    informational and whose shared state is the zero value. *)
Definition TestBuilder_If_IfFunc : bool :=
  let w := sampleWorld 6 0 true in
  let b := Some 0%nat in
  cb_eqb (Builder_If b true) (enabledBuilder b)
  && cb_eqb (Builder_If b false) (disabledBuilder b)
  && returns (Builder_IfFunc b None w) (disabledBuilder b)
  && returns (Builder_IfFunc b (constant_predicate true) w) (enabledBuilder b)
  && returns (Builder_IfFunc b (constant_predicate false) w) (disabledBuilder b).

(** The fields of the builder at address 0 after a run. *)
Definition fields_after {A : Type} (o : Outcome sampleEvent nat A)
  : option (list (string * any)) :=
  match o with
  | Ok _ w => (fun b => fields (BEvent b)) <$> builders w !! 0%nat
  | Panic _ _ => None
  end.

End Core.

(** ** arraysupport.go: the default array strategy *)
Module ArraySupport.

(** A backend value under construction: an array ([[]any]) or an object,
    or nothing yet. *)
#[warnings="-register-all"]
Inductive json :=
| JNull
| JArray (items : list json)
| JObject (members : list (string * json)).

(** [sliceArraySupport.NewArray]: the nil slice. *)
Definition NewArray : json := JArray [].

(** [sliceArraySupport.AppendField] and [AppendArray]:
    [append(arr, val)]; an appended array is one element. *)
Definition AppendField (arr val : json) : json :=
  match arr with
  | JArray items => JArray (items ++ [val])
  | _ => JArray [val]
  end.

Definition AppendArray (arr val : json) : json := AppendField arr val.

Definition CanAppendArray : bool := true.

(** Modelled from the spec: the object counterpart, a member added under
    its key (the object strategy is not among the sources). *)
Definition NewObject : json := JObject [].

Definition SetMember (obj : json) (key : string) (val : json) : json :=
  match obj with
  | JObject members => JObject (members ++ [(key, val)])
  | _ => JObject [(key, val)]
  end.

End ArraySupport.

(** ** chain.go *)
Module Chain.
Import ArraySupport.

Definition loc := nat.
Definition Logger := nat.

(** The top-level parent of a chain, a [*Builder] or a [*Context]: its
    identity, whether it is enabled, and its root logger. *)
Record root := {
  root_id : nat;
  root_enabled : bool;
  root_logger : option Logger;
}.

Global Instance root_eq_dec : EqDecision root.
Proof. solve_decision. Defined.

(** An interface value ([any], [Parent[E]] or [P]), by dynamic type. A
    pointer inside may be nil while the interface is not. *)
Inductive value :=
| Nil
| RootPtr (p : option root)
| ChainPtr (c : option loc)
| ArrayPtr (x : option loc)
| ObjectPtr (x : option loc)
| Data (d : json).

(** [refPoolItem]: the two slots shared by [Chain], [ArrayBuilder] and
    [ObjectBuilder]. *)
Record refPoolItem := { a : value; b : value }.

Definition zero_item : refPoolItem := {| a := Nil; b := Nil |}.

(** The store: the cells by address, the free list of the pool, the cells
    handed out and taken back so far, the misuse reports that reached a
    logger, and what was attached to top-level parents. *)
Record state := {
  cells : gmap loc refPoolItem;
  pool : list loc;
  gets : list loc;
  puts : list loc;
  reports : list (Logger * string);
  attached : list (root * string * json);
}.

Definition with_cells (f : gmap loc refPoolItem -> gmap loc refPoolItem) (s : state) : state :=
  {| cells := f (cells s); pool := pool s; gets := gets s; puts := puts s;
     reports := reports s; attached := attached s |}.

(** Normal return, a run-time panic, or a recursion through parents that
    did not end within the fuel given. *)
Inductive Outcome (A : Type) :=
| Ok (r : A) (s : state)
| Panic (msg : string) (s : state)
| OutOfFuel.
Global Arguments Ok {A} r s.
Global Arguments Panic {A} msg s.
Global Arguments OutOfFuel {A}.

Definition M (A : Type) : Type := state -> Outcome A.

Definition ret {A} (r : A) : M A := fun s => Ok r s.

Definition bind {A B} (f : A -> M B) (m : M A) : M B :=
  fun s => match m s with
           | Ok r s' => f r s'
           | Panic msg s' => Panic msg s'
           | OutOfFuel => OutOfFuel
           end.

Global Instance M_ret : MRet M := @ret.
Global Instance M_bind : MBind M := @bind.

Definition panic {A} (msg : string) : M A := fun s => Panic msg s.
Definition out_of_fuel {A} : M A := fun _ => OutOfFuel.
Definition modify (f : state -> state) : M unit := fun s => Ok tt (f s).

Definition nil_deref : string := "invalid memory address or nil pointer dereference".
Definition bad_conversion : string := "interface conversion".

Definition load (l : loc) : M refPoolItem :=
  fun s => match cells s !! l with
           | Some it => Ok it s
           | None => Panic nil_deref s
           end.

Definition store (l : loc) (it : refPoolItem) : M unit :=
  modify (with_cells <[l := it]>).

(** *** The pool of cells *)

(** Modelled from the spec: [refPoolGet] (the pool is not among the
    sources), "drawn from a free-list pool": the head of the free list, or
    a new cell when the list is empty; either way the cell is cleared. *)
Definition refPoolGet : M loc :=
  fun s =>
    match pool s with
    | l :: rest =>
        Ok l {| cells := <[l := zero_item]> (cells s); pool := rest;
                gets := gets s ++ [l]; puts := puts s;
                reports := reports s; attached := attached s |}
    | [] =>
        let l := fresh (dom (cells s)) in
        Ok l {| cells := <[l := zero_item]> (cells s); pool := [];
                gets := gets s ++ [l]; puts := puts s;
                reports := reports s; attached := attached s |}
    end.

(** Modelled from the spec: [refPoolPut], "both slots are cleared before
    the cell re-enters the pool"; nil is ignored. *)
Definition refPoolPut (v : option loc) : M unit :=
  match v with
  | Some l =>
      modify (fun s =>
        {| cells := <[l := zero_item]> (cells s); pool := l :: pool s;
           gets := gets s; puts := puts s ++ [l];
           reports := reports s; attached := attached s |})
  | None => mret tt
  end.

(** *** Reporting misuse *)

(** Modelled from the spec: [logger.DPanic().Log(msg)] (logger.go is not
    among the sources). The policy belongs to the logger: a report that
    reaches a logger is recorded (what the policy then does with it, stop
    or log and go on, is the backend's); on a nil logger there is no
    policy to reach and the call does nothing. *)
Definition DPanic_Log (lg : option Logger) (msg : string) : M unit :=
  match lg with
  | Some g =>
      modify (fun s =>
        {| cells := cells s; pool := pool s; gets := gets s; puts := puts s;
           reports := reports s ++ [(g, msg)]; attached := attached s |})
  | None => mret tt
  end.

(** *** Interface values *)

(** Whether a dynamic type implements [Parent[E]]. *)
Definition is_parent (v : value) : bool :=
  match v with
  | RootPtr _ | ChainPtr _ | ArrayPtr _ | ObjectPtr _ => true
  | Nil | Data _ => false
  end.

Definition is_nil (v : value) : bool :=
  match v with
  | Nil => true
  | _ => false
  end.

(** [v1 == v2] on interface values: comparing two values of a type that
    is not comparable (a slice, a map) panics. *)
Definition iface_eq (v1 v2 : value) : M bool :=
  match v1, v2 with
  | Nil, Nil => mret true
  | RootPtr p, RootPtr q => mret (bool_decide (p = q))
  | ChainPtr p, ChainPtr q => mret (bool_decide (p = q))
  | ArrayPtr p, ArrayPtr q => mret (bool_decide (p = q))
  | ObjectPtr p, ObjectPtr q => mret (bool_decide (p = q))
  | Data _, Data _ => panic "comparing uncomparable type"
  | _, _ => mret false
  end.

(** *** Chain: the current slot *)

(** [func (x *Chain[E, P]) current() (p Parent[E])]:
    [if x != nil { p, _ = x.b.(Parent[E]) }]. *)
Definition Chain_current (x : option loc) : M value :=
  match x with
  | Some l => it ← load l; mret (if is_parent (b it) then b it else Nil)
  | None => mret Nil
  end.

(** [func (x *Chain[E, P]) setCurrent(p Parent[E])]: [x.b = p]. *)
Definition Chain_setCurrent (x : option loc) (p : value) : M unit :=
  match x with
  | Some l => it ← load l; store l {| a := a it; b := p |}
  | None => panic nil_deref
  end.

(** *** The methods of [Parent[E]], by dynamic type *)

(** [Chain.Enabled] and [Chain.Root], with the call into the current
    target left open:
    [if current := x.current(); current != nil { return current.M() }]. *)
Definition Chain_Enabled_with (Enabled : value -> M bool) (x : option loc) : M bool :=
  current ← Chain_current x;
  if is_nil current then mret false else Enabled current.

Definition Chain_Root_with (Root : value -> M (option Logger)) (x : option loc)
  : M (option Logger) :=
  current ← Chain_current x;
  if is_nil current then mret None else Root current.

(** Modelled from the spec: [Enabled] and [Root] of an array or object
    builder (array.go and object.go are not among the sources): a nil
    builder is disabled and has no root, any other answers as its parent
    does. *)
Definition Nested_Enabled_with (Enabled : value -> M bool) (x : option loc) : M bool :=
  match x with
  | Some l => it ← load l; if is_parent (a it) then Enabled (a it) else mret false
  | None => mret false
  end.

Definition Nested_Root_with (Root : value -> M (option Logger)) (x : option loc)
  : M (option Logger) :=
  match x with
  | Some l => it ← load l; if is_parent (a it) then Root (a it) else mret None
  | None => mret None
  end.

(** Modelled from the spec: [Enabled] and [Root] of a top-level parent. *)
Definition root_Enabled (p : option root) : bool :=
  match p with
  | Some r => root_enabled r
  | None => false
  end.

Definition root_Root (p : option root) : option Logger :=
  match p with
  | Some r => root_logger r
  | None => None
  end.

(** [p.Enabled()] on an interface value; a call on the nil interface
    panics. *)
Fixpoint Parent_Enabled (fuel : nat) (p : value) : M bool :=
  match fuel with
  | O => out_of_fuel
  | S fuel =>
      match p with
      | RootPtr r => mret (root_Enabled r)
      | ChainPtr x => Chain_Enabled_with (Parent_Enabled fuel) x
      | ArrayPtr x | ObjectPtr x => Nested_Enabled_with (Parent_Enabled fuel) x
      | Nil | Data _ => panic nil_deref
      end
  end.

(** [p.Root()] on an interface value. *)
Fixpoint Parent_Root (fuel : nat) (p : value) : M (option Logger) :=
  match fuel with
  | O => out_of_fuel
  | S fuel =>
      match p with
      | RootPtr r => mret (root_Root r)
      | ChainPtr x => Chain_Root_with (Parent_Root fuel) x
      | ArrayPtr x | ObjectPtr x => Nested_Root_with (Parent_Root fuel) x
      | Nil | Data _ => panic nil_deref
      end
  end.

Definition item_data (it : refPoolItem) : json :=
  match b it with
  | Data d => d
  | _ => JNull
  end.

(** The forwarding methods of [Chain] ([jsonWriteArray],
    [jsonWriteObject], [arrWriteArray], [objWriteObject], ...), with the
    call into the current target left open: [x.current().write(...)],
    without a nil check. *)
Definition Chain_write_with (write : value -> M unit) (x : option loc) : M unit :=
  current ← Chain_current x;
  if is_nil current then panic nil_deref else write current.

(** Modelled from the spec: the same methods on the other parents,
    "write value into container" (builder.go, array.go and object.go are
    not among the sources), taken together as one operation that attaches
    a finished array or object to the parent [p] under [key]: a top-level
    parent receives it as a field of its event, an array appends it (the
    default strategy of arraysupport.go), an object adds it as a
    member. *)
Fixpoint Parent_write (fuel : nat) (p : value) (key : string) (val : json) : M unit :=
  match fuel with
  | O => out_of_fuel
  | S fuel =>
      match p with
      | RootPtr (Some r) =>
          modify (fun s =>
            {| cells := cells s; pool := pool s; gets := gets s; puts := puts s;
               reports := reports s; attached := attached s ++ [(r, key, val)] |})
      | RootPtr None => panic nil_deref
      | ChainPtr x => Chain_write_with (fun current => Parent_write fuel current key val) x
      | ArrayPtr (Some l) =>
          it ← load l;
          store l {| a := a it; b := Data (AppendArray (item_data it) val) |}
      | ObjectPtr (Some l) =>
          it ← load l;
          store l {| a := a it; b := Data (SetMember (item_data it) key val) |}
      | ArrayPtr None | ObjectPtr None | Nil | Data _ => panic nil_deref
      end
  end.

(** *** Chain *)

Definition Chain_Enabled (fuel : nat) (x : option loc) : M bool :=
  Chain_Enabled_with (Parent_Enabled fuel) x.

Definition Chain_Root (fuel : nat) (x : option loc) : M (option Logger) :=
  Chain_Root_with (Parent_Root fuel) x.

(** [newChain]: a cell from [refPoolGet()], then [c.a = parent] and
    [c.b = current]. *)
Definition newChain (parent : option root) (current : value) : M (option loc) :=
  c ← refPoolGet;
  store c {| a := RootPtr parent; b := current |};;
  mret (Some c).

Definition newChainParent (parent : option root) : M (option loc) :=
  newChain parent (RootPtr parent).

(** [func (x *Chain[E, P]) newChain(current Parent[E]) any]:
    [newChain[E](x.a.(P), current)]. *)
Definition Chain_newChain (x : option loc) (current : value) : M (option loc) :=
  match x with
  | Some l =>
      it ← load l;
      match a it with
      | RootPtr parent => newChain parent current
      | _ => panic bad_conversion
      end
  | None => panic nil_deref
  end.

(** *** Array and object builders *)

Inductive kind := KArray | KObject.

Definition builder_ptr (k : kind) (x : option loc) : value :=
  match k with
  | KArray => ArrayPtr x
  | KObject => ObjectPtr x
  end.

Definition new_data (k : kind) : json :=
  match k with
  | KArray => NewArray
  | KObject => NewObject
  end.

(** Modelled from the spec: [ArrayWithKey] and [ObjectWithKey] (with
    [Array] and [Object] for the empty key): when the parent is enabled a
    pooled cell is acquired, its parent slot set and its data slot given
    an empty array or object; otherwise the result is nil. The key only
    matters to backends that allocate by key. *)
Definition NestedWithKey (fuel : nat) (k : kind) (p : value) (key : string)
  : M (option loc) :=
  enabled ← Parent_Enabled fuel p;
  if (enabled : bool)
  then x ← refPoolGet;
       store x {| a := p; b := Data (new_data k) |};;
       mret (Some x)
  else mret None.

Definition ArrayWithKey (fuel : nat) := NestedWithKey fuel KArray.
Definition ObjectWithKey (fuel : nat) := NestedWithKey fuel KObject.
Definition Array (fuel : nat) (p : value) := ArrayWithKey fuel p "".
Definition Object (fuel : nat) (p : value) := ObjectWithKey fuel p "".

(** Modelled from the spec: [x.p()], the parent of a builder, the zero
    value on a nil builder. *)
Definition Nested_p (x : option loc) : M value :=
  match x with
  | Some l => it ← load l; mret (a it)
  | None => mret (ChainPtr None)
  end.

(** The zero value of the dynamic type of [p]. *)
Definition zero_like (p : value) : value :=
  match p with
  | RootPtr _ => RootPtr None
  | ChainPtr _ => ChainPtr None
  | ArrayPtr _ => ArrayPtr None
  | ObjectPtr _ => ObjectPtr None
  | Nil | Data _ => Nil
  end.

(** Modelled from the spec: [As] of an array or object builder, which
    "attaches it to its own parent under key", gives the builder back to
    the pool and returns the parent; a builder that is not enabled does
    nothing and returns the zero value. *)
Definition Nested_As (fuel : nat) (k : kind) (x : option loc) (key : string) : M value :=
  enabled ← Parent_Enabled fuel (builder_ptr k x);
  p ← Nested_p x;
  if (enabled : bool)
  then match x with
       | Some l =>
           it ← load l;
           Parent_write fuel p key (item_data it);;
           refPoolPut (Some l);;
           mret p
       | None => mret (zero_like p)
       end
  else mret (zero_like p).

(** Modelled from the spec: [as], the method of [arrayBuilderInterface]
    and [objectBuilderInterface] that [Chain.As] calls: the builder's [As]
    with its result as [any]. *)
Definition builder_as (fuel : nat) (current : value) (key : string) : M value :=
  match current with
  | ArrayPtr x => Nested_As fuel KArray x key
  | ObjectPtr x => Nested_As fuel KObject x key
  | _ => panic nil_deref
  end.

(** [Builder.Array], [Builder.Object], [Context.Array], [Context.Object]:
    [if x.Enabled() { return Array[E](newChainParent[E](x)) }; return nil]. *)
Definition Top_nested (fuel : nat) (k : kind) (x : option root) : M (option loc) :=
  if root_Enabled x
  then c ← newChainParent x; NestedWithKey fuel k (ChainPtr c) ""
  else mret None.

(** [ArrayBuilder.Array], [ArrayBuilder.Object],
    [ObjectBuilder.arrayWithKey] and [ObjectBuilder.objectWithKey]: a
    sub-builder of kind [k] under the builder [x] of kind [kx], which
    succeeds only when the parent of [x] is a chain. *)
Definition Nested_sub (fuel : nat) (kx k : kind) (x : option loc) (key : string)
  : M (option loc) :=
  enabled ← Parent_Enabled fuel (builder_ptr kx x);
  if (enabled : bool)
  then p ← Nested_p x;
       match p with
       | ChainPtr c =>
           c' ← Chain_newChain c (builder_ptr kx x);
           NestedWithKey fuel k (ChainPtr c') key
       | _ =>
           lg ← Parent_Root fuel (builder_ptr kx x);
           DPanic_Log lg
             (match k with
              | KArray => "logiface: cannot chain a sub-array from a non-chain parent"
              | KObject => "logiface: cannot chain a sub-object from a non-chain parent"
              end);;
           mret None
       end
  else mret None.

(** [Chain.Array] and [Chain.Object]:
    [if x.Enabled() { return Array[E](x) }; return nil]. *)
Definition Chain_nested (fuel : nat) (k : kind) (x : option loc) : M (option loc) :=
  enabled ← Chain_Enabled fuel x;
  if (enabled : bool) then NestedWithKey fuel k (ChainPtr x) "" else mret None.

(** *** Chain: navigation *)

(** The body shared by the two builder cases of [Chain.As]. *)
Definition As_close (fuel : nat) (x : option loc) (current : value) (key : string) : M unit :=
  r ← builder_as fuel current key;
  match r with
  | ChainPtr (Some c) =>
      ca ← (it ← load c; mret (a it));
      xa ← (match x with
            | Some l => it ← load l; mret (a it)
            | None => panic nil_deref
            end);
      same ← iface_eq ca xa;
      if (same : bool)
      then cc ← Chain_current (Some c);
           Chain_setCurrent x cc;;
           refPoolPut (Some c)
      else Chain_setCurrent x Nil
  | _ => Chain_setCurrent x Nil
  end.

Definition As_failed : string :=
  "logiface: chain as failed: called on invalid or terminated parent".

(** [func (x *Chain[E, P]) As(key string) *Chain[E, P]]. *)
Definition Chain_As (fuel : nat) (x : option loc) (key : string) : M (option loc) :=
  current ← Chain_current x;
  (if is_nil current then mret tt
   else
     match current with
     | ArrayPtr _ => As_close fuel x current key
     | ObjectPtr _ => As_close fuel x current key
     | _ => Chain_setCurrent x Nil
     end;;
     current' ← Chain_current x;
     if is_nil current'
     then lg ← Chain_Root fuel x; DPanic_Log lg As_failed
     else mret tt);;
  mret x.

(** [func (x *Chain[E, P]) Add() *Chain[E, P]]. *)
Definition Chain_Add (fuel : nat) (x : option loc) : M (option loc) :=
  Chain_As fuel x "".

(** [func (x *Chain[E, P]) End() (p P)]. *)
Definition Chain_End (x : option loc) : M (option root) :=
  match x with
  | Some l =>
      it ← load l;
      p ← match a it with
          | Nil => mret None
          | RootPtr p => mret p
          | _ => panic bad_conversion
          end;
      refPoolPut (Some l);;
      mret p
  | None => mret None
  end.

(** [Chain.CurArray] and [Chain.CurObject]. *)
Definition Chain_Cur (fuel : nat) (k : kind) (x : option loc) : M (option loc) :=
  enabled ← Chain_Enabled fuel x;
  if (enabled : bool)
  then current ← Chain_current x;
       if is_nil current then mret None
       else match k, current with
            | KArray, ArrayPtr y => mret y
            | KObject, ObjectPtr y => mret y
            | _, _ =>
                lg ← Chain_Root fuel x;
                DPanic_Log lg
                  (match k with
                   | KArray => "logiface: cannot access a non-array as an array"
                   | KObject => "logiface: cannot access a non-object as an object"
                   end);;
                mret None
            end
  else mret None.

Definition Chain_CurArray (fuel : nat) := Chain_Cur fuel KArray.
Definition Chain_CurObject (fuel : nat) := Chain_Cur fuel KObject.

(** [Builder.ArrayFunc], [Builder.ObjectFunc], [Context.ArrayFunc] and
    [Context.ObjectFunc]:
    [if x.Enabled() { b := ArrayWithKey[E](newChainParent[E](x), key);
    if fn != nil { fn(b) }; b.As(key).End() }; return x]. *)
Definition Top_Func (fuel : nat) (k : kind) (x : option root) (key : string)
    (fn : option (option loc -> M unit)) : M (option root) :=
  (if root_Enabled x
   then c ← newChainParent x;
        b ← NestedWithKey fuel k (ChainPtr c) key;
        match fn with
        | Some f => f b
        | None => mret tt
        end;;
        r ← Nested_As fuel k b key;
        match r with
        | ChainPtr c' => Chain_End c';; mret tt
        | _ => panic bad_conversion
        end
   else mret tt);;
  mret x.

(** The methods above under the names they have in chain.go. *)
Definition Builder_Array (fuel : nat) := Top_nested fuel KArray.
Definition Builder_Object (fuel : nat) := Top_nested fuel KObject.
Definition Builder_ArrayFunc (fuel : nat) := Top_Func fuel KArray.
Definition Builder_ObjectFunc (fuel : nat) := Top_Func fuel KObject.
Definition ArrayBuilder_Array (fuel : nat) (x : option loc) :=
  Nested_sub fuel KArray KArray x "".
Definition ArrayBuilder_Object (fuel : nat) (x : option loc) :=
  Nested_sub fuel KArray KObject x "".
Definition ObjectBuilder_arrayWithKey (fuel : nat) := Nested_sub fuel KObject KArray.
Definition ObjectBuilder_objectWithKey (fuel : nat) := Nested_sub fuel KObject KObject.
Definition ObjectBuilder_Array (fuel : nat) (x : option loc) :=
  ObjectBuilder_arrayWithKey fuel x "".
Definition ObjectBuilder_Object (fuel : nat) (x : option loc) :=
  ObjectBuilder_objectWithKey fuel x "".
Definition Chain_Array (fuel : nat) := Chain_nested fuel KArray.
Definition Chain_Object (fuel : nat) := Chain_nested fuel KObject.

(** *** Opening and closing nested scopes *)

(** [kinds] more scopes, each under the one before, starting under the
    builder [x] of kind [kx]; the result is the innermost builder. *)
Fixpoint open_under (fuel : nat) (kx : kind) (x : option loc) (kinds : list kind)
  : M (kind * option loc) :=
  match kinds with
  | [] => mret (kx, x)
  | k :: kinds =>
      y ← Nested_sub fuel kx k x "";
      open_under fuel k y kinds
  end.

(** A first scope of kind [k] on the top-level parent [p], then [kinds]
    more, nested. *)
Definition open_scopes (fuel : nat) (p : option root) (k : kind) (kinds : list kind)
  : M (kind * option loc) :=
  x ← Top_nested fuel k p;
  open_under fuel k x kinds.

(** [Chain.As] once per key. *)
Fixpoint As_all (fuel : nat) (x : option loc) (keys : list string) : M (option loc) :=
  match keys with
  | [] => mret x
  | key :: keys => x' ← Chain_As fuel x key; As_all fuel x' keys
  end.

(** Closing in matching order: the innermost builder's own [As], then
    [Chain.As] for each enclosing scope, then [End]. *)
Definition close_scopes (fuel : nat) (top : kind * option loc) (key : string)
    (keys : list string) : M (option root) :=
  r ← Nested_As fuel (fst top) (snd top) key;
  match r with
  | ChainPtr c => c' ← As_all fuel c keys; Chain_End c'
  | _ => panic bad_conversion
  end.

Definition round_trip (fuel : nat) (p : option root) (k : kind) (kinds : list kind)
    (key : string) (keys : list string) : M (option root) :=
  top ← open_scopes fuel p k kinds;
  close_scopes fuel top key keys.

(** *** Invariants and expected stores *)

(** [keeps m R]: whenever [m] returns, the stores before and after are
    related by [R]. *)
Definition keeps {A} (m : M A) (R : state -> state -> Prop) : Prop :=
  forall s r s', m s = Ok r s' -> R s s'.

Definition same_reports : state -> state -> Prop :=
  fun s s' => reports s' = reports s.

Definition unchanged : state -> state -> Prop := fun s s' => s' = s.

(** [nest p s v locs]: in the store [s] the value [v] is the innermost
    builder of scopes opened one under the other on the top-level parent
    [p] (or [p] itself when none is open). Each scope is a builder cell
    whose parent slot points to a chain cell owned by [p], whose current
    slot holds the enclosing scope. [locs] lists the cells, innermost
    first: builder, chain, builder, chain, ... *)
Inductive nest (p : root) (s : state) : value -> list loc -> Prop :=
| nest_root : nest p s (RootPtr (Some p)) []
| nest_scope k lb lc d cur locs :
    cells s !! lb = Some {| a := ChainPtr (Some lc); b := Data d |} ->
    cells s !! lc = Some {| a := RootPtr (Some p); b := cur |} ->
    nest p s cur locs ->
    nest p s (builder_ptr k (Some lb)) (lb :: lc :: locs).

(** The store after [refPoolPut] of the cell at [l]. *)
Definition put_cell (l : loc) (s : state) : state :=
  {| cells := <[l := zero_item]> (cells s); pool := l :: pool s;
     gets := gets s; puts := puts s ++ [l];
     reports := reports s; attached := attached s |}.

(** The store after a finished value is attached to the target [cur]. *)
Definition attach_to (cur : value) (key : string) (val : json) (s : state) : state :=
  match cur with
  | RootPtr (Some r) =>
      {| cells := cells s; pool := pool s; gets := gets s; puts := puts s;
         reports := reports s; attached := attached s ++ [(r, key, val)] |}
  | ArrayPtr (Some l) =>
      match cells s !! l with
      | Some it =>
          with_cells <[l := {| a := a it; b := Data (AppendArray (item_data it) val) |}]> s
      | None => s
      end
  | ObjectPtr (Some l) =>
      match cells s !! l with
      | Some it =>
          with_cells <[l := {| a := a it; b := Data (SetMember (item_data it) key val) |}]> s
      | None => s
      end
  | _ => s
  end.

(** Two stores that differ at most in the data of builders and in what
    was attached to top-level parents. *)
Definition same_shape (s s' : state) : Prop :=
  pool s' = pool s /\ gets s' = gets s /\ puts s' = puts s
  /\ reports s' = reports s
  /\ forall l, match cells s !! l, cells s' !! l with
               | Some it, Some it' =>
                   a it' = a it
                   /\ (b it' = b it \/ exists d d', b it = Data d /\ b it' = Data d')
               | None, None => True
               | _, _ => False
               end.

(** The order in which the cells of a nest go back to the pool when it is
    closed in matching order, from the cells in the order they were
    acquired: the innermost builder first (its own [As]), then builder and
    chain cell of each enclosing scope ([Chain.As]), and last the chain
    cell that carried the navigation ([End]). *)
Definition release_order (acquired : list loc) : list loc :=
  match rev acquired with
  | top :: c :: rest => top :: rest ++ [c]
  | short => short
  end.

(** *** The other functions of chain.go *)

(** [parentJSONType]: the constants are [iota] from 1, 0 is "neither". *)
Definition parentJSONType := Z.
Definition parentJSONTypeArray : parentJSONType := 1.
Definition parentJSONTypeObject : parentJSONType := 2.

(** [func getParentJSONType(p any) parentJSONType]: the type switch tries
    the array builders, then the object builders, then the chains, for
    which it goes on with the current slot of the cell as it is
    ([p.isChain().b], a nil dereference on a nil chain). *)
Fixpoint getParentJSONType (fuel : nat) (p : value) : M parentJSONType :=
  match fuel with
  | O => out_of_fuel
  | S fuel =>
      match p with
      | ArrayPtr _ => mret parentJSONTypeArray
      | ObjectPtr _ => mret parentJSONTypeObject
      | ChainPtr (Some l) => it ← load l; getParentJSONType fuel (b it)
      | ChainPtr None => panic nil_deref
      | Nil | RootPtr _ | Data _ => mret 0
      end
  end.

Definition kind_type (k : kind) : parentJSONType :=
  match k with
  | KArray => parentJSONTypeArray
  | KObject => parentJSONTypeObject
  end.

(** [func endChain(v any)]: [refPoolPut(v.(chainInterface).isChain())]. *)
Definition endChain (v : value) : M unit :=
  match v with
  | ChainPtr c => refPoolPut c
  | _ => panic bad_conversion
  end.

(** A forwarding method of [Chain], for any method of [Parent[E]]:
    [return x.current().method(...)]. A call on the nil interface
    panics. *)
Definition Chain_forward {T} (method : value -> M T) (x : option loc) : M T :=
  current ← Chain_current x;
  if is_nil current then panic nil_deref else method current.

(** [ArrayBuilder.ArrayFunc] and [ArrayBuilder.ObjectFunc], which close
    the new builder with [Add] (the key is empty), and
    [ObjectBuilder.ArrayFunc] and [ObjectBuilder.ObjectFunc], which close
    it with [As(key)]:
    [if b := x.Array(); b != nil { if fn != nil { fn(b) };
    endChain(b.Add()) }; return x]. *)
Definition Nested_Func (fuel : nat) (kx k : kind) (x : option loc) (key : string)
    (fn : option (option loc -> M unit)) : M (option loc) :=
  b ← Nested_sub fuel kx k x key;
  match b with
  | Some _ =>
      match fn with
      | Some f => f b
      | None => mret tt
      end;;
      r ← Nested_As fuel k b key;
      endChain r
  | None => mret tt
  end;;
  mret x.

(** [Chain.ArrayFunc] and [Chain.ObjectFunc]:
    [if x.Enabled() { b := ArrayWithKey[E](x, key); if fn != nil { fn(b) };
    b.As(key) }; return x]. *)
Definition Chain_Func (fuel : nat) (k : kind) (x : option loc) (key : string)
    (fn : option (option loc -> M unit)) : M (option loc) :=
  enabled ← Chain_Enabled fuel x;
  (if (enabled : bool)
   then b ← NestedWithKey fuel k (ChainPtr x) key;
        match fn with
        | Some f => f b
        | None => mret tt
        end;;
        Nested_As fuel k b key;;
        mret tt
   else mret tt);;
  mret x.

Definition ArrayBuilder_ArrayFunc (fuel : nat) (x : option loc) :=
  Nested_Func fuel KArray KArray x "".
Definition ArrayBuilder_ObjectFunc (fuel : nat) (x : option loc) :=
  Nested_Func fuel KArray KObject x "".
Definition ObjectBuilder_ArrayFunc (fuel : nat) := Nested_Func fuel KObject KArray.
Definition ObjectBuilder_ObjectFunc (fuel : nat) := Nested_Func fuel KObject KObject.
Definition Chain_ArrayFunc (fuel : nat) := Chain_Func fuel KArray.
Definition Chain_ObjectFunc (fuel : nat) := Chain_Func fuel KObject.

(** A callback that, run on the innermost builder of a nest, returns
    after changing at most the data of builders and what is attached to
    top-level parents (it adds fields; it opens and closes nothing). *)
Definition adds_fields_only (r : root) (fn : option (option loc -> M unit)) : Prop :=
  forall f k lb locs s,
    fn = Some f -> nest r s (builder_ptr k (Some lb)) locs ->
    exists s', f (Some lb) s = Ok tt s' /\ same_shape s s'.

(** The store after a report reached the logger [lg], if there is one. *)
Definition reported (lg : option Logger) (msg : string) (s : state) : state :=
  match lg with
  | Some g =>
      {| cells := cells s; pool := pool s; gets := gets s; puts := puts s;
         reports := reports s ++ [(g, msg)]; attached := attached s |}
  | None => s
  end.

Definition Cur_failed (k : kind) : string :=
  match k with
  | KArray => "logiface: cannot access a non-array as an array"
  | KObject => "logiface: cannot access a non-object as an object"
  end.

(** A callback that appends an empty array to the builder it is given, as
    a field method of the builder would. *)
Definition append_empty : option loc -> M unit :=
  fun b => Parent_write 1 (ArrayPtr b) "" NewArray.

(** *** Sample values *)

Definition empty_state : state :=
  {| cells := ∅; pool := []; gets := []; puts := []; reports := []; attached := [] |}.

Definition sampleRoot : root :=
  {| root_id := 1; root_enabled := true; root_logger := Some 9%nat |}.

(** A store with one chain cell, at address 0, owned by [sampleRoot] and
    holding [current]. *)
Definition chain_state (current : value) : state :=
  {| cells := {[ 0%nat := {| a := RootPtr (Some sampleRoot); b := current |} ]};
     pool := []; gets := [0%nat]; puts := []; reports := []; attached := [] |}.

(** A store in the middle of [b.Array().Array()], after the inner array
    was closed with [As]: the chain cell at address 2 is owned by
    [sampleRoot] and points to the outer array builder, at address 1,
    which was opened on the chain cell at address 0. *)
Definition nested_state : state :=
  {| cells := {[ 0%nat := {| a := RootPtr (Some sampleRoot);
                             b := RootPtr (Some sampleRoot) |};
                 1%nat := {| a := ChainPtr (Some 0%nat); b := Data (JArray []) |};
                 2%nat := {| a := RootPtr (Some sampleRoot);
                             b := ArrayPtr (Some 1%nat) |} ]};
     pool := []; gets := [0; 1; 2]%nat; puts := []; reports := []; attached := [] |}.

(** A store with one array builder, at address 0, opened directly on
    [sampleRoot] by [ArrayWithKey], without a chain. *)
Definition direct_state : state :=
  {| cells := {[ 0%nat := {| a := RootPtr (Some sampleRoot); b := Data (JArray []) |} ]};
     pool := []; gets := [0%nat]; puts := []; reports := []; attached := [] |}.

(** What matters of a result when evaluating examples: the value
    returned, the cells acquired and released, the reports, and what was
    attached to top-level parents. *)
Definition summary {A} (o : Outcome A)
  : option (A * list loc * list loc * list (Logger * string) * list (root * string * json)) :=
  match o with
  | Ok r s => Some (r, gets s, puts s, reports s, attached s)
  | _ => None
  end.

End Chain.

(** ** fieldutil.go: ArgFields and MapFields *)
Module FieldUtil.
Import Core.

Definition index_out_of_range : string := "index out of range".
Definition loop_bound_exceeded : string := "loop bound exceeded".

Section Helpers.
Context {E U : Type}.

(** The receiver: any type [R] with the two methods of the constraint
    [interface { Enabled() bool; Field(key string, val any) R }]. Both run
    in the store, as the methods of [*Builder] and [*Context] do. *)
Context {R : Type}.
Variable Enabled : R -> M E U bool.
Variable Field : R -> string -> any -> M E U R.

Section ArgFields.
(** The element type of the variadic list (the type parameter [E any] of
    [ArgFields]), with the conversion of an element to [any] and
    [fmt.Sprint] on one element. *)
Context {T : Type}.
Variable box : T -> any.
Variable fmt_Sprint : T -> string.

(** [func argFieldKeyConverter[E any](f func(key E) (string, bool), key E)]. *)
Definition argFieldKeyConverter (f : func E U T (string * bool)) (key : T)
  : M E U (string * bool) :=
  match f with
  | None => mret (fmt_Sprint key, true)
  | Some f => f key
  end.

(** The loop of [ArgFields] from index [i]:
    [for ; i < len(l); i += 2 { ... }], with [continue] when the key is
    rejected and [break] after the last key of a list of odd length.
    Indexing is checked as the run time checks it; [fuel] bounds the
    number of iterations. *)
Fixpoint ArgFields_loop (fuel : nat) (f : func E U T (string * bool)) (l : list T)
    (i : nat) (r : R) : M E U R :=
  match fuel with
  | O => panic loop_bound_exceeded
  | S fuel =>
      if (i <? length l)%nat
      then match l !! i with
           | None => panic index_out_of_range
           | Some k =>
               '(key, ok) ← argFieldKeyConverter f k;
               if negb ok then ArgFields_loop fuel f l (i + 2) r
               else if (i + 1 =? length l)%nat then Field r key VNil
               else match l !! (i + 1)%nat with
                    | None => panic index_out_of_range
                    | Some v =>
                        r ← Field r key (box v);
                        ArgFields_loop fuel f l (i + 2) r
                    end
           end
      else mret r
  end.

(** [func ArgFields[E any, R ...](r R, f func(key E) (string, bool), l ...E) R].
    Every iteration advances by two, so [len(l)] iterations and the final
    test fit the bound. *)
Definition ArgFields (r : R) (f : func E U T (string * bool)) (l : list T) : M E U R :=
  enabled ← Enabled r;
  if (enabled : bool) && negb (length l =? 0)%nat
  then ArgFields_loop (S (length l)) f l 0 r
  else mret r.

(** What the documentation of [ArgFields] promises for one key and its
    value: the key is converted, and the field is set unless the
    converter rejected the key. *)
Definition ArgFields_pair (f : func E U T (string * bool)) (r : R) (k : T) (val : any)
  : M E U R :=
  '(key, ok) ← argFieldKeyConverter f k;
  if (ok : bool) then Field r key val else mret r.

(** The same for a list of keys with their values, in order. *)
Fixpoint ArgFields_pairs (f : func E U T (string * bool)) (r : R) (kvs : list (T * T))
  : M E U R :=
  match kvs with
  | [] => mret r
  | (k, v) :: kvs => r ← ArgFields_pair f r k (box v); ArgFields_pairs f r kvs
  end.

(** A last key that has no value gets the value nil. *)
Definition ArgFields_last (f : func E U T (string * bool)) (r : R) (last : option T)
  : M E U R :=
  match last with
  | Some k => ArgFields_pair f r k VNil
  | None => mret r
  end.

(** The variadic list [k1, v1, ..., kn, vn], followed by one more key when
    there is one. *)
Definition interleave (kvs : list (T * T)) (last : option T) : list T :=
  flat_map (fun kv => [fst kv; snd kv]) kvs ++ option_list last.

End ArgFields.

Section MapFields.
(** The value type of the map, with the conversion of a value to [any].
    The keys have underlying type [string], and [string(k)] is the key
    itself. *)
Context {V : Type}.
Variable box : V -> any.

(** The order in which [range] visits a map is the run time's choice:
    [range m] stands for the order taken. *)
Variable range : gmap string V -> list (string * V).

(** [for k, v := range m { r = r.Field(string(k), v) }]. *)
Fixpoint Field_each (r : R) (kvs : list (string * V)) : M E U R :=
  match kvs with
  | [] => mret r
  | (k, v) :: kvs => r ← Field r k (box v); Field_each r kvs
  end.

(** [func MapFields[K ~string, V any, R ...](r R, m map[K]V) R]. *)
Definition MapFields (r : R) (m : gmap string V) : M E U R :=
  enabled ← Enabled r;
  if (enabled : bool) then Field_each r (range m) else mret r.

End MapFields.

(** Two calls of [Field] under different keys can be swapped. *)
Definition Field_commutes : Prop :=
  forall r k1 v1 k2 v2 w, k1 <> k2 ->
    (r' ← Field r k1 v1; Field r' k2 v2) w = (r' ← Field r k2 v2; Field r' k1 v1) w.

End Helpers.

(** A receiver for evaluating the helpers: it keeps its fields in the
    state of the calling code, a map from key to value; it is enabled when
    its flag is set. *)
Definition sampleField (r : bool) (key : string) (val : any)
  : M Core.sampleEvent (gmap string any) bool :=
  modify (fun w =>
    {| builders := builders w; contexts := contexts w; effects := effects w;
       user := <[key := val]> (user w) |});;
  mret r.

Definition sampleEnabled (r : bool) : M Core.sampleEvent (gmap string any) bool :=
  mret r.

(** A store with nothing in it. *)
Definition emptyWorld {E U : Type} (u : U) : World E U :=
  {| builders := ∅; contexts := ∅; effects := []; user := u |}.

(** A receiver that records the calls of [Field] in order. *)
Definition traceField (r : bool) (key : string) (val : any)
  : M Core.sampleEvent (list (string * any)) bool :=
  modify (fun w =>
    {| builders := builders w; contexts := contexts w; effects := effects w;
       user := user w ++ [(key, val)] |});;
  mret r.

Definition traceEnabled (r : bool) : M Core.sampleEvent (list (string * any)) bool :=
  mret r.

(** A key converter that accepts the keys that are not empty. *)
Definition nonempty_key : func Core.sampleEvent (list (string * any)) string (string * bool) :=
  Some (fun key => mret (key, negb (String.eqb key ""))).

End FieldUtil.

(** ** arraysupport.go: the strategy interface and its type-erased form *)
Module Erased.

Definition not_implemented : string := "not implemented".
Definition bad_conversion : string := "interface conversion".
Definition nil_deref : string := "invalid memory address or nil pointer dereference".

Section Monad.
(** The store in which the methods of a strategy run (the events they
    write to are part of it). *)
Context {S : Type}.

Inductive Outcome (T : Type) :=
| Ok (t : T) (s : S)
| Panic (msg : string) (s : S).
Global Arguments Ok {T} t s.
Global Arguments Panic {T} msg s.

Definition M (T : Type) : Type := S -> Outcome T.

Definition ret {T} (t : T) : M T := fun s => Ok t s.

Definition bind {T T'} (f : T -> M T') (m : M T) : M T' :=
  fun s => match m s with
           | Ok t s' => f t s'
           | Panic msg s' => Panic msg s'
           end.

Definition panic {T} (msg : string) : M T := fun s => Panic msg s.

End Monad.

Global Arguments Outcome S T : clear implicits.
Global Arguments M S T : clear implicits.

Global Instance M_ret {S} : MRet (M S) := @ret S.
Global Instance M_bind {S} : MBind (M S) := @bind S.

Section Strategy.
Context {S : Type}.

(** [E] is the event type of the logger, [A] the array type of the
    strategy; [O] stands for the values of every other dynamic type. *)
Context {E A O : Type}.

(** A value of static type [any], by dynamic type. *)
Inductive dyn :=
| DynNil
| DynA (arr : A)
| DynOther (o : O).

(** A value of the interface type [Event], by dynamic type. *)
Inductive dynEvent :=
| EventNil
| EventE (evt : E)
| EventOther (o : O).

(** [ArraySupport[E Event, A any]]. *)
Record ArraySupport := {
  NewArray : M S A;
  AddArray : E -> string -> A -> M S unit;
  AppendField : A -> dyn -> M S A;
  CanAppendArray : M S bool;
  AppendArray : A -> A -> M S A;
}.

(** [arraySupport[E Event]], for the event type [Ev]: the strategy behind
    functions on [any]. The function fields are never nil in a value the
    sources build. *)
Record arraySupport (Ev : Type) := {
  iface_CanAppendArray : M S bool;
  newArray : M S dyn;
  addArray : Ev -> string -> dyn -> M S unit;
  appendField : dyn -> dyn -> M S dyn;
  appendArray : dyn -> dyn -> M S dyn;
}.
Global Arguments iface_CanAppendArray {Ev} _.
Global Arguments newArray {Ev} _.
Global Arguments addArray {Ev} _.
Global Arguments appendField {Ev} _.
Global Arguments appendArray {Ev} _.

(** The type assertions [arr.(A)] and [evt.(E)]. *)
Definition assert_A (v : dyn) : M S A :=
  match v with
  | DynA arr => mret arr
  | DynNil | DynOther _ => panic bad_conversion
  end.

Definition assert_E (v : dynEvent) : M S E :=
  match v with
  | EventE evt => mret evt
  | EventNil | EventOther _ => panic bad_conversion
  end.

(** [func newArraySupport[E Event, A any](impl ArraySupport[E, A]) *arraySupport[E]]. *)
Definition newArraySupport (impl : ArraySupport) : arraySupport E :=
  {| iface_CanAppendArray := CanAppendArray impl;
     newArray := a ← NewArray impl; mret (DynA a);
     addArray := fun evt key arr => a ← assert_A arr; AddArray impl evt key a;
     appendField := fun arr val =>
       a ← assert_A arr; r ← AppendField impl a val; mret (DynA r);
     appendArray := fun arr val =>
       a ← assert_A arr; v ← assert_A val; r ← AppendArray impl a v; mret (DynA r) |}.

(** [func generifyArraySupport[E Event](array *arraySupport[E]) *arraySupport[Event]];
    reading a field of a nil [array] panics. *)
Definition generifyArraySupport (array : option (arraySupport E))
  : M S (arraySupport dynEvent) :=
  match array with
  | None => panic nil_deref
  | Some array =>
      mret {| iface_CanAppendArray := iface_CanAppendArray array;
              newArray := newArray array;
              addArray := fun evt key arr => e ← assert_E evt; addArray array e key arr;
              appendField := appendField array;
              appendArray := appendArray array |}
  end.

(** [UnimplementedArraySupport]: the two methods a strategy gets by
    embedding it. *)
Definition Unimplemented_CanAppendArray : M S bool := mret false.

Definition Unimplemented_AppendArray (arr val : A) : M S A := panic not_implemented.

(** An array built through a strategy: a new array, a value appended to
    an array, an array appended to an array. *)
Inductive build :=
| BNew
| BField (arr : build) (val : dyn)
| BNested (arr val : build).

(** The array built by the calls on the strategy itself. *)
Fixpoint run_typed (impl : ArraySupport) (t : build) : M S A :=
  match t with
  | BNew => NewArray impl
  | BField arr val => a ← run_typed impl arr; AppendField impl a val
  | BNested arr val =>
      a ← run_typed impl arr; v ← run_typed impl val; AppendArray impl a v
  end.

(** The array built by the calls on the type-erased form. *)
Fixpoint run_erased {Ev : Type} (x : arraySupport Ev) (t : build) : M S dyn :=
  match t with
  | BNew => newArray x
  | BField arr val => a ← run_erased x arr; appendField x a val
  | BNested arr val =>
      a ← run_erased x arr; v ← run_erased x val; appendArray x a v
  end.

End Strategy.

Global Arguments dyn A O : clear implicits.
Global Arguments dynEvent E O : clear implicits.
Global Arguments ArraySupport S E A O : clear implicits.
Global Arguments arraySupport S A O Ev : clear implicits.
Global Arguments build A O : clear implicits.

(** *** The built-in strategy *)

(** The values of a [[]any]: each element is nil, again a [[]any], or a
    value of another dynamic type. *)
#[warnings="-register-all"]
Inductive sval (O : Type) :=
| SNil
| SSlice (items : list (sval O))
| SOther (o : O).
Global Arguments SNil {O}.
Global Arguments SSlice {O} items.
Global Arguments SOther {O} o.

(** A value of static type [any] as an element of a [[]any]. *)
Definition element {O} (v : dyn (list (sval O)) O) : sval O :=
  match v with
  | DynNil => SNil
  | DynA arr => SSlice arr
  | DynOther o => SOther o
  end.

(** [sliceArraySupport[E]]; [AddField] is the method of the event. *)
Definition sliceArraySupport {S E O : Type} (AddField : E -> string -> sval O -> M S unit)
  : ArraySupport S E (list (sval O)) O :=
  {| NewArray := mret [];
     AddArray := fun evt key arr => AddField evt key (SSlice arr);
     AppendField := fun arr val => mret (arr ++ [element val]);
     CanAppendArray := mret true;
     AppendArray := fun arr val => mret (arr ++ [SSlice val]) |}.

(** A strategy that cannot nest arrays: it keeps the values in a slice as
    the built-in one does, and gets [CanAppendArray] and [AppendArray] by
    embedding [UnimplementedArraySupport]. *)
Definition flatArraySupport {S E O : Type} (AddField : E -> string -> sval O -> M S unit)
  : ArraySupport S E (list (sval O)) O :=
  {| NewArray := mret [];
     AddArray := fun evt key arr => AddField evt key (SSlice arr);
     AppendField := fun arr val => mret (arr ++ [element val]);
     CanAppendArray := Unimplemented_CanAppendArray;
     AppendArray := Unimplemented_AppendArray |}.

(** The number of append calls that made the array itself. *)
Fixpoint appends {A O : Type} (t : build A O) : nat :=
  match t with
  | BNew => 0
  | BField arr _ => S (appends arr)
  | BNested arr _ => S (appends arr)
  end.

(** A new array to which the values [vals] are appended one by one. *)
Definition fields_of {A O : Type} (vals : list (dyn A O)) : build A O :=
  foldl BField BNew vals.

(** An event type for evaluating the strategy: the store maps an event to
    the fields added to it. *)
Definition sampleAddField (evt : nat) (key : string) (val : sval string)
  : M (gmap nat (list (string * sval string))) unit :=
  fun s => Ok tt (<[evt := default [] (s !! evt) ++ [(key, val)]]> s).

End Erased.

(*END-DEFS*)
(* ===================================================================== *)
(** * Part II: lemmas and theorems                                        *)
(* ===================================================================== *)

(** ** Byte strings *)
Section StringFacts.
Import Go.

Lemma string_app_cons (x : ascii) (a b : string) :
  String x a +:+ b = String x (a +:+ b).
Proof. reflexivity. Qed.

Lemma string_app_nil_l (a : string) : "" +:+ a = a.
Proof. reflexivity. Qed.

Lemma string_app_assoc (a b c : string) : (a +:+ b) +:+ c = a +:+ (b +:+ c).
Proof.
  induction a as [|x a IH]; [reflexivity|].
  rewrite !string_app_cons. now rewrite IH.
Qed.

Lemma string_app_nil_r (a : string) : a +:+ "" = a.
Proof.
  induction a as [|x a IH]; [reflexivity|].
  rewrite string_app_cons. now rewrite IH.
Qed.

Lemma string_length_app (a b : string) :
  String.length (a +:+ b) = (String.length a + String.length b)%nat.
Proof.
  induction a as [|x a IH]; [reflexivity|].
  rewrite string_app_cons. simpl. now rewrite IH.
Qed.

Lemma slice_from_app (p t : string) : slice_from (String.length p) (p +:+ t) = t.
Proof.
  induction p as [|x p IH]; [now destruct t|].
  rewrite string_app_cons. exact IH.
Qed.

Lemma slice_to_app (p t : string) : slice_to (String.length p) (p +:+ t) = p.
Proof.
  induction p as [|x p IH]; [reflexivity|].
  rewrite string_app_cons. simpl. now rewrite IH.
Qed.

Lemma suffix_offset (p t : string) :
  (String.length (p +:+ t) - String.length t)%nat = String.length p.
Proof. rewrite string_length_app. lia. Qed.

(** A string that ends with [suffix] loses exactly that suffix. *)
Lemma TrimSuffix_app (p suffix : string) : TrimSuffix (p +:+ suffix) suffix = p.
Proof.
  unfold TrimSuffix, HasSuffix.
  rewrite suffix_offset, slice_from_app, String.eqb_refl, slice_to_app.
  rewrite string_length_app.
  destruct (Nat.leb_spec (String.length suffix) (String.length p + String.length suffix));
    [reflexivity | lia].
Qed.

(** A string whose last [len(suffix)] bytes differ from [suffix] is kept. *)
Lemma TrimSuffix_app_ne (p t suffix : string) :
  String.length t = String.length suffix -> t <> suffix ->
  TrimSuffix (p +:+ t) suffix = p +:+ t.
Proof.
  intros Hlen Hne. unfold TrimSuffix, HasSuffix.
  rewrite <- Hlen, suffix_offset, slice_from_app.
  apply String.eqb_neq in Hne. rewrite Hne, andb_false_r. reflexivity.
Qed.

Lemma zeros_length (w : nat) : String.length (zeros w) = w.
Proof. induction w; simpl; congruence. Qed.

Lemma zeros_snoc (w : nat) : zeros w +:+ "0" = zeros (S w).
Proof.
  induction w as [|w IH]; [reflexivity|].
  change (zeros (S w)) with (String "0" (zeros w)).
  rewrite string_app_cons. now rewrite IH.
Qed.

Lemma digitsw_length (w : nat) (n : Z) : String.length (digitsw w n) = w.
Proof.
  revert n; induction w as [|w IH]; intros n; simpl; [reflexivity|].
  rewrite string_length_app, IH. simpl. lia.
Qed.

Lemma digitsw_0 (w : nat) : digitsw w 0 = zeros w.
Proof.
  induction w as [|w IH]; [reflexivity|].
  change (digitsw (S w) 0) with (digitsw w 0 +:+ "0"). rewrite IH. apply zeros_snoc.
Qed.

Lemma digit_inj (a b : Z) : 0 <= a < 10 -> 0 <= b < 10 -> digit a = digit b -> a = b.
Proof.
  intros Ha Hb H. unfold digit in H.
  apply (f_equal nat_of_ascii) in H.
  rewrite !nat_ascii_embedding in H by lia. lia.
Qed.

Lemma string_snoc_inj (a b : string) (x y : ascii) :
  a +:+ String x "" = b +:+ String y "" -> a = b /\ x = y.
Proof.
  revert b; induction a as [|c a IH]; intros [|d b] H;
    rewrite ?string_app_cons, ?string_app_nil_l in H.
  - now inversion H.
  - inversion H as [[Hc Hr]]. destruct b; discriminate.
  - inversion H as [[Hc Hr]]. destruct a; discriminate.
  - inversion H as [[Hc Hr]]. destruct (IH _ Hr) as [-> ->]. now subst.
Qed.

(** Fixed-width digits are injective on [0, 10^w). *)
Lemma digitsw_inj (w : nat) (a b : Z) :
  0 <= a < 10 ^ Z.of_nat w -> 0 <= b < 10 ^ Z.of_nat w ->
  digitsw w a = digitsw w b -> a = b.
Proof.
  revert a b; induction w as [|w IH]; intros a b Ha Hb H.
  - simpl in Ha, Hb. lia.
  - rewrite Nat2Z.inj_succ, Z.pow_succ_r in Ha, Hb by lia.
    simpl in H. apply string_snoc_inj in H as [Hq Hr].
    apply digit_inj in Hr; [| apply Z.mod_pos_bound; lia ..].
    apply IH in Hq; [| split; [apply Z.div_pos; lia | apply Z.div_lt_upper_bound; lia] ..].
    rewrite (Z.div_mod a 10), (Z.div_mod b 10) by lia. congruence.
Qed.

(** Splitting a fixed-width rendering into a high and a low group. *)
Lemma digitsw_split (hi lo : nat) (n : Z) :
  digitsw (hi + lo) n
  = digitsw hi (n / 10 ^ Z.of_nat lo) +:+ digitsw lo (n mod 10 ^ Z.of_nat lo).
Proof.
  revert n; induction lo as [|lo IH]; intros n.
  - rewrite Nat.add_0_r. simpl. now rewrite Z.div_1_r, string_app_nil_r.
  - rewrite Nat.add_succ_r. simpl digitsw. rewrite IH.
    rewrite string_app_assoc.
    rewrite Nat2Z.inj_succ, Z.pow_succ_r by lia.
    assert (Hp : 0 < 10 ^ Z.of_nat lo) by (apply Z.pow_pos_nonneg; lia).
    set (P := 10 ^ Z.of_nat lo) in *.
    assert (Hm : n mod (10 * P) = 10 * ((n / 10) mod P) + n mod 10)
      by (rewrite Z.rem_mul_r by lia; lia).
    assert (H2 : (n mod (10 * P)) / 10 = (n / 10) mod P).
    { rewrite Hm, (Z.mul_comm 10), Z.div_add_l by lia.
      rewrite (Z.div_small (n mod 10)) by (apply Z.mod_pos_bound; lia). lia. }
    assert (H3 : (n mod (10 * P)) mod 10 = n mod 10).
    { rewrite Hm, (Z.mul_comm 10), Z.add_comm, Z.mod_add by lia.
      apply Z.mod_mod; lia. }
    rewrite H2, H3, Z.div_div by lia. reflexivity.
Qed.

Lemma utoa_aux_fuel (f1 f2 : nat) (n : Z) :
  0 <= n < 10 ^ Z.of_nat f1 -> n < 10 ^ Z.of_nat f2 ->
  utoa_aux (S f1) n = utoa_aux (S f2) n.
Proof.
  revert f2 n; induction f1 as [|f1 IH]; intros f2 n H1 H2.
  - simpl in H1. assert (n = 0) by lia. subst. reflexivity.
  - cbn [utoa_aux]. destruct (Z.ltb_spec n 10) as [Hlt|Hge]; [reflexivity|].
    destruct f2 as [|f2]; [simpl in H2; lia|].
    rewrite Nat2Z.inj_succ, Z.pow_succ_r in H1, H2 by lia.
    f_equal. apply IH.
    + split; [apply Z.div_pos; lia | apply Z.div_lt_upper_bound; lia].
    + apply Z.div_lt_upper_bound; lia.
Qed.

Lemma log2_fuel (n : Z) : 0 <= n -> n < 10 ^ Z.of_nat (Z.to_nat (Z.log2 n)) \/ n < 10.
Proof.
  intros Hn. destruct (Z.ltb_spec n 10) as [|Hge]; [now right | left].
  assert (Hl : 0 <= Z.log2 n) by apply Z.log2_nonneg.
  rewrite Z2Nat.id by lia.
  assert (H2 : n < 2 ^ Z.succ (Z.log2 n)) by (apply Z.log2_spec; lia).
  rewrite Z.pow_succ_r in H2 by lia.
  assert (Hpow : 2 * 2 ^ Z.log2 n <= 10 ^ Z.log2 n).
  { assert (3 <= Z.log2 n) by (apply Z.log2_le_pow2; simpl; lia).
    replace (Z.log2 n) with (Z.succ (Z.log2 n - 1)) at 2 by lia.
    rewrite Z.pow_succ_r by lia.
    replace (Z.log2 n) with (Z.succ (Z.log2 n - 1)) at 1 by lia.
    rewrite Z.pow_succ_r by lia.
    assert (2 ^ (Z.log2 n - 1) <= 10 ^ (Z.log2 n - 1))
      by (apply Z.pow_le_mono_l; lia).
    assert (0 < 2 ^ (Z.log2 n - 1)) by (apply Z.pow_pos_nonneg; lia).
    lia. }
  lia.
Qed.

(** The recursive equation of the decimal rendering. *)
Lemma utoa_small (n : Z) : n < 10 -> utoa n = String (digit n) "".
Proof.
  intros H. unfold utoa. cbn [utoa_aux].
  destruct (Z.ltb_spec n 10); [reflexivity | lia].
Qed.

Lemma utoa_step (n : Z) :
  10 <= n -> utoa n = utoa (n / 10) +:+ String (digit (n mod 10)) "".
Proof.
  intros H. unfold utoa at 1. cbn [utoa_aux].
  destruct (Z.ltb_spec n 10); [lia|]. f_equal.
  assert (Hq : 0 <= n / 10) by (apply Z.div_pos; lia).
  destruct (log2_fuel n) as [Hf|]; [lia| |lia].
  destruct (Z.to_nat (Z.log2 n)) as [|f] eqn:Ef.
  { simpl in Hf. lia. }
  unfold utoa.
  destruct (log2_fuel (n / 10) Hq) as [Hf'|Hs].
  - apply utoa_aux_fuel; [|exact Hf'].
    rewrite Nat2Z.inj_succ, Z.pow_succ_r in Hf by lia.
    split; [lia | apply Z.div_lt_upper_bound; lia].
  - cbn [utoa_aux]. destruct (Z.ltb_spec (n / 10) 10); [reflexivity | lia].
Qed.

Lemma utoa_length_pos (n : Z) : (1 <= String.length (utoa n))%nat.
Proof.
  unfold utoa. cbn [utoa_aux]. destruct (n <? 10); [simpl; lia|].
  rewrite string_length_app. simpl. lia.
Qed.

(** Zero padding of the decimal rendering is the fixed-width rendering. *)
Lemma pad_utoa_digitsw (w : nat) (n : Z) :
  0 <= n < 10 ^ Z.of_nat (S w) ->
  zeros (S w - String.length (utoa n)) +:+ utoa n = digitsw (S w) n.
Proof.
  revert n; induction w as [|w IH]; intros n Hn.
  - change (10 ^ Z.of_nat 1) with 10 in Hn.
    rewrite utoa_small by lia.
    change (digitsw 1 n) with (String (digit (n mod 10)) "").
    rewrite Z.mod_small by lia. reflexivity.
  - rewrite Nat2Z.inj_succ, Z.pow_succ_r in Hn by lia.
    destruct (Z.ltb_spec n 10) as [Hlt|Hge].
    + rewrite utoa_small by lia.
      change (digitsw (S (S w)) n)
        with (digitsw (S w) (n / 10) +:+ String (digit (n mod 10)) "").
      rewrite Z.div_small, Z.mod_small, digitsw_0 by lia. reflexivity.
    + rewrite utoa_step by lia.
      change (digitsw (S (S w)) n)
        with (digitsw (S w) (n / 10) +:+ String (digit (n mod 10)) "").
      rewrite <- IH
        by (split; [apply Z.div_pos; lia | apply Z.div_lt_upper_bound; lia]).
      rewrite string_length_app, string_app_assoc. simpl String.length.
      replace (S (S w) - (String.length (utoa (n / 10)) + 1))%nat
        with (S w - String.length (utoa (n / 10)))%nat by lia.
      reflexivity.
Qed.

Lemma fmt_09d_digitsw (n : Z) : 0 <= n < 1000000000 -> fmt_0wd 9 n = digitsw 9 n.
Proof.
  intros Hn. unfold fmt_0wd. destruct (Z.ltb_spec n 0); [lia|].
  apply (pad_utoa_digitsw 8). simpl. lia.
Qed.

Lemma fmt_09d_length (n : Z) : (9 <= String.length (fmt_0wd 9 n))%nat.
Proof.
  unfold fmt_0wd. destruct (n <? 0).
  - rewrite !string_length_app, zeros_length. simpl. lia.
  - rewrite string_length_app, zeros_length. lia.
Qed.

Lemma length3_inv (s : string) :
  String.length s = 3%nat -> exists a b c, s = String a (String b (String c "")).
Proof.
  destruct s as [|a [|b [|c [|d s]]]]; simpl; intros H; try discriminate.
  now exists a, b, c.
Qed.

Section Trim.
Variables (pre A B C : string).
Hypotheses (HA : String.length A = 3%nat) (HB : String.length B = 3%nat)
           (HC : String.length C = 3%nat).

Lemma trim3_9 : C <> "000" -> Fmt.trim3 (pre +:+ "." +:+ A +:+ B +:+ C) = pre +:+ "." +:+ A +:+ B +:+ C.
Proof using HA HB HC.
  intros Hne. unfold Fmt.trim3.
  assert (E : pre +:+ "." +:+ A +:+ B +:+ C = (pre +:+ "." +:+ A +:+ B) +:+ C)
    by now rewrite !string_app_assoc.
  rewrite E, !TrimSuffix_app_ne by (assumption || reflexivity).
  destruct (length3_inv B HB) as (b1 & b2 & b3 & ->).
  destruct (length3_inv C HC) as (c1 & c2 & c3 & ->).
  replace ((pre +:+ "." +:+ A +:+ String b1 (String b2 (String b3 "")))
           +:+ String c1 (String c2 (String c3 "")))
    with ((pre +:+ "." +:+ A +:+ String b1 (String b2 ""))
          +:+ String b3 (String c1 (String c2 (String c3 ""))))
    by now rewrite !string_app_assoc.
  apply TrimSuffix_app_ne; [reflexivity|].
  intros Heq. apply Hne. now inversion Heq.
Qed.

Lemma trim3_6 : C = "000" -> B <> "000" -> Fmt.trim3 (pre +:+ "." +:+ A +:+ B +:+ C) = pre +:+ "." +:+ A +:+ B.
Proof using HA HB HC.
  intros -> Hne. unfold Fmt.trim3.
  assert (E : pre +:+ "." +:+ A +:+ B +:+ "000" = (pre +:+ "." +:+ A +:+ B) +:+ "000")
    by now rewrite !string_app_assoc.
  rewrite E, TrimSuffix_app.
  assert (E2 : pre +:+ "." +:+ A +:+ B = (pre +:+ "." +:+ A) +:+ B)
    by now rewrite !string_app_assoc.
  rewrite E2, TrimSuffix_app_ne by (assumption || reflexivity).
  destruct (length3_inv A HA) as (a1 & a2 & a3 & ->).
  destruct (length3_inv B HB) as (b1 & b2 & b3 & ->).
  replace ((pre +:+ "." +:+ String a1 (String a2 (String a3 "")))
           +:+ String b1 (String b2 (String b3 "")))
    with ((pre +:+ "." +:+ String a1 (String a2 ""))
          +:+ String a3 (String b1 (String b2 (String b3 ""))))
    by now rewrite !string_app_assoc.
  apply TrimSuffix_app_ne; [reflexivity|].
  intros Heq. apply Hne. now inversion Heq.
Qed.

Lemma trim3_3 : C = "000" -> B = "000" -> A <> "000" ->
  Fmt.trim3 (pre +:+ "." +:+ A +:+ B +:+ C) = pre +:+ "." +:+ A.
Proof using HA HB HC.
  intros -> -> Hne. unfold Fmt.trim3.
  assert (E : pre +:+ "." +:+ A +:+ "000" +:+ "000"
              = ((pre +:+ "." +:+ A) +:+ "000") +:+ "000")
    by now rewrite !string_app_assoc.
  rewrite E, !TrimSuffix_app.
  replace (pre +:+ "." +:+ A) with (pre +:+ (String "." A)) by reflexivity.
  apply TrimSuffix_app_ne; [simpl; now rewrite HA|].
  intros Heq. apply Hne. now inversion Heq.
Qed.

Lemma trim3_0 : C = "000" -> B = "000" -> A = "000" -> Fmt.trim3 (pre +:+ "." +:+ A +:+ B +:+ C) = pre.
Proof using HA HB HC.
  intros -> -> ->. unfold Fmt.trim3.
  assert (E : pre +:+ "." +:+ "000" +:+ "000" +:+ "000"
              = ((pre +:+ ".000") +:+ "000") +:+ "000")
    by now rewrite !string_app_assoc.
  rewrite E, !TrimSuffix_app. reflexivity.
Qed.
End Trim.

Lemma digitsw_9_split (n : Z) :
  digitsw 9 n = digitsw 6 (n / 1000) +:+ digitsw 3 (n mod 1000).
Proof. exact (digitsw_split 6 3 n). Qed.

Lemma digitsw_6_split (n : Z) :
  digitsw 6 n = digitsw 3 (n / 1000) +:+ digitsw 3 (n mod 1000).
Proof. exact (digitsw_split 3 3 n). Qed.

Lemma digitsw3_zero (m : Z) : 0 <= m < 1000 -> digitsw 3 m = "000" <-> m = 0.
Proof.
  intros Hm. split; [|now intros ->].
  intros H. apply (digitsw_inj 3); [simpl; lia | simpl; lia | exact H].
Qed.

(** Trimming a dot and nine digits leaves the 0/3/6/9-digit fraction. *)
Lemma trim3_fraction (pre : string) (n : Z) :
  0 <= n < 1000000000 ->
  Fmt.trim3 (pre +:+ "." +:+ fmt_0wd 9 n) = pre +:+ Fmt.fraction_0369 n.
Proof.
  intros Hn. rewrite fmt_09d_digitsw by assumption.
  rewrite digitsw_9_split, digitsw_6_split.
  set (A := digitsw 3 (n / 1000 / 1000)).
  set (B := digitsw 3 ((n / 1000) mod 1000)).
  set (C := digitsw 3 (n mod 1000)).
  rewrite string_app_assoc.
  assert (HA : String.length A = 3%nat) by apply digitsw_length.
  assert (HB : String.length B = 3%nat) by apply digitsw_length.
  assert (HC : String.length C = 3%nat) by apply digitsw_length.
  assert (Hq : 0 <= n / 1000 < 1000000)
    by (split; [apply Z.div_pos; lia | apply Z.div_lt_upper_bound; lia]).
  assert (Hqq : 0 <= n / 1000 / 1000 < 1000)
    by (split; [apply Z.div_pos; lia | apply Z.div_lt_upper_bound; lia]).
  assert (Hr : 0 <= n mod 1000 < 1000) by (apply Z.mod_pos_bound; lia).
  assert (Hqr : 0 <= (n / 1000) mod 1000 < 1000) by (apply Z.mod_pos_bound; lia).
  assert (Hn1 : n = 1000 * (n / 1000) + n mod 1000) by (apply Z.div_mod; lia).
  assert (Hn2 : n / 1000 = 1000 * (n / 1000 / 1000) + (n / 1000) mod 1000)
    by (apply Z.div_mod; lia).
  assert (Hm6 : n mod 1000000 = n mod 1000 + 1000 * ((n / 1000) mod 1000))
    by (change 1000000 with (1000 * 1000); apply Z.rem_mul_r; lia).
  pose proof (digitsw3_zero _ Hr) as EC.
  pose proof (digitsw3_zero _ Hqr) as EB.
  pose proof (digitsw3_zero _ Hqq) as EA.
  fold C in EC. fold B in EB. fold A in EA.
  unfold Fmt.fraction_0369.
  destruct (Z.eqb_spec (n mod 1000) 0) as [Hc|Hc].
  - destruct (Z.eqb_spec ((n / 1000) mod 1000) 0) as [Hb|Hb].
    + destruct (Z.eqb_spec (n / 1000 / 1000) 0) as [Ha|Ha].
      * rewrite trim3_0 by tauto.
        destruct (Z.eqb_spec n 0); [now rewrite string_app_nil_r | lia].
      * rewrite trim3_3 by tauto.
        destruct (Z.eqb_spec n 0); [lia|].
        destruct (Z.eqb_spec (n mod 1000000) 0); [|lia].
        unfold A. rewrite Z.div_div by lia. reflexivity.
    + rewrite trim3_6 by tauto.
      destruct (Z.eqb_spec n 0); [lia|].
      destruct (Z.eqb_spec (n mod 1000000) 0); [lia|].
      destruct (Z.eqb_spec (n mod 1000) 0); [|lia].
      unfold A, B. rewrite digitsw_6_split. reflexivity.
  - rewrite trim3_9 by tauto.
    destruct (Z.eqb_spec n 0); [lia|].
    destruct (Z.eqb_spec (n mod 1000000) 0); [lia|].
    destruct (Z.eqb_spec (n mod 1000) 0); [lia|].
    unfold A, B, C.
    rewrite digitsw_9_split, digitsw_6_split. now rewrite !string_app_assoc.
Qed.

End StringFacts.

(** ** formatTimestamp and formatDuration *)
Section FormatFacts.
Import Go Fmt.

Lemma wrap64_id (z : Z) : in_int64 z -> wrap64 z = z.
Proof.
  unfold in_int64, wrap64. intros H.
  rewrite Z.mod_small; lia.
Qed.

(** Truncated division of a duration by 1e9 never leaves int64, and the
    remainder computed by [nanos -= secs * 1e9] is the truncated one. *)
Lemma duration_split (d : Z) :
  in_int64 d ->
  div64 d 1000000000 = d `quot` 1000000000 /\
  sub64 d (mul64 (div64 d 1000000000) 1000000000) = d `rem` 1000000000.
Proof.
  intros Hd. unfold in_int64 in Hd.
  pose proof (Z.quot_rem' d 1000000000) as Hqr.
  assert (Hrem : Z.abs (d `rem` 1000000000) < 1000000000)
    by (pose proof (Z.rem_bound_abs d 1000000000); lia).
  assert (Hsgn : 0 <= (d `rem` 1000000000) * d)
    by (apply Z.rem_sign_mul; lia).
  assert (Hq : div64 d 1000000000 = d `quot` 1000000000).
  { unfold div64. apply wrap64_id. unfold in_int64. nia. }
  split; [exact Hq|].
  rewrite Hq. unfold sub64, mul64.
  rewrite (wrap64_id (d `quot` 1000000000 * 1000000000))
    by (unfold in_int64; nia).
  rewrite wrap64_id by (unfold in_int64; nia). lia.
Qed.

Lemma formatTimestamp_eq (layout : Z -> Z -> string) (t : Time) :
  0 <= nsec t < 1000000000 ->
  formatTimestamp layout t
  = layout (unixSec t) 0 +:+ fraction_0369 (nsec t) +:+ "Z".
Proof.
  intros Hn. unfold formatTimestamp, Format_nanos, UTC. cbn [unixSec nsec zoneOffset].
  fold (trim3 (layout (unixSec t) 0 +:+ "." +:+ fmt_0wd 9 (nsec t))).
  rewrite trim3_fraction by assumption. apply string_app_assoc.
Qed.

(** The rendering of a duration, for every int64 value: an optional
    sign, the whole seconds of the magnitude, and its trimmed fraction. *)
Lemma formatDuration_eq (d : Z) :
  in_int64 d ->
  formatDuration d
  = (if d <? 0 then "-" else "") +:+ utoa (Z.abs d / 1000000000)
      +:+ fraction_0369 (Z.abs d mod 1000000000) +:+ "s".
Proof.
  intros Hd. unfold formatDuration.
  destruct (duration_split d Hd) as [-> ->].
  pose proof (Z.quot_rem' d 1000000000) as Hqr.
  assert (Hrem : Z.abs (d `rem` 1000000000) < 1000000000)
    by (pose proof (Z.rem_bound_abs d 1000000000); lia).
  assert (Hsgn : 0 <= (d `rem` 1000000000) * d)
    by (apply Z.rem_sign_mul; lia).
  unfold in_int64 in Hd.
  destruct (Z.ltb_spec d 0) as [Hneg|Hpos].
  - assert (Hq : d `quot` 1000000000 = - (Z.abs d / 1000000000)).
    { rewrite Z.abs_neq by lia. rewrite <- Z.quot_div_nonneg by lia.
      rewrite Z.quot_opp_l by lia. lia. }
    assert (Hr : d `rem` 1000000000 = - (Z.abs d mod 1000000000)).
    { rewrite Z.abs_neq by lia. rewrite <- Z.rem_mod_nonneg by lia.
      rewrite Z.rem_opp_l by lia. lia. }
    assert (Hm : 0 <= Z.abs d mod 1000000000 < 1000000000)
      by (apply Z.mod_pos_bound; lia).
    assert (Hs : 0 <= Z.abs d / 1000000000 <= 9223372036).
    { split; [apply Z.div_pos; lia|].
      apply Z.lt_succ_r, Z.div_lt_upper_bound; lia. }
    rewrite Hq, Hr.
    replace ((- (Z.abs d / 1000000000) <? 0) || (- (Z.abs d mod 1000000000) <? 0))
      with true.
    2:{ symmetry. apply orb_true_iff.
        destruct (Z.eq_dec (Z.abs d / 1000000000) 0) as [E|E].
        - right. apply Z.ltb_lt.
          assert (Z.abs d mod 1000000000 <> 0); [|lia].
          intros E'. pose proof (Z.div_mod (Z.abs d) 1000000000). lia.
        - left. apply Z.ltb_lt. lia. }
    unfold mul64. rewrite !wrap64_id by (unfold in_int64; lia).
    replace (-1 * - (Z.abs d / 1000000000)) with (Z.abs d / 1000000000) by lia.
    replace (-1 * - (Z.abs d mod 1000000000)) with (Z.abs d mod 1000000000) by lia.
    unfold Sprintf_s_d_09d, fmt_d.
    destruct (Z.ltb_spec (Z.abs d / 1000000000) 0); [lia|].
    fold (trim3 ("-" +:+ utoa (Z.abs d / 1000000000) +:+ "."
                   +:+ fmt_0wd 9 (Z.abs d mod 1000000000))).
    rewrite <- (string_app_assoc "-" (utoa _)).
    rewrite trim3_fraction by assumption.
    now rewrite !string_app_assoc.
  - assert (Hq : d `quot` 1000000000 = Z.abs d / 1000000000)
      by (rewrite Z.abs_eq by lia; apply Z.quot_div_nonneg; lia).
    assert (Hr : d `rem` 1000000000 = Z.abs d mod 1000000000)
      by (rewrite Z.abs_eq by lia; apply Z.rem_mod_nonneg; lia).
    assert (Hm : 0 <= Z.abs d mod 1000000000 < 1000000000)
      by (apply Z.mod_pos_bound; lia).
    assert (Hs : 0 <= Z.abs d / 1000000000) by (apply Z.div_pos; lia).
    rewrite Hq, Hr.
    destruct (Z.ltb_spec (Z.abs d / 1000000000) 0); [lia|].
    destruct (Z.ltb_spec (Z.abs d mod 1000000000) 0); [lia|].
    cbn [orb]. unfold Sprintf_s_d_09d, fmt_d.
    destruct (Z.ltb_spec (Z.abs d / 1000000000) 0); [lia|].
    rewrite !string_app_nil_l.
    fold (trim3 (utoa (Z.abs d / 1000000000) +:+ "."
                   +:+ fmt_0wd 9 (Z.abs d mod 1000000000))).
    rewrite trim3_fraction by assumption.
    now rewrite !string_app_assoc.
Qed.

(** Claim C9. [formatTimestamp] renders an instant whose nanosecond part
    is zero as the whole-second layout taken in UTC followed directly by
    ["Z"], with no fractional digits; for any nanosecond part it keeps 0,
    3, 6 or 9 fractional digits. [formatDuration] renders exactly one
    second as ["1s"] and minus one and a half seconds as ["-1.500s"]; for
    every int64 duration the sign is a single leading ["-"] exactly when
    the duration is negative (also when only the sub-second remainder is
    negative), followed by the rendering of the magnitude. *)
Theorem C9_format_timestamp_duration (layout : Z -> Z -> string) :
  (forall t, nsec t = 0 ->
     formatTimestamp layout t = layout (unixSec t) 0 +:+ "Z") /\
  (forall t, 0 <= nsec t < 1000000000 ->
     formatTimestamp layout t
     = layout (unixSec t) 0 +:+ fraction_0369 (nsec t) +:+ "Z") /\
  formatDuration 1000000000 = "1s" /\
  formatDuration (-1500000000) = "-1.500s" /\
  (forall d, in_int64 d ->
     formatDuration d
     = (if d <? 0 then "-" else "") +:+ utoa (Z.abs d / 1000000000)
         +:+ fraction_0369 (Z.abs d mod 1000000000) +:+ "s").
Proof.
  split; [|split; [|split; [|split]]].
  - intros t Ht. rewrite formatTimestamp_eq by lia. now rewrite Ht.
  - intros t Ht. now apply formatTimestamp_eq.
  - vm_compute. reflexivity.
  - vm_compute. reflexivity.
  - intros d Hd. now apply formatDuration_eq.
Qed.

Lemma C9_format_witness :
  formatTimestamp civilSeconds (mkTime 1676147419 0 3600) = "2023-02-11T20:30:19Z" /\
  formatTimestamp civilSeconds (mkTime 63108020 21000000 0) = "1972-01-01T10:00:20.021Z" /\
  formatDuration (-500000000) = "-0.500s".
Proof.
  destruct (C9_format_timestamp_duration civilSeconds) as (H0 & H369 & _ & _ & Hd).
  split; [|split].
  - rewrite (H0 (mkTime 1676147419 0 3600)) by reflexivity.
    vm_compute. reflexivity.
  - rewrite (H369 (mkTime 63108020 21000000 0)) by (simpl; lia).
    vm_compute. reflexivity.
  - rewrite (Hd (-500000000)) by (unfold in_int64; lia).
    vm_compute. reflexivity.
Defined.

(** *** The rendering of a duration loses nothing *)

Lemma is_digit_digit (d : Z) : 0 <= d < 10 -> is_digit (digit d) = true.
Proof.
  intros Hd. unfold is_digit, digit. rewrite nat_ascii_embedding by lia.
  apply andb_true_iff. split; apply Nat.leb_le; lia.
Qed.

Lemma all_digits_app (a b : string) :
  all_digits (a +:+ b) = all_digits a && all_digits b.
Proof.
  induction a as [|c a IH]; [reflexivity|].
  rewrite string_app_cons. cbn [all_digits]. now rewrite IH, andb_assoc.
Qed.

Lemma all_digits_utoa (n : Z) : 0 <= n -> all_digits (utoa n) = true.
Proof.
  assert (Hgen : forall k n, 0 <= n -> (Z.to_nat n < k)%nat -> all_digits (utoa n) = true).
  { intros k. induction k as [|k IH]; intros m Hm Hk; [lia|].
    destruct (Z.ltb_spec m 10) as [Hlt|Hge].
    - rewrite utoa_small by assumption. cbn [all_digits].
      rewrite is_digit_digit by lia. reflexivity.
    - rewrite utoa_step by assumption. rewrite all_digits_app. cbn [all_digits].
      rewrite is_digit_digit by (apply Z.mod_pos_bound; lia).
      rewrite IH; [reflexivity | apply Z.div_pos; lia |].
      assert (m / 10 < m) by (apply Z.div_lt; lia). lia. }
  intros Hn. apply (Hgen (S (Z.to_nat n))); [assumption | lia].
Qed.

(** A run of digits followed by something that does not start with a
    digit can be read in one way only. *)
Lemma digits_prefix_unique (a1 a2 t1 t2 : string) :
  all_digits a1 = true -> all_digits a2 = true ->
  starts_nondigit t1 = true -> starts_nondigit t2 = true ->
  a1 +:+ t1 = a2 +:+ t2 -> a1 = a2 /\ t1 = t2.
Proof.
  revert a2. induction a1 as [|c a1 IH]; intros [|d a2] H1 H2 Ht1 Ht2 Heq;
    rewrite ?string_app_cons, ?string_app_nil_l in Heq.
  - now split.
  - subst t1. cbn [starts_nondigit all_digits] in *.
    apply andb_true_iff in H2 as [Hd _]. now rewrite Hd in Ht1.
  - subst t2. cbn [starts_nondigit all_digits] in *.
    apply andb_true_iff in H1 as [Hc _]. now rewrite Hc in Ht2.
  - inversion Heq as [[Hc Hrest]]. cbn [all_digits] in H1, H2.
    apply andb_true_iff in H1 as [_ H1]. apply andb_true_iff in H2 as [_ H2].
    destruct (IH a2 H1 H2 Ht1 Ht2 Hrest) as [-> ->]. now split.
Qed.

Lemma utoa_inj (a b : Z) : 0 <= a -> 0 <= b -> utoa a = utoa b -> a = b.
Proof.
  assert (Hgen : forall k a b, 0 <= a -> 0 <= b -> (Z.to_nat a < k)%nat ->
                   utoa a = utoa b -> a = b).
  { intros k. induction k as [|k IH]; intros x y Hx Hy Hk Heq; [lia|].
    destruct (Z.ltb_spec x 10) as [Hxs|Hxl]; destruct (Z.ltb_spec y 10) as [Hys|Hyl].
    - rewrite !utoa_small in Heq by assumption. inversion Heq as [Hd].
      apply digit_inj; [lia | lia | assumption].
    - rewrite utoa_small in Heq by assumption. rewrite (utoa_step y) in Heq by assumption.
      apply (f_equal String.length) in Heq. rewrite string_length_app in Heq.
      pose proof (utoa_length_pos (y / 10)). cbn [String.length] in Heq. lia.
    - rewrite (utoa_small y) in Heq by assumption. rewrite (utoa_step x) in Heq by assumption.
      apply (f_equal String.length) in Heq. rewrite string_length_app in Heq.
      pose proof (utoa_length_pos (x / 10)). cbn [String.length] in Heq. lia.
    - rewrite (utoa_step x), (utoa_step y) in Heq by assumption.
      apply string_snoc_inj in Heq as [Hq Hr].
      apply digit_inj in Hr; [| apply Z.mod_pos_bound; lia ..].
      apply IH in Hq; [| apply Z.div_pos; lia | apply Z.div_pos; lia |].
      + rewrite (Z.div_mod x 10), (Z.div_mod y 10) by lia. congruence.
      + assert (x / 10 < x) by (apply Z.div_lt; lia). lia. }
  intros Ha Hb. apply (Hgen (S (Z.to_nat a))); [assumption | assumption | lia].
Qed.

Lemma fraction_starts_nondigit (m : Z) :
  starts_nondigit (fraction_0369 m +:+ "s") = true.
Proof.
  unfold fraction_0369.
  destruct (m =? 0); [reflexivity|].
  destruct (m mod 1000000 =? 0); [reflexivity|].
  destruct (m mod 1000 =? 0); reflexivity.
Qed.

(** The trimmed fraction, followed by the one-byte suffix, determines the
    nanoseconds. *)
Lemma fraction_inj (suffix : ascii) (m1 m2 : Z) :
  0 <= m1 < 1000000000 -> 0 <= m2 < 1000000000 ->
  fraction_0369 m1 +:+ String suffix "" = fraction_0369 m2 +:+ String suffix "" ->
  m1 = m2.
Proof.
  intros H1 H2 Heq.
  assert (Hlen : String.length (fraction_0369 m1 +:+ String suffix "")
                 = String.length (fraction_0369 m2 +:+ String suffix ""))
    by now rewrite Heq.
  assert (Hdot : forall D1 D2 : string,
            ("." +:+ D1) +:+ String suffix "" = ("." +:+ D2) +:+ String suffix ""
            -> D1 = D2).
  { intros D1 D2 H. rewrite !string_app_cons, !string_app_nil_l in H.
    inversion H as [Hr]. now apply string_snoc_inj in Hr as [-> _]. }
  unfold fraction_0369 in Heq, Hlen.
  destruct (Z.eqb_spec m1 0) as [Hz1|Hz1]; destruct (Z.eqb_spec m2 0) as [Hz2|Hz2];
    [lia| | |].
  - destruct (m2 mod 1000000 =? 0); [|destruct (m2 mod 1000 =? 0)];
      rewrite !string_length_app, ?digitsw_length in Hlen; cbn in Hlen; lia.
  - destruct (m1 mod 1000000 =? 0); [|destruct (m1 mod 1000 =? 0)];
      rewrite !string_length_app, ?digitsw_length in Hlen; cbn in Hlen; lia.
  - destruct (Z.eqb_spec (m1 mod 1000000) 0) as [Ha1|Ha1];
      destruct (Z.eqb_spec (m2 mod 1000000) 0) as [Ha2|Ha2].
    + apply Hdot in Heq. apply digitsw_inj in Heq.
      * rewrite (Z.div_mod m1 1000000), (Z.div_mod m2 1000000) by lia. lia.
      * split; [apply Z.div_pos; lia | apply Z.div_lt_upper_bound; simpl; lia].
      * split; [apply Z.div_pos; lia | apply Z.div_lt_upper_bound; simpl; lia].
    + destruct (m2 mod 1000 =? 0);
        rewrite !string_length_app, ?digitsw_length in Hlen; cbn in Hlen; lia.
    + destruct (m1 mod 1000 =? 0);
        rewrite !string_length_app, ?digitsw_length in Hlen; cbn in Hlen; lia.
    + destruct (Z.eqb_spec (m1 mod 1000) 0) as [Hb1|Hb1];
        destruct (Z.eqb_spec (m2 mod 1000) 0) as [Hb2|Hb2].
      * apply Hdot in Heq. apply digitsw_inj in Heq.
        -- rewrite (Z.div_mod m1 1000), (Z.div_mod m2 1000) by lia. lia.
        -- split; [apply Z.div_pos; lia | apply Z.div_lt_upper_bound; simpl; lia].
        -- split; [apply Z.div_pos; lia | apply Z.div_lt_upper_bound; simpl; lia].
      * rewrite !string_length_app, ?digitsw_length in Hlen; cbn in Hlen; lia.
      * rewrite !string_length_app, ?digitsw_length in Hlen; cbn in Hlen; lia.
      * apply Hdot in Heq. apply digitsw_inj in Heq; [assumption | simpl; lia ..].
Qed.

(** Property X19. [formatDuration] loses nothing: two different
    durations are never rendered as the same string. *)
Theorem formatDuration_injective (d1 d2 : Z) :
  in_int64 d1 -> in_int64 d2 -> formatDuration d1 = formatDuration d2 -> d1 = d2.
Proof.
  intros H1 H2 Heq. rewrite !formatDuration_eq in Heq by assumption.
  assert (Hq : forall d, 0 <= Z.abs d / 1000000000) by (intros; apply Z.div_pos; lia).
  assert (Hm : forall d, 0 <= Z.abs d mod 1000000000 < 1000000000)
    by (intros; apply Z.mod_pos_bound; lia).
  assert (Habs : Z.abs d1 = Z.abs d2 /\ (d1 <? 0) = (d2 <? 0)).
  { assert (Hbody : forall a b,
              utoa (Z.abs a / 1000000000) +:+ fraction_0369 (Z.abs a mod 1000000000) +:+ "s"
              = utoa (Z.abs b / 1000000000) +:+ fraction_0369 (Z.abs b mod 1000000000) +:+ "s"
              -> Z.abs a = Z.abs b).
    { intros x y H.
      apply digits_prefix_unique in H as [Hu Hf];
        [| apply all_digits_utoa, Hq | apply all_digits_utoa, Hq
         | apply fraction_starts_nondigit | apply fraction_starts_nondigit].
      apply utoa_inj in Hu; [| apply Hq | apply Hq].
      apply (fraction_inj "s") in Hf; [| apply Hm | apply Hm].
      rewrite (Z.div_mod (Z.abs x) 1000000000), (Z.div_mod (Z.abs y) 1000000000) by lia.
      congruence. }
    assert (Hmix : forall a b,
              "-" +:+ utoa (Z.abs a / 1000000000) +:+ fraction_0369 (Z.abs a mod 1000000000)
                +:+ "s"
              = "" +:+ utoa (Z.abs b / 1000000000)
                  +:+ fraction_0369 (Z.abs b mod 1000000000) +:+ "s" -> False).
    { intros x y H. rewrite string_app_nil_l, string_app_cons, string_app_nil_l in H.
      pose proof (all_digits_utoa (Z.abs y / 1000000000) (Hq y)) as Hd.
      pose proof (utoa_length_pos (Z.abs y / 1000000000)) as Hl.
      destruct (utoa (Z.abs y / 1000000000)) as [|c rest]; [cbn in Hl; lia|].
      rewrite string_app_cons in H. injection H as Hc _. subst c.
      cbn in Hd. discriminate. }
    destruct (d1 <? 0) eqn:E1; destruct (d2 <? 0) eqn:E2.
    - split; [|reflexivity]. apply Hbody.
      rewrite !string_app_cons, !string_app_nil_l in Heq. now injection Heq.
    - destruct (Hmix _ _ Heq).
    - symmetry in Heq. destruct (Hmix _ _ Heq).
    - split; [|reflexivity]. apply Hbody. now rewrite !string_app_nil_l in Heq. }
  destruct Habs as [Ha Hs].
  destruct (Z.ltb_spec d1 0); destruct (Z.ltb_spec d2 0); try discriminate; lia.
Qed.

Lemma formatDuration_injective_witness :
  formatDuration 1500000000 = formatDuration (3 * 500000000)
  /\ 1500000000 = 3 * 500000000.
Proof.
  split; [reflexivity|].
  apply formatDuration_injective; [unfold in_int64; lia | unfold in_int64; lia | reflexivity].
Defined.

Lemma string_app_inv_head (a b c : string) : a +:+ b = a +:+ c -> b = c.
Proof.
  induction a as [|x a IH]; [now rewrite !string_app_nil_l|].
  rewrite !string_app_cons. intros Heq. injection Heq as Heq. now apply IH.
Qed.

(** Property X20. [formatTimestamp] renders the instant and not the
    location: the zone of its argument has no effect on the result. It
    keeps the nanoseconds in full: two times within the same second are
    rendered alike only when their nanoseconds are the same. *)
Theorem formatTimestamp_keeps_nanos (layout : Z -> Z -> string) (t1 t2 : Time) :
  0 <= nsec t1 < 1000000000 -> 0 <= nsec t2 < 1000000000 ->
  unixSec t1 = unixSec t2 ->
  (formatTimestamp layout t1 = formatTimestamp layout t2 -> nsec t1 = nsec t2)
  /\ (forall off, formatTimestamp layout (mkTime (unixSec t1) (nsec t1) off)
                  = formatTimestamp layout t1).
Proof.
  intros H1 H2 Hsec. split.
  - intros Heq. rewrite !formatTimestamp_eq in Heq by assumption.
    rewrite Hsec in Heq. apply string_app_inv_head in Heq.
    now apply (fraction_inj "Z") in Heq.
  - intros off. rewrite !formatTimestamp_eq by assumption. reflexivity.
Qed.

Lemma formatTimestamp_keeps_nanos_witness :
  formatTimestamp civilSeconds (mkTime 63108020 21000000 3600)
  = formatTimestamp civilSeconds (mkTime 63108020 21000000 0).
Proof.
  exact (proj2 (formatTimestamp_keeps_nanos civilSeconds (mkTime 63108020 21000000 0)
                  (mkTime 63108020 21000000 0) ltac:(simpl; lia) ltac:(simpl; lia) eq_refl)
           3600).
Defined.

End FormatFacts.


(** ** Builder, Context and the conditional-builder protocol *)
Section CoreFacts.
Import Core.
Context {E : Type} `{Event E} {U : Type}.
Variable std : StdLib.

Implicit Types (w : World E U) (l : loc) (b : Builder E) (sh : loggerShared E).

Ltac run := unfold mbind, M_bind, bind, mret, M_ret, ret.

Lemma world_eta w :
  {| builders := builders w; contexts := contexts w;
     effects := effects w; user := user w |} = w.
Proof. now destruct w. Qed.

Lemma alter_same_event (m : gmap loc (Builder E)) l b :
  m !! l = Some b ->
  alter (fun b' => {| BEvent := BEvent b; shared := shared b' |}) l m = m.
Proof.
  intros Hl. apply map_eq. intros i. rewrite lookup_alter.
  destruct (decide (l = i)) as [->|Hne].
  - rewrite Hl. now destruct b.
  - reflexivity.
Qed.

Lemma setEvent_same w l b :
  builders w !! l = Some b -> setEvent l (BEvent b) w = Ok tt w.
Proof.
  intros Hl. unfold setEvent, modify.
  rewrite (alter_same_event _ _ _ Hl). now rewrite world_eta.
Qed.

(** The assertions of conditionalbuilder_test.go hold of the model. *)
Lemma conditionalbuilder_tests_pass :
  testEnabledBuilder None (sampleWorld 6 0 true) = true /\
  testEnabledBuilder (Some 0%nat) (sampleWorld 6 0 true) = true /\
  testDisabledBuilder None (sampleWorld 6 0 true) = true /\
  testDisabledBuilder (Some 0%nat) (sampleWorld 6 0 true) = true /\
  testTerminatedBuilder None (sampleWorld 6 0 true) = true /\
  testTerminatedBuilder (Some 0%nat) (sampleWorld 6 0 true) = true /\
  TestBuilder_IfLevel = true /\
  TestBuilder_nil = true /\
  TestBuilder_If_IfFunc = true.
Proof. repeat split; vm_compute; reflexivity. Qed.

Lemma IfLevel_eq w l b sh (lvl : Level.Level) :
  builders w !! l = Some b -> shared b = Some sh ->
  Builder_IfLevel (Some l) lvl w
  = Ok (if Level.satisfies (level sh) lvl
        then enabledBuilder (Some l) else disabledBuilder (Some l)) w.
Proof.
  intros Hl Hs. unfold Builder_IfLevel. run. unfold loadBuilder.
  rewrite Hl, Hs. reflexivity.
Qed.

Lemma named_range (lvl : Level.Level) :
  lvl ∈ Level.named -> Level.LevelEmergency <= lvl <= Level.LevelTrace.
Proof.
  unfold Level.named. rewrite !elem_of_cons, elem_of_nil.
  unfold Level.LevelEmergency, Level.LevelAlert, Level.LevelCritical,
    Level.LevelError, Level.LevelWarning, Level.LevelNotice,
    Level.LevelInformational, Level.LevelDebug, Level.LevelTrace. lia.
Qed.

(** Claim C1. On a non-nil Builder whose shared logger state has threshold
    [level sh], [IfLevel] at a named level [lvl] returns the enabled
    wrapper of that Builder when [lvl <= level sh] and the disabled wrapper
    otherwise; with the threshold [LevelDisabled] it returns the disabled
    wrapper for every named level; and each shorthand [IfEmerg] ...
    [IfTrace] is [IfLevel] at its constant. *)
Theorem C1_IfLevel_threshold w l b sh (lvl : Level.Level) :
  builders w !! l = Some b -> shared b = Some sh -> lvl ∈ Level.named ->
  Builder_IfLevel (Some l) lvl w
  = Ok (if lvl <=? level sh
        then enabledBuilder (Some l) else disabledBuilder (Some l)) w
  /\ (level sh = Level.LevelDisabled ->
      Builder_IfLevel (Some l) lvl w = Ok (disabledBuilder (Some l)) w)
  /\ Builder_IfEmerg (Some l) w = Builder_IfLevel (Some l) Level.LevelEmergency w
  /\ Builder_IfAlert (Some l) w = Builder_IfLevel (Some l) Level.LevelAlert w
  /\ Builder_IfCrit (Some l) w = Builder_IfLevel (Some l) Level.LevelCritical w
  /\ Builder_IfErr (Some l) w = Builder_IfLevel (Some l) Level.LevelError w
  /\ Builder_IfWarning (Some l) w = Builder_IfLevel (Some l) Level.LevelWarning w
  /\ Builder_IfNotice (Some l) w = Builder_IfLevel (Some l) Level.LevelNotice w
  /\ Builder_IfInfo (Some l) w = Builder_IfLevel (Some l) Level.LevelInformational w
  /\ Builder_IfDebug (Some l) w = Builder_IfLevel (Some l) Level.LevelDebug w
  /\ Builder_IfTrace (Some l) w = Builder_IfLevel (Some l) Level.LevelTrace w.
Proof.
  intros Hl Hs Hn. apply named_range in Hn.
  unfold Level.LevelEmergency, Level.LevelTrace in Hn.
  assert (Hsat : Level.satisfies (level sh) lvl = (lvl <=? level sh)).
  { unfold Level.satisfies, Level.Enabled, Level.LevelDisabled.
    destruct (Z.ltb_spec (-1) lvl); [reflexivity | lia]. }
  split; [|split; [|repeat split]].
  - rewrite (IfLevel_eq w l b sh lvl Hl Hs), Hsat. reflexivity.
  - intros Hd. rewrite (IfLevel_eq w l b sh lvl Hl Hs), Hsat, Hd.
    unfold Level.LevelDisabled.
    destruct (Z.leb_spec lvl (-1)); [lia | reflexivity].
Qed.

(** Every [If*] constructor on a non-nil Builder yields the enabled or
    the disabled wrapper of that Builder. *)
Lemma If_states (l : loc) (cond : bool) :
  Builder_If (Some l) cond
  = if cond then enabledBuilder (Some l) else disabledBuilder (Some l).
Proof. reflexivity. Qed.

Lemma Call_disabled (x : option loc) (fn : func E U (option loc) unit) w :
  CB_Call (disabledBuilder x) fn w = Ok (disabledBuilder x) w.
Proof. unfold CB_Call. now destruct fn. Qed.

Lemma Call_terminated (x : option loc) (fn : func E U (option loc) unit) w :
  CB_Call (terminatedBuilder x) fn w = Ok (terminatedBuilder x) w.
Proof. unfold CB_Call. now destruct fn. Qed.

Lemma Call_nil_fn (c : ConditionalBuilder) w :
  CB_Call (E := E) (U := U) c None w = Ok c w.
Proof. unfold CB_Call. now destruct c as [[?|]|?|?]. Qed.

Lemma Call_enabled (l : loc) (f : option loc -> M E U unit) w :
  CB_Call (enabledBuilder (Some l)) (Some f) w
  = (f (Some l);; mret (enabledBuilder (Some l))) w.
Proof. reflexivity. Qed.

Lemma Call_enabled_nil (fn : func E U (option loc) unit) w :
  CB_Call (enabledBuilder None) fn w = Ok (enabledBuilder None) w.
Proof. unfold CB_Call. now destruct fn. Qed.

(** Claim C2. In the chain [If*(...).Call(f).Else().Call(g)] on a non-nil
    Builder, for either outcome of the predicate exactly one body runs,
    once: [f] when the predicate holds, [g] when it does not. [Call] is a
    no-op in the disabled and in the terminated state and for a nil
    function, and runs its argument on the Builder in the enabled state.
    Whatever state the chain ends in, calling [Else] twice more yields a
    terminated wrapper both times, [Else] of a terminated wrapper is that
    wrapper, and [Call] on it runs nothing. *)
Theorem C2_tri_state (l : loc) (cond : bool) (f g : option loc -> M E U unit) w :
  if_call_else_call (Some l) cond (Some f) (Some g) w
  = (if cond
     then f (Some l);; mret (terminatedBuilder (Some l))
     else g (Some l);; mret (enabledBuilder (Some l))) w
  /\ (forall x fn w', CB_Call (disabledBuilder x) fn w' = Ok (disabledBuilder x) w')
  /\ (forall x fn w', CB_Call (terminatedBuilder x) fn w' = Ok (terminatedBuilder x) w')
  /\ (forall c w', CB_Call (E := E) (U := U) c None w' = Ok c w')
  /\ CB_Call (enabledBuilder (Some l)) (Some f) w
     = (f (Some l);; mret (enabledBuilder (Some l))) w
  /\ (forall c,
        (c = terminatedBuilder (Some l) \/ c = enabledBuilder (Some l)) ->
        CB_Else c = terminatedBuilder (Some l)
        /\ CB_Else (CB_Else c) = terminatedBuilder (Some l))
  /\ (forall x, CB_Else (terminatedBuilder x) = terminatedBuilder x)
  /\ (forall c fn w',
        CB_Call (E := E) (U := U) (CB_Else (CB_Else c)) fn w'
        = Ok (terminatedBuilder (CB_Builder c)) w').
Proof.
  split; [|split; [|split; [|split; [|split; [|split; [|split]]]]]].
  - unfold if_call_else_call. rewrite If_states. destruct cond.
    + run. rewrite Call_enabled. run.
      destruct (f (Some l) w) as [[] w1|msg w1]; [|reflexivity].
      cbn [CB_Else]. apply Call_terminated.
    + run. rewrite Call_disabled. cbn [CB_Else]. apply Call_enabled.
  - intros. apply Call_disabled.
  - intros. apply Call_terminated.
  - intros. apply Call_nil_fn.
  - apply Call_enabled.
  - intros c [-> | ->]; split; reflexivity.
  - reflexivity.
  - intros [x|x|x] fn w'; cbn [CB_Else CB_Builder]; apply Call_terminated.
Qed.

(** Claim C8, as the code has it. In each of the three states [Enabled],
    [Builder] and [Else] do not look at the underlying Builder, nil or
    not, and [Call] is a no-op in the disabled and terminated states for
    any Builder; in the enabled state [Call] runs a non-nil function on a
    non-nil Builder and is a no-op on a nil Builder. *)
Theorem C8_nil_builder_states (x : option loc) (l : loc)
    (f : option loc -> M E U unit) (fn : func E U (option loc) unit) w :
  CB_Enabled (enabledBuilder x) = true
  /\ CB_Enabled (disabledBuilder x) = false
  /\ CB_Enabled (terminatedBuilder x) = false
  /\ CB_Builder (enabledBuilder x) = x
  /\ CB_Builder (disabledBuilder x) = x
  /\ CB_Builder (terminatedBuilder x) = x
  /\ CB_Else (enabledBuilder x) = terminatedBuilder x
  /\ CB_Else (disabledBuilder x) = enabledBuilder x
  /\ CB_Else (terminatedBuilder x) = terminatedBuilder x
  /\ CB_Call (disabledBuilder x) fn w = Ok (disabledBuilder x) w
  /\ CB_Call (terminatedBuilder x) fn w = Ok (terminatedBuilder x) w
  /\ CB_Call (enabledBuilder (Some l)) (Some f) w
     = (f (Some l);; mret (enabledBuilder (Some l))) w
  /\ CB_Call (enabledBuilder None) fn w = Ok (enabledBuilder None) w.
Proof.
  repeat split;
    first [apply Call_disabled | apply Call_terminated | apply Call_enabled_nil].
Qed.

(** *** Log, Logf, LogFunc *)

Lemma release_eq w l b sh :
  builders w !! l = Some b -> shared b = Some sh ->
  Builder_release l w = Ok tt (released sh l w).
Proof.
  intros Hl Hs. unfold Builder_release. run. unfold loadBuilder.
  now rewrite Hl, Hs.
Qed.

Lemma log_eq w l b sh (msg : string) :
  builders w !! l = Some b -> shared b = Some sh ->
  defer (Builder_release l) (Builder_log l msg) w
  = Ok tt (logged sh l (with_message (BEvent b) msg) w).
Proof.
  intros Hl Hs. unfold defer, Builder_log. run. unfold loadBuilder at 1.
  rewrite Hl. unfold with_message.
  destruct (AddMessage (BEvent b) msg) as [handled event]. cbn [fst snd].
  set (e2 := if handled then event else AddField event "msg" (VString msg)).
  unfold setEvent, modify. rewrite Hs. unfold emit, modify. cbn.
  unfold Builder_release. run. unfold loadBuilder. cbn [builders].
  rewrite lookup_alter, decide_True by reflexivity. rewrite Hl. cbn.
  rewrite Hs. unfold emit, modify, logged. cbn.
  now rewrite <- app_assoc.
Qed.

(** Claim C3. [Log], [Logf] and [LogFunc] do nothing on a nil Builder. On
    a Builder with its shared state they put the Builder back into the
    pool of that state whether or not the event is enabled; when the
    event's level is disabled nothing else happens; when it is enabled the
    event receives the message through [AddMessage], or through the field
    [msg] when [AddMessage] reports it unhandled, and is then handed to
    the writer, whose error does not reach the result. *)
Theorem C3_log_release w l b sh (msg format : string) (args : list any)
    (fn : func E U unit string) (f : unit -> M E U string) :
  builders w !! l = Some b -> shared b = Some sh ->
  f tt w = Ok msg w ->
  (forall w', Builder_Log None msg w' = Ok tt w'
              /\ Builder_Logf std None format args w' = Ok tt w'
              /\ Builder_LogFunc None fn w' = Ok tt w')
  /\ (Level.Enabled (Level (BEvent b)) = false ->
      Builder_Log (Some l) msg w = Ok tt (released sh l w)
      /\ Builder_Logf std (Some l) format args w = Ok tt (released sh l w)
      /\ Builder_LogFunc (Some l) fn w = Ok tt (released sh l w))
  /\ (Level.Enabled (Level (BEvent b)) = true ->
      Builder_Log (Some l) msg w
      = Ok tt (logged sh l (with_message (BEvent b) msg) w)
      /\ Builder_Logf std (Some l) format args w
         = Ok tt (logged sh l (with_message (BEvent b) (fmt_Sprintf std format args)) w)
      /\ Builder_LogFunc (Some l) (Some f) w
         = Ok tt (logged sh l (with_message (BEvent b) msg) w)).
Proof.
  intros Hl Hs Hf. split; [|split].
  - intros w'. repeat split.
  - intros Hoff.
    assert (Hskip : forall body : M E U unit,
      defer (Builder_release l)
        (b' ← loadBuilder l;
         if Level.Enabled (Level (BEvent b')) then body else mret tt) w
      = Ok tt (released sh l w)).
    { intros body. unfold defer. run. unfold loadBuilder at 1.
      rewrite Hl, Hoff. now rewrite (release_eq w l b sh Hl Hs). }
    repeat split; apply Hskip.
  - intros Hon.
    assert (Hrun : forall body : M E U unit,
      defer (Builder_release l)
        (b' ← loadBuilder l;
         if Level.Enabled (Level (BEvent b')) then body else mret tt) w
      = defer (Builder_release l) body w).
    { intros body. unfold defer. run. unfold loadBuilder at 1.
      now rewrite Hl, Hon. }
    repeat split.
    + unfold Builder_Log. rewrite Hrun. now apply log_eq.
    + unfold Builder_Logf. rewrite Hrun. now apply log_eq.
    + unfold Builder_LogFunc. rewrite Hrun.
      rewrite <- (log_eq w l b sh msg Hl Hs).
      unfold defer, call. run. now rewrite Hf.
Qed.

(** Property X8. A Builder without shared state has no pool: on such a
    Builder a log call for a disabled event does nothing at all, and one
    for an enabled event panics with a nil dereference at
    [x.shared.writer], after the message was added to the event; nothing
    is written and nothing is released. *)
Lemma Log_without_shared w l b (msg : string) :
  builders w !! l = Some b -> shared b = None ->
  (Level.Enabled (Level (BEvent b)) = false -> Builder_Log (Some l) msg w = Ok tt w)
  /\ (Level.Enabled (Level (BEvent b)) = true ->
      exists w', Builder_Log (Some l) msg w = Panic nil_deref w'
                 /\ effects w' = effects w).
Proof.
  intros Hl Hs. split; intros Hlev.
  - unfold Builder_Log, defer. run. unfold loadBuilder at 1. rewrite Hl, Hlev.
    unfold Builder_release. run. unfold loadBuilder. now rewrite Hl, Hs.
  - unfold Builder_Log, defer, Builder_log. run. unfold loadBuilder at 1.
    rewrite Hl, Hlev. unfold loadBuilder at 1. rewrite Hl.
    destruct (AddMessage (BEvent b) msg) as [handled event].
    unfold setEvent, modify. rewrite Hs. unfold panic.
    unfold Builder_release. run. unfold loadBuilder. cbn [builders].
    rewrite lookup_alter, decide_True by reflexivity. rewrite Hl. cbn.
    rewrite Hs. eexists. split; reflexivity.
Qed.

(** *** Field setters *)

Lemma Builder_apply_disabled w l b (m : ModifyFunc E) :
  builders w !! l = Some b -> fst (m (BEvent b)) = BEvent b ->
  Builder_apply (Some l) m w = Ok (Some l) w.
Proof.
  intros Hl Hm. unfold Builder_apply. run. unfold loadBuilder. rewrite Hl.
  destruct (shared b); [|reflexivity].
  destruct (m (BEvent b)) as [event err]. cbn [fst] in Hm. subst event.
  now rewrite (setEvent_same w l b Hl).
Qed.

Lemma Context_apply_eq w l (c : Context E) (lg : Logger) (m : ModifyFunc E) :
  contexts w !! l = Some c -> logger c = Some lg ->
  Context_apply (Some l) m w = Ok (Some l) (modifier_added l c m w).
Proof.
  intros Hl Hlg. unfold Context_apply, Context_add. run. unfold loadContext.
  rewrite Hl, Hlg. rewrite Hl. reflexivity.
Qed.

(** Claim C4, as the code has it. On an event whose level is disabled
    every typed setter returns the disabled sentinel and the event
    unchanged. The Builder methods drop that error: the call returns the
    receiver and leaves the store as it was. The Context methods do not
    run the setter: they return the receiver after appending a modifier,
    and that modifier, applied later to a disabled event, leaves it
    unchanged and returns the disabled sentinel to whoever applies it. *)
Theorem C4_disabled_field_setters (event : E) (key sval : string) (val : any)
    (ival fval : Z) (err : option error) w l b lc (c : Context E) (lg : Logger) :
  Level.Enabled (Level event) = false ->
  Level.Enabled (Level (BEvent b)) = false ->
  builders w !! l = Some b ->
  contexts w !! lc = Some c -> logger c = Some lg ->
  (methods_Field std event key val = (event, Some ErrDisabled)
   /\ methods_Interface event key val = (event, Some ErrDisabled)
   /\ methods_Err event err = (event, Some ErrDisabled)
   /\ methods_Str event key sval = (event, Some ErrDisabled)
   /\ methods_Int event key ival = (event, Some ErrDisabled)
   /\ methods_Float32 event key fval = (event, Some ErrDisabled))
  /\ (Builder_Field std (Some l) key val w = Ok (Some l) w
      /\ Builder_Interface (Some l) key val w = Ok (Some l) w
      /\ Builder_Err (Some l) err w = Ok (Some l) w
      /\ Builder_Str (Some l) key sval w = Ok (Some l) w
      /\ Builder_Int (Some l) key ival w = Ok (Some l) w
      /\ Builder_Float32 (Some l) key fval w = Ok (Some l) w)
  /\ (Context_Field std (Some lc) key val w
      = Ok (Some lc) (modifier_added lc c (fun e => methods_Field std e key val) w)
      /\ Context_Interface (Some lc) key val w
         = Ok (Some lc) (modifier_added lc c (fun e => methods_Interface e key val) w)
      /\ Context_Err (Some lc) err w
         = Ok (Some lc) (modifier_added lc c (fun e => methods_Err e err) w)
      /\ Context_Str (Some lc) key sval w
         = Ok (Some lc) (modifier_added lc c (fun e => methods_Str e key sval) w)
      /\ Context_Int (Some lc) key ival w
         = Ok (Some lc) (modifier_added lc c (fun e => methods_Int e key ival) w)
      /\ Context_Float32 (Some lc) key fval w
         = Ok (Some lc) (modifier_added lc c (fun e => methods_Float32 e key fval) w)).
Proof.
  intros Hoff Hboff Hl Hc Hlg.
  assert (Hset : forall e, Level.Enabled (Level e) = false ->
    methods_Field std e key val = (e, Some ErrDisabled)
    /\ methods_Interface e key val = (e, Some ErrDisabled)
    /\ methods_Err e err = (e, Some ErrDisabled)
    /\ methods_Str e key sval = (e, Some ErrDisabled)
    /\ methods_Int e key ival = (e, Some ErrDisabled)
    /\ methods_Float32 e key fval = (e, Some ErrDisabled)).
  { intros e He.
    unfold methods_Field, methods_Interface, methods_Err, methods_Str,
      methods_Int, methods_Float32. rewrite He. cbn [negb]. repeat split. }
  split; [exact (Hset event Hoff)|]. split.
  - destruct (Hset (BEvent b) Hboff) as (H1 & H2 & H3 & H4 & H5 & H6).
    repeat split; apply (Builder_apply_disabled w l b); try assumption;
      first [now rewrite H1 | now rewrite H2 | now rewrite H3
            | now rewrite H4 | now rewrite H5 | now rewrite H6].
  - repeat split; now apply Context_apply_eq with (lg := lg).
Qed.

(** *** Nil receivers *)

(** The methods that guard their receiver do nothing on nil and return
    it. *)
Lemma nil_receiver_guarded (key sval : string) (val : any) (ival fval : Z)
    (err : option error) (msg format : string) (args : list any)
    (fn : func E U unit string) w :
  Builder_Field std None key val w = Ok None w
  /\ Builder_Interface None key val w = Ok None w
  /\ Builder_Err None err w = Ok None w
  /\ Builder_Str None key sval w = Ok None w
  /\ Builder_Int None key ival w = Ok None w
  /\ Builder_Float32 None key fval w = Ok None w
  /\ Context_Field std None key val w = Ok None w
  /\ Context_Interface None key val w = Ok None w
  /\ Context_Err None err w = Ok None w
  /\ Context_Str None key sval w = Ok None w
  /\ Context_Int None key ival w = Ok None w
  /\ Context_Float32 None key fval w = Ok None w
  /\ Context_Logger None w = Ok None w
  /\ Builder_Log None msg w = Ok tt w
  /\ Builder_Logf std None format args w = Ok tt w
  /\ Builder_LogFunc None fn w = Ok tt w.
Proof. repeat split. Qed.

(** Claim C7, at the input where the code departs from it:
    [Builder.Call] has no guard, so on a nil receiver it still runs its
    argument, and with a nil function it panics. *)
Theorem C7_Builder_Call_unguarded (f : option loc -> M E U unit) w :
  Builder_Call (E := E) (U := U) None None w = Panic nil_deref w
  /\ Builder_Call None (Some f) w = (f None;; mret None) w.
Proof. split; reflexivity. Qed.

End CoreFacts.

Lemma C3_log_witness :
  Core.Builder_Log (Some 0%nat) "hello" (Core.sampleWorld 6 6 false)
  = Core.Ok tt
      (Core.logged (Core.sampleShared 6) 0%nat
         (Core.with_message (Core.sampleEventAt 6 false) "hello")
         (Core.sampleWorld 6 6 false))
  /\ Core.Builder_Log (Some 0%nat) "hello" (Core.sampleWorld (-1) 6 false)
     = Core.Ok tt (Core.released (Core.sampleShared 6) 0%nat (Core.sampleWorld (-1) 6 false)).
Proof.
  split.
  - refine (proj1 (proj2 (proj2
      (C3_log_release Core.sampleStd (Core.sampleWorld 6 6 false) 0%nat
         (Core.sampleBuilder 6 6 false) (Core.sampleShared 6) "hello" "" [] None (Core.constant_message "hello")
         _ _ _)) _)).
    + reflexivity.
    + reflexivity.
    + reflexivity.
    + reflexivity.
  - refine (proj1 (proj1 (proj2
      (C3_log_release Core.sampleStd (Core.sampleWorld (-1) 6 false) 0%nat
         (Core.sampleBuilder (-1) 6 false) (Core.sampleShared 6) "hello" "" [] None (Core.constant_message "hello")
         _ _ _)) _)).
    + reflexivity.
    + reflexivity.
    + reflexivity.
    + reflexivity.
Defined.

(** What the sample log call leaves behind: the event went to the writer
    with the message in the field [msg] (the sample event does not handle
    [AddMessage]), then the builder went to its pool. *)
Example log_effects :
  Core.effects (Core.logged (Core.sampleShared 6) 0%nat
                  (Core.with_message (Core.sampleEventAt 6 false) "hello")
                  (Core.sampleWorld 6 6 false))
  = [Core.WriterWrite
       {| Core.LevelValue := 6; Core.typed := false;
          Core.fields := [("msg"%string, Core.VString "hello")];
          Core.message := None |};
     Core.PoolPut 0%nat 0%nat].
Proof. reflexivity. Qed.

(** The dispatch of [Field] on an enabled event: a duration and a
    timestamp go through the string path with their formatted text, an
    int through [AddInt]; the sample event without typed primitives falls
    back to [AddField] with the same values. *)
Example Field_dispatch :
  Core.fields_after
    (Core.Builder_Field Core.sampleStd (Some 0%nat) "d" (Core.VDuration (-1500000000))
       (Core.sampleWorld 6 6 true))
  = Some [("d"%string, Core.VString "-1.500s")]
  /\ Core.fields_after
       (Core.Builder_Field Core.sampleStd (Some 0%nat) "t"
          (Core.VTime (Fmt.mkTime 63108020 21000000 3600))
          (Core.sampleWorld 6 6 false))
     = Some [("t"%string, Core.VString "1972-01-01T10:00:20.021Z")]
  /\ Core.fields_after
       (Core.Builder_Field Core.sampleStd (Some 0%nat) "n" (Core.VInt 7)
          (Core.sampleWorld 6 6 false))
     = Some [("n"%string, Core.VInt 7)]
  /\ Core.fields_after
       (Core.Builder_Field Core.sampleStd (Some 0%nat) "n" (Core.VInt 7)
          (Core.sampleWorld (-1) 6 false))
     = Some [].
Proof. repeat split; vm_compute; reflexivity. Qed.

Lemma C4_disabled_witness :
  Core.Builder_Str (Some 0%nat) "k" "v" (Core.sampleWorld (-1) 6 true)
  = Core.Ok (Some 0%nat) (Core.sampleWorld (-1) 6 true)
  /\ Core.methods_Str (Core.sampleEventAt (-1) true) "k" "v"
     = (Core.sampleEventAt (-1) true, Some Core.ErrDisabled).
Proof.
  pose proof (C4_disabled_field_setters Core.sampleStd (Core.sampleEventAt (-1) true)
                "k" "v" Core.VNil 0 0 None (Core.sampleWorld (-1) 6 true)
                0%nat (Core.sampleBuilder (-1) 6 true) 1%nat Core.sampleContext 7%nat
                eq_refl eq_refl eq_refl eq_refl eq_refl) as (Hset & Hb & _).
  split.
  - exact (proj1 (proj2 (proj2 (proj2 Hb)))).
  - exact (proj1 (proj2 (proj2 (proj2 Hset)))).
Defined.

(** Claim C4 as stated fails for the Context methods: the error of the
    setter is not dropped by the wrapper. After [Str] on a context, the
    modifier it recorded returns the disabled sentinel when it is applied
    to a disabled event. *)
Lemma C4_context_keeps_error :
  exists w' m,
    Core.Context_Str (Some 1%nat) "k" "v" (Core.sampleWorld (-1) 6 true)
    = Core.Ok (Some 1%nat) w'
    /\ Core.Modifiers <$> (Core.contexts w' !! 1%nat) = Some [m]
    /\ snd (m (Core.sampleEventAt (-1) true)) = Some Core.ErrDisabled.
Proof.
  eexists _, _. split; [reflexivity|]. split; reflexivity.
Qed.

(** Claim C8 as stated fails in the enabled state: [Call] on the enabled
    wrapper of a nil Builder does not run the function, on the enabled
    wrapper of a non-nil Builder it does (the counter of calls reads 0 and
    1), as [testEnabledBuilder] requires. *)
Lemma C8_enabled_call_nil_differs :
  Core.calls_of (Core.CB_Call (Core.enabledBuilder None) Core.count_call
                   (Core.sampleWorld 6 6 true)) = Some 0%nat
  /\ Core.calls_of (Core.CB_Call (Core.enabledBuilder (Some 0%nat)) Core.count_call
                      (Core.sampleWorld 6 6 true)) = Some 1%nat.
Proof. split; reflexivity. Qed.

(** The tri-state law on the sample store, by counting calls: of the two
    bodies exactly one runs, once, for either outcome of the predicate. *)
Example tri_state_counts (cond : bool) :
  Core.calls_of (Core.if_call_else_call (Some 0%nat) cond Core.count_call Core.count_call
                   (Core.sampleWorld 6 6 true)) = Some 1%nat.
Proof. destruct cond; reflexivity. Qed.

Lemma C1_IfLevel_witness :
  Core.Builder_IfLevel (Some 0%nat) Level.LevelInformational
    (Core.sampleWorld 6 Level.LevelDebug true)
  = Core.Ok (Core.enabledBuilder (Some 0%nat)) (Core.sampleWorld 6 Level.LevelDebug true)
  /\ Core.Builder_IfLevel (Some 0%nat) Level.LevelTrace
       (Core.sampleWorld 6 Level.LevelDebug true)
     = Core.Ok (Core.disabledBuilder (Some 0%nat)) (Core.sampleWorld 6 Level.LevelDebug true).
Proof.
  split.
  - refine (proj1 (C1_IfLevel_threshold _ 0%nat (Core.sampleBuilder 6 Level.LevelDebug true)
                     (Core.sampleShared Level.LevelDebug)
                     Level.LevelInformational _ _ _)).
    + reflexivity.
    + reflexivity.
    + unfold Level.named. set_solver.
  - refine (proj1 (C1_IfLevel_threshold _ 0%nat (Core.sampleBuilder 6 Level.LevelDebug true)
                     (Core.sampleShared Level.LevelDebug)
                     Level.LevelTrace _ _ _)).
    + reflexivity.
    + reflexivity.
    + unfold Level.named. set_solver.
Defined.

(** ** Chain *)
Section ChainFacts.
Import Chain ArraySupport.

Implicit Types (s : state) (l : loc) (x : option loc) (it : refPoolItem)
  (p : option root) (v : value) (key : string) (fuel : nat) (k : kind).

Ltac run := unfold mbind, M_bind, bind, mret, M_ret, ret.

Lemma load_ok s l it : cells s !! l = Some it -> load l s = Ok it s.
Proof. intros H. unfold load. now rewrite H. Qed.

Lemma current_ok s l it :
  cells s !! l = Some it ->
  Chain_current (Some l) s = Ok (if is_parent (b it) then b it else Nil) s.
Proof. intros H. unfold Chain_current. run. now rewrite (load_ok s l it H). Qed.

Lemma current_nil s l it :
  cells s !! l = Some it -> is_parent (b it) = false ->
  Chain_current (Some l) s = Ok Nil s.
Proof. intros H Hb. rewrite (current_ok s l it H). now rewrite Hb. Qed.

(** *** A chain without a current target *)

Lemma Enabled_no_current fuel s x :
  Chain_current x s = Ok Nil s -> Chain_Enabled fuel x s = Ok false s.
Proof. intros H. unfold Chain_Enabled, Chain_Enabled_with. run. now rewrite H. Qed.

Lemma Root_no_current fuel s x :
  Chain_current x s = Ok Nil s -> Chain_Root fuel x s = Ok None s.
Proof. intros H. unfold Chain_Root, Chain_Root_with. run. now rewrite H. Qed.

Lemma Cur_no_current fuel k s x :
  Chain_current x s = Ok Nil s -> Chain_Cur fuel k x s = Ok None s.
Proof.
  intros H. unfold Chain_Cur. run. now rewrite (Enabled_no_current fuel s x H).
Qed.

Lemma As_no_current fuel s x key :
  Chain_current x s = Ok Nil s -> Chain_As fuel x key s = Ok x s.
Proof. intros H. unfold Chain_As. run. now rewrite H. Qed.

(** The store after [refPoolPut] of the cell at [l]. *)
Lemma End_owner s l it p :
  cells s !! l = Some it -> a it = RootPtr p ->
  exists s', Chain_End (Some l) s = Ok p s'
             /\ puts s' = puts s ++ [l] /\ pool s' = l :: pool s
             /\ cells s' !! l = Some zero_item
             /\ gets s' = gets s /\ reports s' = reports s
             /\ (forall l', l' <> l -> cells s' !! l' = cells s !! l').
Proof.
  intros H Ha. unfold Chain_End. run. rewrite (load_ok s l it H), Ha.
  eexists. split; [reflexivity|]. cbn. rewrite lookup_insert_eq. repeat split.
  intros l' Hne. now rewrite lookup_insert_ne.
Qed.

(** Claim C10, as the code has it. On a nil chain [Enabled] is false,
    [Root], [CurArray] and [CurObject] are nil, [As] and [Add] return the
    receiver and [End] returns the zero-value parent, all without touching
    the store and without any report. On a chain whose current slot holds
    no Parent the same holds of [Enabled], [Root], [CurArray], [CurObject],
    [As] and [Add]; [End] still returns the owning parent kept in the
    other slot and gives the cell back to the pool. *)
Theorem C10_chain_without_current fuel s l it p key :
  cells s !! l = Some it -> is_parent (b it) = false -> a it = RootPtr p ->
  (Chain_Enabled fuel None s = Ok false s
   /\ Chain_Root fuel None s = Ok None s
   /\ Chain_CurArray fuel None s = Ok None s
   /\ Chain_CurObject fuel None s = Ok None s
   /\ Chain_As fuel None key s = Ok None s
   /\ Chain_Add fuel None s = Ok None s
   /\ Chain_End None s = Ok None s)
  /\ (Chain_Enabled fuel (Some l) s = Ok false s
      /\ Chain_Root fuel (Some l) s = Ok None s
      /\ Chain_CurArray fuel (Some l) s = Ok None s
      /\ Chain_CurObject fuel (Some l) s = Ok None s
      /\ Chain_As fuel (Some l) key s = Ok (Some l) s
      /\ Chain_Add fuel (Some l) s = Ok (Some l) s
      /\ exists s', Chain_End (Some l) s = Ok p s'
                    /\ puts s' = puts s ++ [l]
                    /\ reports s' = reports s).
Proof.
  intros H Hb Ha. split.
  - repeat split.
  - pose proof (current_nil s l it H Hb) as Hc.
    split; [now apply Enabled_no_current|].
    split; [now apply Root_no_current|].
    split; [now apply Cur_no_current|].
    split; [now apply Cur_no_current|].
    split; [now apply As_no_current|].
    split; [now apply As_no_current|].
    destruct (End_owner s l it p H Ha) as (s' & He & Hp & _ & _ & _ & Hr & _).
    now exists s'.
Qed.

(** *** What a computation may change *)

Lemma keeps_ret {A} (r : A) (R : state -> state -> Prop) :
  (forall s, R s s) -> keeps (mret r) R.
Proof. intros HR s r' s' H. inversion H; subst. apply HR. Qed.

Lemma keeps_bind {A B} (m : M A) (f : A -> M B) (R : state -> state -> Prop) :
  (forall s1 s2 s3, R s1 s2 -> R s2 s3 -> R s1 s3) ->
  keeps m R -> (forall r, keeps (f r) R) -> keeps (m ≫= f) R.
Proof.
  intros Ht Hm Hf s r s' H. unfold mbind, M_bind, bind in H.
  destruct (m s) as [r1 s1| |] eqn:E; try discriminate.
  exact (Ht _ _ _ (Hm _ _ _ E) (Hf r1 _ _ _ H)).
Qed.

Lemma keeps_panic {A} (msg : string) (R : state -> state -> Prop) :
  keeps (panic (A := A) msg) R.
Proof. intros s r s' H. discriminate. Qed.

Lemma keeps_out_of_fuel {A} (R : state -> state -> Prop) :
  keeps (out_of_fuel (A := A)) R.
Proof. intros s r s' H. discriminate. Qed.

Lemma keeps_modify (f : state -> state) (R : state -> state -> Prop) :
  (forall s, R s (f s)) -> keeps (modify f) R.
Proof. intros HR s r s' H. inversion H; subst. apply HR. Qed.

Lemma keeps_load l (R : state -> state -> Prop) :
  (forall s, R s s) -> keeps (load l) R.
Proof.
  intros HR s r s' H. unfold load in H.
  destruct (cells s !! l); inversion H; subst. apply HR.
Qed.

Lemma unchanged_trans s1 s2 s3 : unchanged s1 s2 -> unchanged s2 s3 -> unchanged s1 s3.
Proof. unfold unchanged. congruence. Qed.

Lemma same_reports_trans s1 s2 s3 :
  same_reports s1 s2 -> same_reports s2 s3 -> same_reports s1 s3.
Proof. unfold same_reports. congruence. Qed.

Lemma unchanged_same_reports {A} (m : M A) : keeps m unchanged -> keeps m same_reports.
Proof. intros H s r s' E. now rewrite (H s r s' E). Qed.

Lemma current_pure x : keeps (Chain_current x) unchanged.
Proof.
  destruct x as [l|]; cbn [Chain_current].
  - apply keeps_bind; [apply unchanged_trans | now apply keeps_load |].
    intros it. now apply keeps_ret.
  - now apply keeps_ret.
Qed.

(** [Enabled] and [Root] only read the store. *)
Lemma Parent_Enabled_pure fuel v : keeps (Parent_Enabled fuel v) unchanged.
Proof.
  revert v; induction fuel as [|fuel IH]; intros v; cbn [Parent_Enabled].
  - apply keeps_out_of_fuel.
  - destruct v as [|p|x|x|x|d]; try apply keeps_panic.
    + now apply keeps_ret.
    + unfold Chain_Enabled_with.
      apply keeps_bind; [apply unchanged_trans | apply current_pure |].
      intros cur. destruct (is_nil cur); [now apply keeps_ret | apply IH].
    + destruct x as [l|]; cbn [Nested_Enabled_with]; [|now apply keeps_ret].
      apply keeps_bind; [apply unchanged_trans | now apply keeps_load |].
      intros it. destruct (is_parent (a it)); [apply IH | now apply keeps_ret].
    + destruct x as [l|]; cbn [Nested_Enabled_with]; [|now apply keeps_ret].
      apply keeps_bind; [apply unchanged_trans | now apply keeps_load |].
      intros it. destruct (is_parent (a it)); [apply IH | now apply keeps_ret].
Qed.

Lemma Parent_write_reports fuel v key (val : json) :
  keeps (Parent_write fuel v key val) same_reports.
Proof.
  revert v; induction fuel as [|fuel IH]; intros v; cbn [Parent_write].
  - apply keeps_out_of_fuel.
  - destruct v as [|[r|]|x|[l|]|[l|]|d]; try apply keeps_panic.
    + now apply keeps_modify.
    + unfold Chain_write_with. apply keeps_bind; [apply same_reports_trans| |].
      * apply unchanged_same_reports, current_pure.
      * intros cur. destruct (is_nil cur); [apply keeps_panic | apply IH].
    + apply keeps_bind; [apply same_reports_trans | now apply keeps_load |].
      intros it. now apply keeps_modify.
    + apply keeps_bind; [apply same_reports_trans | now apply keeps_load |].
      intros it. now apply keeps_modify.
Qed.

Lemma refPoolPut_reports x : keeps (refPoolPut x) same_reports.
Proof. destruct x; [now apply keeps_modify | now apply keeps_ret]. Qed.

Lemma setCurrent_reports x v : keeps (Chain_setCurrent x v) same_reports.
Proof.
  destruct x as [l|]; cbn [Chain_setCurrent]; [|apply keeps_panic].
  apply keeps_bind; [apply same_reports_trans | now apply keeps_load |].
  intros it. now apply keeps_modify.
Qed.

Lemma Nested_As_reports fuel k x key : keeps (Nested_As fuel k x key) same_reports.
Proof.
  unfold Nested_As.
  apply keeps_bind; [apply same_reports_trans | |].
  { apply unchanged_same_reports, Parent_Enabled_pure. }
  intros en. apply keeps_bind; [apply same_reports_trans | |].
  { destruct x as [l|]; cbn [Nested_p]; [|now apply keeps_ret].
    apply keeps_bind; [apply same_reports_trans | now apply keeps_load |].
    intros it. now apply keeps_ret. }
  intros p. destruct en; [|now apply keeps_ret].
  destruct x as [l|]; [|now apply keeps_ret].
  apply keeps_bind; [apply same_reports_trans | now apply keeps_load |].
  intros it. apply keeps_bind; [apply same_reports_trans | apply Parent_write_reports |].
  intros _. apply keeps_bind; [apply same_reports_trans | apply refPoolPut_reports |].
  intros _. now apply keeps_ret.
Qed.

Lemma As_close_reports fuel x v key : keeps (As_close fuel x v key) same_reports.
Proof.
  unfold As_close.
  apply keeps_bind; [apply same_reports_trans | |].
  { destruct v; cbn [builder_as]; try apply keeps_panic; apply Nested_As_reports. }
  intros r.
  destruct r as [|q|[c|]|y|y|d]; try apply setCurrent_reports.
  apply keeps_bind; [apply same_reports_trans | |].
  { apply keeps_bind; [apply same_reports_trans | now apply keeps_load |].
    intros it. now apply keeps_ret. }
  intros ca. apply keeps_bind; [apply same_reports_trans | |].
  { destruct x as [l|]; [|apply keeps_panic].
    apply keeps_bind; [apply same_reports_trans | now apply keeps_load |].
    intros it. now apply keeps_ret. }
  intros xa. apply keeps_bind; [apply same_reports_trans | |].
  { destruct ca, xa; cbn [iface_eq]; try apply keeps_panic; now apply keeps_ret. }
  intros same. destruct same; [|apply setCurrent_reports].
  apply keeps_bind; [apply same_reports_trans | |].
  { apply unchanged_same_reports, current_pure. }
  intros cc. apply keeps_bind; [apply same_reports_trans | apply setCurrent_reports |].
  intros _. apply refPoolPut_reports.
Qed.

(** Property X21. Whatever the chain, its current target and the key,
    [As] leaves no report: where it calls [DPanic] the current slot is
    already empty, so [Root] answers nil and the call has no logger to
    reach. *)
Lemma As_never_reports fuel x key : keeps (Chain_As fuel x key) same_reports.
Proof.
  unfold Chain_As.
  apply keeps_bind; [apply same_reports_trans | |].
  { apply unchanged_same_reports, current_pure. }
  intros cur. apply keeps_bind; [apply same_reports_trans | | intros; now apply keeps_ret].
  destruct (is_nil cur); [now apply keeps_ret|].
  apply keeps_bind; [apply same_reports_trans | |].
  { destruct cur; try apply setCurrent_reports; apply As_close_reports. }
  intros _ s r s' H. unfold mbind, M_bind, bind in H.
  destruct (Chain_current x s) as [cur' s1| |] eqn:Ec; try discriminate.
  pose proof (current_pure x s cur' s1 Ec) as Hs. unfold unchanged in Hs. subst s1.
  destruct (is_nil cur') eqn:En.
  - destruct cur'; try discriminate.
    rewrite (Root_no_current fuel s x Ec) in H. cbn in H. now inversion H.
  - now inversion H.
Qed.

(** *** Nests of open scopes *)

Lemma same_shape_refl s : same_shape s s.
Proof.
  repeat split. intros l. destruct (cells s !! l); [|exact I]. split; [reflexivity | now left].
Qed.

Lemma nest_parent (r : root) s v locs : nest r s v locs -> is_parent v = true.
Proof. intros H. destruct H as [|[] ? ? ? ? ? ? ? ?]; reflexivity. Qed.

Lemma nest_not_nil (r : root) s v locs : nest r s v locs -> is_nil v = false.
Proof. intros H. destruct H as [|[] ? ? ? ? ? ? ? ?]; reflexivity. Qed.

Lemma nest_same_shape (r : root) s s' v locs :
  same_shape s s' -> nest r s v locs -> nest r s' v locs.
Proof.
  intros (_ & _ & _ & _ & Hc) H. induction H as [|k lb lc d cur locs Hb Hl Hn IH].
  - constructor.
  - pose proof (Hc lb) as Hlb. rewrite Hb in Hlb.
    destruct (cells s' !! lb) as [[ab bb]|] eqn:Eb; [|contradiction].
    cbn in Hlb. destruct Hlb as [Ha Hd]. subst ab.
    assert (exists d', bb = Data d') as [d' ->].
    { destruct Hd as [->|(? & d' & _ & ->)]; eauto. }
    pose proof (Hc lc) as Hlc. rewrite Hl in Hlc.
    destruct (cells s' !! lc) as [[ac bc]|] eqn:Ec; [|contradiction].
    cbn in Hlc. destruct Hlc as [Ha' Hd']. subst ac.
    assert (bc = cur) as ->.
    { destruct Hd' as [->|(d1 & ? & Hcur & _)]; [reflexivity|].
      apply nest_parent in Hn. now rewrite Hcur in Hn. }
    econstructor; eauto.
Qed.

(** A change of cells outside a nest does not affect it. *)
Lemma nest_frame (r : root) s s' v locs :
  (forall l, l ∈ locs -> cells s' !! l = cells s !! l) ->
  nest r s v locs -> nest r s' v locs.
Proof.
  intros Hc H. induction H as [|k lb lc d cur locs Hb Hl Hn IH].
  - constructor.
  - econstructor.
    + rewrite Hc by set_solver. exact Hb.
    + rewrite Hc by set_solver. exact Hl.
    + apply IH. intros l Hin. apply Hc. set_solver.
Qed.

Lemma nest_lookup (r : root) s v locs l :
  nest r s v locs -> l ∈ locs -> is_Some (cells s !! l).
Proof.
  intros H. induction H as [|k lb lc d cur locs Hb Hl Hn IH]; intros Hin.
  - set_solver.
  - apply elem_of_cons in Hin as [->|Hin]; [eauto|].
    apply elem_of_cons in Hin as [->|Hin]; [eauto|]. now apply IH.
Qed.

Lemma nest_even (r : root) s v locs :
  nest r s v locs -> exists n, length locs = (2 * n)%nat.
Proof.
  intros H. induction H as [|k lb lc d cur locs Hb Hl Hn [n IH]].
  - now exists 0%nat.
  - exists (S n). cbn [length]. lia.
Qed.

(** With enough fuel, a nest answers [Enabled] as its top-level parent
    does. *)
Lemma Enabled_nest (r : root) s v locs fuel :
  nest r s v locs -> (length locs < fuel)%nat ->
  Parent_Enabled fuel v s = Ok (root_enabled r) s.
Proof.
  intros H. revert fuel. induction H as [|k lb lc d cur locs Hb Hl Hn IH]; intros fuel Hf.
  - destruct fuel as [|fuel]; [lia|]. reflexivity.
  - cbn [length] in Hf. destruct fuel as [|[|fuel]]; try lia.
    assert (Hcur : Parent_Enabled fuel cur s = Ok (root_enabled r) s) by (apply IH; lia).
    assert (Hchain : Parent_Enabled (S fuel) (ChainPtr (Some lc)) s = Ok (root_enabled r) s).
    { cbn [Parent_Enabled]. unfold Chain_Enabled_with. run.
      rewrite (current_ok s lc _ Hl). cbn [b].
      rewrite (nest_parent _ _ _ _ Hn), (nest_not_nil _ _ _ _ Hn). exact Hcur. }
    destruct k; cbn [builder_ptr Parent_Enabled Nested_Enabled_with]; run;
      rewrite (load_ok s lb _ Hb); cbn [a is_parent]; exact Hchain.
Qed.

Lemma Enabled_chain (r : root) s lc cur locs fuel :
  cells s !! lc = Some {| a := RootPtr (Some r); b := cur |} ->
  nest r s cur locs -> (S (length locs) < fuel)%nat ->
  Parent_Enabled fuel (ChainPtr (Some lc)) s = Ok (root_enabled r) s.
Proof.
  intros Hl Hn Hf. destruct fuel as [|fuel]; [lia|].
  cbn [Parent_Enabled]. unfold Chain_Enabled_with. run.
  rewrite (current_ok s lc _ Hl). cbn [b].
  rewrite (nest_parent _ _ _ _ Hn), (nest_not_nil _ _ _ _ Hn).
  apply (Enabled_nest r s cur locs); [assumption | lia].
Qed.

(** Writing into a nest changes the data of its innermost builder, or
    what is attached to the top-level parent when no scope is open. *)
Lemma write_nest (r : root) s v locs fuel key (val : json) :
  nest r s v locs -> (0 < fuel)%nat ->
  Parent_write fuel v key val s = Ok tt (attach_to v key val s).
Proof.
  intros H Hf. destruct fuel as [|fuel]; [lia|].
  destruct H as [|k lb lc d cur locs Hb Hl Hn].
  - reflexivity.
  - destruct k; cbn [builder_ptr Parent_write attach_to]; run;
      rewrite (load_ok s lb _ Hb), Hb; reflexivity.
Qed.

Lemma write_chain (r : root) s lc cur locs fuel key (val : json) :
  cells s !! lc = Some {| a := RootPtr (Some r); b := cur |} ->
  nest r s cur locs -> (1 < fuel)%nat ->
  Parent_write fuel (ChainPtr (Some lc)) key val s = Ok tt (attach_to cur key val s).
Proof.
  intros Hl Hn Hf. destruct fuel as [|fuel]; [lia|].
  cbn [Parent_write]. unfold Chain_write_with. run.
  rewrite (current_ok s lc _ Hl). cbn [b].
  rewrite (nest_parent _ _ _ _ Hn), (nest_not_nil _ _ _ _ Hn).
  apply (write_nest r s cur locs); [assumption | lia].
Qed.

Lemma attach_same_shape (r : root) s v locs key (val : json) :
  nest r s v locs -> same_shape s (attach_to v key val s).
Proof.
  intros H. destruct H as [|k lb lc d cur locs Hb Hl Hn].
  - cbn [attach_to]. repeat split. cbn [cells]. intros l.
    destruct (cells s !! l); [|exact I]. split; [reflexivity | now left].
  - assert (Hgen : forall d',
      same_shape s (with_cells <[lb := {| a := ChainPtr (Some lc); b := Data d' |}]> s)).
    { intros d'. repeat split. cbn [cells with_cells]. intros l.
      destruct (decide (lb = l)) as [<-|Hne].
      - rewrite lookup_insert_eq, Hb. cbn. split; [reflexivity|]. right. eauto.
      - rewrite lookup_insert_ne by assumption.
        destruct (cells s !! l); [|exact I]. split; [reflexivity | now left]. }
    destruct k; cbn [builder_ptr attach_to]; rewrite Hb; apply Hgen.
Qed.

Lemma attach_frame (r : root) s v locs key (val : json) l :
  nest r s v locs -> l ∉ locs ->
  cells (attach_to v key val s) !! l = cells s !! l.
Proof.
  intros H Hl. destruct H as [|k lb lc d cur locs Hb Hc Hn]; [reflexivity|].
  assert (lb <> l) by set_solver.
  destruct k; cbn [builder_ptr attach_to]; rewrite Hb; cbn [cells with_cells];
    now rewrite lookup_insert_ne.
Qed.

Lemma same_shape_lookup s s' l it :
  same_shape s s' -> cells s !! l = Some it -> is_parent (b it) = true ->
  cells s' !! l = Some it.
Proof.
  intros (_ & _ & _ & _ & Hc) Hl Hp. specialize (Hc l). rewrite Hl in Hc.
  destruct (cells s' !! l) as [[a' b']|]; [|contradiction].
  cbn in Hc. destruct Hc as [-> Hb]. destruct it as [a0 b0]. cbn in *.
  destruct Hb as [->|(d & d' & -> & _)]; [reflexivity | discriminate].
Qed.

Lemma nest_inv (r : root) s k lb l1 rest :
  nest r s (builder_ptr k (Some lb)) (l1 :: rest) ->
  l1 = lb /\ exists lc d cur locs,
    rest = lc :: locs
    /\ cells s !! lb = Some {| a := ChainPtr (Some lc); b := Data d |}
    /\ cells s !! lc = Some {| a := RootPtr (Some r); b := cur |}
    /\ nest r s cur locs.
Proof.
  intros H. inversion H as [|k0 lb0 lc d cur locs Hb Hl Hn Hv Hlocs].
  assert (lb0 = lb) by (destruct k0, k; cbn in Hv; congruence).
  subst. split; [reflexivity|]. now exists lc, d, cur, locs.
Qed.

Lemma nest_value_inv (r : root) s v l1 rest :
  nest r s v (l1 :: rest) -> exists k, v = builder_ptr k (Some l1).
Proof. intros H. inversion H; subst. eauto. Qed.

(** The innermost builder's own [As]: its data goes to the enclosing
    scope, its cell to the pool, and the chain cell above it is
    returned. *)
Lemma Nested_As_nest (r : root) s k lb lc d cur locs fuel key :
  cells s !! lb = Some {| a := ChainPtr (Some lc); b := Data d |} ->
  cells s !! lc = Some {| a := RootPtr (Some r); b := cur |} ->
  nest r s cur locs -> root_enabled r = true ->
  (length locs + 2 < fuel)%nat ->
  Nested_As fuel k (Some lb) key s
  = Ok (ChainPtr (Some lc)) (put_cell lb (attach_to cur key d s)).
Proof.
  intros Hb Hl Hn Hen Hf. unfold Nested_As. run.
  rewrite (Enabled_nest r s (builder_ptr k (Some lb)) (lb :: lc :: locs) fuel)
    by (try (econstructor; eassumption); cbn [length]; lia).
  rewrite Hen. cbn [Nested_p]. run. rewrite (load_ok s lb _ Hb). cbn [a].
  rewrite (load_ok s lb _ Hb). cbn [item_data b].
  rewrite (write_chain r s lc cur locs fuel key d Hl Hn) by lia.
  reflexivity.
Qed.

(** One [Chain.As] on a chain whose current target is the innermost
    builder of a nest: the builder is closed and its cell released, the
    chain cell that held the enclosing scope is released, and the current
    target moves one level up. *)
Lemma Chain_As_nest (r : root) s lx cur lb lc locs fuel key :
  cells s !! lx = Some {| a := RootPtr (Some r); b := cur |} ->
  nest r s cur (lb :: lc :: locs) ->
  NoDup (lx :: lb :: lc :: locs) -> root_enabled r = true ->
  (length locs + 2 < fuel)%nat ->
  exists s' cur',
    Chain_As fuel (Some lx) key s = Ok (Some lx) s'
    /\ cells s' !! lx = Some {| a := RootPtr (Some r); b := cur' |}
    /\ nest r s' cur' locs
    /\ puts s' = puts s ++ [lb; lc]
    /\ gets s' = gets s /\ reports s' = reports s /\ pool s' = lc :: lb :: pool s
    /\ cells s' !! lb = Some zero_item /\ cells s' !! lc = Some zero_item
    /\ (forall l, l ∉ lx :: lb :: lc :: locs -> cells s' !! l = cells s !! l).
Proof.
  intros Hx Hn Hnd Hen Hf.
  destruct (nest_value_inv r s cur lb (lc :: locs) Hn) as [k ->].
  destruct (nest_inv r s k lb lb (lc :: locs) Hn)
    as (_ & lc' & d & cur' & locs' & Heq & Hb & Hl & Hn').
  inversion Heq; subst lc' locs'. clear Heq.
  apply NoDup_cons in Hnd as [Hx_notin Hnd].
  apply NoDup_cons in Hnd as [Hlb_notin Hnd].
  apply NoDup_cons in Hnd as [Hlc_notin Hnd].
  assert (Hxlb : lx <> lb) by set_solver.
  assert (Hxlc : lx <> lc) by set_solver.
  assert (Hlblc : lb <> lc) by set_solver.
  set (s0 := attach_to cur' key d s).
  assert (Hsh : same_shape s s0) by (apply (attach_same_shape r s cur' locs); assumption).
  set (s1 := put_cell lb s0).
  assert (Hpar : is_parent (builder_ptr k (Some lb)) = true) by now destruct k.
  assert (Hnil : is_nil (builder_ptr k (Some lb)) = false) by now destruct k.
  assert (Hpar' : is_parent cur' = true) by (eapply nest_parent; eassumption).
  assert (Hnil' : is_nil cur' = false) by (eapply nest_not_nil; eassumption).
  assert (H1lc : cells s1 !! lc = Some {| a := RootPtr (Some r); b := cur' |}).
  { unfold s1, put_cell. cbn [cells]. rewrite lookup_insert_ne by assumption.
    apply (same_shape_lookup s s0); assumption. }
  assert (H1x : cells s1 !! lx
                = Some {| a := RootPtr (Some r); b := builder_ptr k (Some lb) |}).
  { unfold s1, put_cell. cbn [cells]. rewrite lookup_insert_ne by congruence.
    apply (same_shape_lookup s s0); assumption. }
  set (s2 := with_cells <[lx := {| a := RootPtr (Some r); b := cur' |}]> s1).
  set (s3 := put_cell lc s2).
  assert (H3x : cells s3 !! lx = Some {| a := RootPtr (Some r); b := cur' |}).
  { unfold s3, put_cell, s2, with_cells. cbn [cells].
    rewrite lookup_insert_ne by congruence. apply lookup_insert_eq. }
  exists s3, cur'. split; [|split; [exact H3x|split; [|repeat split]]].
  - unfold Chain_As. run. rewrite (current_ok s lx _ Hx). cbn [b].
    rewrite Hpar, Hnil.
    assert (Hclose : As_close fuel (Some lx) (builder_ptr k (Some lb)) key s = Ok tt s3).
    { unfold As_close. run.
      assert (Hbas : builder_as fuel (builder_ptr k (Some lb)) key s
                     = Ok (ChainPtr (Some lc)) s1).
      { destruct k; cbn [builder_ptr builder_as];
          apply (Nested_As_nest r s _ lb lc d cur' locs); assumption. }
      rewrite Hbas. rewrite (load_ok s1 lc _ H1lc). cbn [a].
      rewrite (load_ok s1 lx _ H1x). cbn [a iface_eq]. run.
      rewrite bool_decide_eq_true_2 by reflexivity.
      rewrite (current_ok s1 lc _ H1lc). cbn [b]. rewrite Hpar'.
      cbn [Chain_setCurrent]. run. rewrite (load_ok s1 lx _ H1x). reflexivity. }
    assert (Hmatch : match builder_ptr k (Some lb) with
                     | ArrayPtr _ => As_close fuel (Some lx) (builder_ptr k (Some lb)) key
                     | ObjectPtr _ => As_close fuel (Some lx) (builder_ptr k (Some lb)) key
                     | _ => Chain_setCurrent (Some lx) Nil
                     end s = Ok tt s3) by (destruct k; exact Hclose).
    rewrite Hmatch. rewrite (current_ok s3 lx _ H3x). cbn [b].
    rewrite Hpar', Hnil'. reflexivity.
  - apply (nest_frame r s0).
    + intros l Hin. unfold s3, put_cell, s2, with_cells, s1, put_cell. cbn [cells].
      rewrite !lookup_insert_ne by set_solver. reflexivity.
    + apply (nest_same_shape r s); assumption.
  - unfold s3, put_cell, s2, with_cells, s1, put_cell. cbn [puts].
    destruct Hsh as (_ & _ & -> & _). now rewrite <- app_assoc.
  - unfold s3, put_cell, s2, with_cells, s1, put_cell. cbn [gets].
    now destruct Hsh as (_ & -> & _).
  - unfold s3, put_cell, s2, with_cells, s1, put_cell. cbn [reports].
    now destruct Hsh as (_ & _ & _ & -> & _).
  - unfold s3, put_cell, s2, with_cells, s1, put_cell. cbn [pool].
    now destruct Hsh as (-> & _).
  - unfold s3, put_cell, s2, with_cells, s1, put_cell. cbn [cells].
    rewrite !lookup_insert_ne by congruence. apply lookup_insert_eq.
  - unfold s3, put_cell. cbn [cells]. apply lookup_insert_eq.
  - intros l Hout. unfold s3, put_cell, s2, with_cells, s1, put_cell. cbn [cells].
    rewrite !lookup_insert_ne by set_solver.
    apply (attach_frame r s cur' locs); [assumption | set_solver].
Qed.

(** [As] once per enclosing scope brings the current target back to the
    top-level parent; the cells of the nest go to the pool in order, each
    cleared. *)
Lemma As_all_nest (r : root) lx fuel keys :
  root_enabled r = true ->
  forall s cur locs,
    cells s !! lx = Some {| a := RootPtr (Some r); b := cur |} ->
    nest r s cur locs -> length locs = (2 * length keys)%nat ->
    NoDup (lx :: locs) -> (length locs < fuel)%nat ->
    exists s',
      As_all fuel (Some lx) keys s = Ok (Some lx) s'
      /\ cells s' !! lx = Some {| a := RootPtr (Some r); b := RootPtr (Some r) |}
      /\ puts s' = puts s ++ locs
      /\ gets s' = gets s /\ reports s' = reports s
      /\ pool s' = rev locs ++ pool s
      /\ (forall l, l ∈ locs -> cells s' !! l = Some zero_item)
      /\ (forall l, l ∉ lx :: locs -> cells s' !! l = cells s !! l).
Proof.
  intros Hen. induction keys as [|key keys IH]; intros s cur locs Hx Hn Hlen Hnd Hf.
  - destruct locs; [|discriminate]. inversion Hn; subst.
    exists s. cbn [As_all]. rewrite app_nil_r.
    split; [reflexivity|]. split; [exact Hx|]. repeat split. intros l Hl. set_solver.
  - destruct locs as [|lb [|lc locs]]; try (cbn in Hlen; lia).
    cbn [length] in Hlen, Hf.
    destruct (Chain_As_nest r s lx cur lb lc locs fuel key Hx Hn Hnd Hen)
      as (s1 & cur1 & Has & Hx1 & Hn1 & Hp1 & Hg1 & Hr1 & Hpool1 & Hzb & Hzc & Hfr1);
      [lia|].
    apply NoDup_cons in Hnd as [Hnotin Hnd].
    apply NoDup_cons in Hnd as [Hlb Hnd]. apply NoDup_cons in Hnd as [Hlc Hnd].
    destruct (IH s1 cur1 locs Hx1 Hn1)
      as (s2 & Hall & Hx2 & Hp2 & Hg2 & Hr2 & Hpool2 & Hz2 & Hfr2).
    + lia.
    + apply NoDup_cons. split; [set_solver | assumption].
    + lia.
    + exists s2. cbn [As_all]. run. rewrite Has. split; [exact Hall|].
      split; [exact Hx2|]. split; [|split; [congruence|split; [congruence|split; [|split]]]].
      * rewrite Hp2, Hp1, <- app_assoc. reflexivity.
      * rewrite Hpool2, Hpool1. cbn [rev]. rewrite <- !app_assoc. reflexivity.
      * rewrite !not_elem_of_cons in Hnotin. rewrite !not_elem_of_cons in Hlb.
        assert (Hb_out : lb ∉ lx :: locs)
          by (rewrite not_elem_of_cons; intuition congruence).
        assert (Hc_out : lc ∉ lx :: locs)
          by (rewrite not_elem_of_cons; intuition congruence).
        intros l Hin. apply elem_of_cons in Hin as [->|Hin].
        { rewrite (Hfr2 lb Hb_out). exact Hzb. }
        apply elem_of_cons in Hin as [->|Hin].
        { rewrite (Hfr2 lc Hc_out). exact Hzc. }
        now apply Hz2.
      * intros l Hout.
        assert (Hout' : l ∉ lx :: locs).
        { rewrite !not_elem_of_cons in Hout. rewrite not_elem_of_cons. tauto. }
        rewrite (Hfr2 l Hout'). apply Hfr1. exact Hout.
Qed.

(** Closing a nest in matching order returns the top-level parent and
    releases every cell of the nest once, cleared. *)
Lemma close_nest (r : root) s k lb lc locs fuel key keys :
  root_enabled r = true ->
  nest r s (builder_ptr k (Some lb)) (lb :: lc :: locs) ->
  NoDup (lb :: lc :: locs) -> length locs = (2 * length keys)%nat ->
  (length locs + 2 < fuel)%nat ->
  exists s',
    close_scopes fuel (k, Some lb) key keys s = Ok (Some r) s'
    /\ puts s' = puts s ++ (lb :: locs ++ [lc])
    /\ gets s' = gets s /\ reports s' = reports s
    /\ pool s' = rev (lb :: locs ++ [lc]) ++ pool s
    /\ (forall l, l ∈ lb :: lc :: locs -> cells s' !! l = Some zero_item).
Proof.
  intros Hen Hn Hnd Hlen Hf.
  destruct (nest_inv r s k lb lb (lc :: locs) Hn)
    as (_ & lc' & d & cur & locs' & Heq & Hb & Hl & Hn').
  inversion Heq; subst lc' locs'. clear Heq.
  apply NoDup_cons in Hnd as [Hlb_notin Hnd].
  pose proof Hnd as Hnd'. apply NoDup_cons in Hnd' as [Hlc_notin _].
  assert (Hlblc : lb <> lc) by set_solver.
  set (s0 := attach_to cur key d s).
  assert (Hsh : same_shape s s0) by (apply (attach_same_shape r s cur locs); assumption).
  set (s1 := put_cell lb s0).
  assert (H1lc : cells s1 !! lc = Some {| a := RootPtr (Some r); b := cur |}).
  { unfold s1, put_cell. cbn [cells]. rewrite lookup_insert_ne by assumption.
    apply (same_shape_lookup s s0); try assumption.
    cbn [b]. eapply nest_parent; eassumption. }
  assert (H1lb : cells s1 !! lb = Some zero_item)
    by (unfold s1, put_cell; cbn [cells]; apply lookup_insert_eq).
  assert (Hn1 : nest r s1 cur locs).
  { apply (nest_frame r s0).
    - intros l Hin. unfold s1, put_cell. cbn [cells].
      rewrite lookup_insert_ne by set_solver. reflexivity.
    - apply (nest_same_shape r s); assumption. }
  destruct (As_all_nest r lc fuel keys Hen s1 cur locs H1lc Hn1 Hlen Hnd)
    as (s2 & Hall & Hx2 & Hp2 & Hg2 & Hr2 & Hpool2 & Hz2 & Hfr2); [lia|].
  destruct (End_owner s2 lc _ (Some r) Hx2 eq_refl)
    as (s3 & Hend & Hp3 & Hpool3 & Hz3 & Hg3 & Hr3 & Hfr3).
  exists s3. split; [|split; [|split; [|split; [|split]]]].
  - unfold close_scopes. run. cbn [fst snd].
    rewrite (Nested_As_nest r s k lb lc d cur locs fuel key Hb Hl Hn' Hen Hf).
    fold s0. fold s1. rewrite Hall. exact Hend.
  - rewrite Hp3, Hp2. unfold s1, put_cell. cbn [puts].
    destruct Hsh as (_ & _ & -> & _). rewrite <- !app_assoc. reflexivity.
  - rewrite Hg3, Hg2. unfold s1, put_cell. cbn [gets]. now destruct Hsh as (_ & -> & _).
  - rewrite Hr3, Hr2. unfold s1, put_cell. cbn [reports].
    now destruct Hsh as (_ & _ & _ & -> & _).
  - rewrite Hpool3, Hpool2. unfold s1, put_cell. cbn [pool].
    destruct Hsh as (-> & _). cbn [rev]. rewrite rev_app_distr. cbn [rev app].
    rewrite <- !app_assoc. reflexivity.
  - intros l Hin. apply elem_of_cons in Hin as [->|Hin].
    { rewrite Hfr3 by congruence. rewrite Hfr2 by set_solver. exact H1lb. }
    apply elem_of_cons in Hin as [->|Hin]; [exact Hz3|].
    rewrite Hfr3 by set_solver. now apply Hz2.
Qed.

(** *** Opening scopes *)

(** A cell from the pool is none of the live ones. *)
Lemma refPoolGet_fresh s (live : list loc) :
  NoDup (live ++ pool s) -> (forall l, l ∈ live -> is_Some (cells s !! l)) ->
  exists l s',
    refPoolGet s = Ok l s'
    /\ (l ∉ live) /\ NoDup ((l :: live) ++ pool s')
    /\ cells s' = <[l := zero_item]> (cells s)
    /\ gets s' = gets s ++ [l] /\ puts s' = puts s /\ reports s' = reports s.
Proof.
  intros Hnd Hlive. unfold refPoolGet. destruct (pool s) as [|l rest] eqn:Ep.
  - eexists _, _. split; [reflexivity|]. cbn.
    assert (Hfresh : fresh (dom (cells s)) ∉ live).
    { intros Hin. apply Hlive in Hin. apply elem_of_dom in Hin.
      exact (is_fresh (dom (cells s)) Hin). }
    split; [exact Hfresh|]. split; [|repeat split].
    rewrite app_nil_r in *. now apply NoDup_cons.
  - eexists _, _. split; [reflexivity|]. cbn.
    apply NoDup_app in Hnd as (Hl & Hdisj & Hp).
    apply NoDup_cons in Hp as [Hnotin Hrest].
    assert (Hfresh : l ∉ live) by (intros Hin; apply (Hdisj l Hin); set_solver).
    split; [exact Hfresh|]. split; [|repeat split].
    apply NoDup_cons. split.
    + rewrite elem_of_app. tauto.
    + apply NoDup_app. split; [assumption|]. split; [|assumption].
      intros y Hy Hy'. apply (Hdisj y Hy). set_solver.
Qed.

(** A new chain cell holding [v], then a builder under it: one more scope
    on top of a nest. *)
Lemma open_one (r : root) s v locs fuel k key :
  root_enabled r = true -> nest r s v locs -> NoDup (locs ++ pool s) ->
  (length locs + 1 < fuel)%nat ->
  exists c lb s',
    (c ← newChain (Some r) v; NestedWithKey fuel k (ChainPtr c) key) s
    = Ok (Some lb) s'
    /\ nest r s' (builder_ptr k (Some lb)) (lb :: c :: locs)
    /\ NoDup ((lb :: c :: locs) ++ pool s')
    /\ gets s' = gets s ++ [c; lb] /\ puts s' = puts s /\ reports s' = reports s.
Proof.
  intros Hen Hn Hnd Hf.
  destruct (refPoolGet_fresh s locs Hnd) as (c & s1 & Hget & Hc & Hnd1 & Hcells1 & Hg1 & Hp1 & Hr1).
  { intros l Hin. eapply nest_lookup; eassumption. }
  set (s2 := with_cells <[c := {| a := RootPtr (Some r); b := v |}]> s1).
  assert (H2c : cells s2 !! c = Some {| a := RootPtr (Some r); b := v |})
    by (unfold s2, with_cells; cbn [cells]; apply lookup_insert_eq).
  assert (Hn2 : nest r s2 v locs).
  { apply (nest_frame r s); [|assumption]. intros l Hin.
    unfold s2, with_cells. cbn [cells]. rewrite Hcells1.
    rewrite !lookup_insert_ne by set_solver. reflexivity. }
  assert (Hnd2 : NoDup ((c :: locs) ++ pool s2)) by exact Hnd1.
  destruct (refPoolGet_fresh s2 (c :: locs) Hnd2)
    as (lb & s3 & Hget3 & Hlb & Hnd3 & Hcells3 & Hg3 & Hp3 & Hr3).
  { intros l Hin. apply elem_of_cons in Hin as [->|Hin]; [eauto|].
    eapply nest_lookup; eassumption. }
  set (s4 := with_cells <[lb := {| a := ChainPtr (Some c); b := Data (new_data k) |}]> s3).
  exists c, lb, s4. split; [|split; [|split; [|repeat split]]].
  - run. unfold newChain. run. rewrite Hget. unfold store, modify. fold s2.
    unfold NestedWithKey. run.
    rewrite (Enabled_chain r s2 c v locs fuel H2c Hn2) by lia.
    rewrite Hen, Hget3. reflexivity.
  - assert (Hne : lb <> c) by set_solver.
    econstructor.
    + unfold s4, with_cells. cbn [cells]. apply lookup_insert_eq.
    + unfold s4, with_cells. cbn [cells]. rewrite lookup_insert_ne by assumption.
      rewrite Hcells3, lookup_insert_ne by assumption. exact H2c.
    + apply (nest_frame r s2); [|assumption]. intros l Hin.
      unfold s4, with_cells. cbn [cells]. rewrite Hcells3.
      rewrite !lookup_insert_ne by set_solver. reflexivity.
  - exact Hnd3.
  - unfold s4, with_cells. cbn [gets]. rewrite Hg3. unfold s2, with_cells. cbn [gets].
    rewrite Hg1, <- app_assoc. reflexivity.
  - unfold s4, with_cells. cbn [puts]. rewrite Hp3. unfold s2, with_cells. cbn [puts].
    exact Hp1.
  - unfold s4, with_cells. cbn [reports]. rewrite Hr3. unfold s2, with_cells.
    cbn [reports]. exact Hr1.
Qed.

Lemma Nested_sub_nest (r : root) s kx lb lc locs fuel k key :
  root_enabled r = true ->
  nest r s (builder_ptr kx (Some lb)) (lb :: lc :: locs) ->
  NoDup ((lb :: lc :: locs) ++ pool s) ->
  (length locs + 3 < fuel)%nat ->
  exists c lb' s',
    Nested_sub fuel kx k (Some lb) key s = Ok (Some lb') s'
    /\ nest r s' (builder_ptr k (Some lb')) (lb' :: c :: lb :: lc :: locs)
    /\ NoDup ((lb' :: c :: lb :: lc :: locs) ++ pool s')
    /\ gets s' = gets s ++ [c; lb'] /\ puts s' = puts s /\ reports s' = reports s.
Proof.
  intros Hen Hn Hnd Hf.
  destruct (nest_inv r s kx lb lb (lc :: locs) Hn)
    as (_ & lc' & d & cur & locs' & Heq & Hb & Hl & Hn').
  inversion Heq; subst lc' locs'. clear Heq.
  destruct (open_one r s (builder_ptr kx (Some lb)) (lb :: lc :: locs) fuel k key
              Hen Hn Hnd) as (c & lb' & s' & Hrun & Hrest); [cbn [length]; lia|].
  exists c, lb', s'. split; [|exact Hrest].
  unfold Nested_sub. run.
  rewrite (Enabled_nest r s (builder_ptr kx (Some lb)) (lb :: lc :: locs) fuel Hn)
    by (cbn [length]; lia).
  rewrite Hen. cbn [Nested_p]. run. rewrite (load_ok s lb _ Hb). cbn [a].
  unfold Chain_newChain. run. rewrite (load_ok s lc _ Hl). cbn [a].
  exact Hrun.
Qed.

Lemma open_under_nest (r : root) fuel kinds :
  root_enabled r = true ->
  forall s kx lb lc locs,
    nest r s (builder_ptr kx (Some lb)) (lb :: lc :: locs) ->
    NoDup ((lb :: lc :: locs) ++ pool s) ->
    (length locs + 2 * length kinds + 3 < fuel)%nat ->
    exists k' lb' lc' locs' s' new,
      open_under fuel kx (Some lb) kinds s = Ok (k', Some lb') s'
      /\ nest r s' (builder_ptr k' (Some lb')) (lb' :: lc' :: locs')
      /\ NoDup ((lb' :: lc' :: locs') ++ pool s')
      /\ lb' :: lc' :: locs' = new ++ lb :: lc :: locs
      /\ length new = (2 * length kinds)%nat
      /\ gets s' = gets s ++ rev new
      /\ puts s' = puts s /\ reports s' = reports s.
Proof.
  intros Hen. induction kinds as [|k kinds IH]; intros s kx lb lc locs Hn Hnd Hf.
  - exists kx, lb, lc, locs, s, []. cbn [open_under length rev].
    rewrite app_nil_r. repeat split; assumption.
  - cbn [length] in Hf.
    destruct (Nested_sub_nest r s kx lb lc locs fuel k "" Hen Hn Hnd)
      as (c & lb1 & s1 & Hsub & Hn1 & Hnd1 & Hg1 & Hp1 & Hr1); [lia|].
    destruct (IH s1 k lb1 c (lb :: lc :: locs) Hn1 Hnd1)
      as (k' & lb' & lc' & locs' & s' & new & Hopen & Hn' & Hnd' & Hnew & Hlen
          & Hg' & Hp' & Hr');
      [cbn [length]; lia|].
    exists k', lb', lc', locs', s', (new ++ [lb1; c]). cbn [open_under]. run.
    rewrite Hsub.
    split; [exact Hopen|]. split; [exact Hn'|]. split; [exact Hnd'|].
    split; [rewrite Hnew, <- app_assoc; reflexivity|].
    split; [rewrite length_app; cbn [length]; lia|].
    split; [|split; congruence].
    rewrite Hg', Hg1, rev_app_distr, <- app_assoc. reflexivity.
Qed.

(** Opening [1 + length kinds] scopes on an enabled top-level parent
    builds a nest of that depth out of cells that were free. *)
Lemma open_scopes_nest (r : root) s fuel k kinds :
  root_enabled r = true -> NoDup (pool s) ->
  (2 * length kinds + 3 < fuel)%nat ->
  exists k' lb lc locs s',
    open_scopes fuel (Some r) k kinds s = Ok (k', Some lb) s'
    /\ nest r s' (builder_ptr k' (Some lb)) (lb :: lc :: locs)
    /\ NoDup (lb :: lc :: locs)
    /\ length locs = (2 * length kinds)%nat
    /\ gets s' = gets s ++ rev (lb :: lc :: locs)
    /\ puts s' = puts s /\ reports s' = reports s.
Proof.
  intros Hen Hnd Hf.
  destruct (open_one r s (RootPtr (Some r)) [] fuel k "" Hen (nest_root r s) Hnd)
    as (c0 & b1 & s1 & Hrun & Hn1 & Hnd1 & Hg1 & Hp1 & Hr1); [cbn [length]; lia|].
  destruct (open_under_nest r fuel kinds Hen s1 k b1 c0 [] Hn1 Hnd1)
    as (k' & lb & lc & locs & s' & new & Hopen & Hn' & Hnd' & Hnew & Hlen
        & Hg' & Hp' & Hr'); [cbn [length]; lia|].
  exists k', lb, lc, locs, s'.
  split; [|split; [exact Hn'|split; [|split; [|split; [|split; congruence]]]]].
  - unfold open_scopes, Top_nested. cbn [root_Enabled]. rewrite Hen.
    unfold newChainParent. run.
    unfold mbind, M_bind, bind in Hrun.
    destruct (newChain (Some r) (RootPtr (Some r)) s) as [c s0| |] eqn:Enew;
      try discriminate.
    rewrite Hrun. exact Hopen.
  - apply NoDup_app in Hnd' as (H & _). exact H.
  - apply (f_equal length) in Hnew. rewrite length_app in Hnew.
    cbn [length] in Hnew. lia.
  - rewrite Hnew, rev_app_distr, Hg', Hg1. cbn [rev app]. now rewrite <- app_assoc.
Qed.

Lemma release_order_perm (acquired : list loc) : release_order acquired ≡ₚ acquired.
Proof.
  unfold release_order.
  transitivity (rev acquired); [|symmetry; apply Permutation_rev].
  destruct (rev acquired) as [|top [|c rest]]; try reflexivity.
  apply perm_skip. symmetry. apply Permutation_cons_append.
Qed.

(** Claim C5. On an enabled top-level parent, opening [1 + length kinds]
    nested array or object scopes and closing them in matching order (the
    innermost builder's own [As], then [Chain.As] once per enclosing
    scope, then [End]) returns that parent. The cells acquired on the way
    are all distinct and each goes back to the pool exactly once, cleared,
    in the order [release_order] gives; nothing is reported. Each
    [Chain.As] releases the builder it closes and the chain cell that held
    the enclosing scope, and moves the current target one level up. [End]
    on a non-nil chain returns the owner and releases the cell whatever
    the current slot holds, and on a nil chain it returns the zero value
    and changes nothing. *)
Theorem C5_chain_round_trip (r : root) k (kinds : list kind) key (keys : list string)
    s fuel :
  root_enabled r = true -> length keys = length kinds -> NoDup (pool s) ->
  (2 * length kinds + 3 < fuel)%nat ->
  (exists s' acquired free,
     round_trip fuel (Some r) k kinds key keys s = Ok (Some r) s'
     /\ gets s' = gets s ++ acquired
     /\ length acquired = (2 * (1 + length kinds))%nat
     /\ NoDup acquired
     /\ puts s' = puts s ++ release_order acquired
     /\ pool s' = rev (release_order acquired) ++ free
     /\ (forall l, l ∈ acquired -> cells s' !! l = Some zero_item)
     /\ reports s' = reports s)
  /\ (forall lx cur lb lc locs key',
        cells s !! lx = Some {| a := RootPtr (Some r); b := cur |} ->
        nest r s cur (lb :: lc :: locs) -> NoDup (lx :: lb :: lc :: locs) ->
        (length locs + 2 < fuel)%nat ->
        exists s' cur',
          Chain_As fuel (Some lx) key' s = Ok (Some lx) s'
          /\ cells s' !! lx = Some {| a := RootPtr (Some r); b := cur' |}
          /\ nest r s' cur' locs
          /\ puts s' = puts s ++ [lb; lc])
  /\ (forall lx it p,
        cells s !! lx = Some it -> a it = RootPtr p ->
        exists s', Chain_End (Some lx) s = Ok p s' /\ puts s' = puts s ++ [lx])
  /\ Chain_End None s = Ok None s.
Proof.
  intros Hen Hlen Hnd Hf. split; [|split; [|split]].
  - destruct (open_scopes_nest r s fuel k kinds Hen Hnd Hf)
      as (k' & lb & lc & locs & s1 & Hopen & Hn1 & Hnd1 & Hlocs & Hg1 & Hp1 & Hr1).
    destruct (close_nest r s1 k' lb lc locs fuel key keys Hen Hn1 Hnd1)
      as (s2 & Hclose & Hp2 & Hg2 & Hr2 & Hpool2 & Hz2); [lia | lia |].
    exists s2, (rev (lb :: lc :: locs)), (pool s1).
    split; [|split; [|split; [|split; [|split; [|split; [|split]]]]]].
    + unfold round_trip. run. rewrite Hopen. exact Hclose.
    + congruence.
    + rewrite length_rev. cbn [length]. lia.
    + apply NoDup_ListNoDup, List.NoDup_rev, NoDup_ListNoDup. exact Hnd1.
    + unfold release_order. rewrite rev_involutive. congruence.
    + unfold release_order. rewrite rev_involutive. exact Hpool2.
    + intros l Hin. apply Hz2. apply list_elem_of_In, in_rev, list_elem_of_In.
      exact Hin.
    + congruence.
  - intros lx cur lb lc locs key' Hx Hn Hnd' Hf'.
    destruct (Chain_As_nest r s lx cur lb lc locs fuel key' Hx Hn Hnd' Hen Hf')
      as (s' & cur' & Has & Hx' & Hn' & Hp' & _).
    now exists s', cur'.
  - intros lx it p Hx Ha.
    destruct (End_owner s lx it p Hx Ha) as (s' & Hend & Hp & _).
    now exists s'.
  - reflexivity.
Qed.

(** [Builder.ArrayFunc] and its siblings with a nil function are the
    round trip of depth one: the parent comes back, the two cells are
    acquired and released. *)
Lemma Top_Func_nil_fn (r : root) k key s fuel :
  root_enabled r = true -> NoDup (pool s) -> (3 < fuel)%nat ->
  exists s' c b,
    Top_Func fuel k (Some r) key None s = Ok (Some r) s'
    /\ gets s' = gets s ++ [c; b] /\ puts s' = puts s ++ [b; c]
    /\ reports s' = reports s.
Proof.
  intros Hen Hnd Hf.
  destruct (open_one r s (RootPtr (Some r)) [] fuel k key Hen (nest_root r s) Hnd)
    as (c & lb & s1 & Hrun & Hn1 & Hnd1 & Hg1 & Hp1 & Hr1); [cbn [length]; lia|].
  apply NoDup_app in Hnd1 as (Hnd1 & _).
  destruct (close_nest r s1 k lb c [] fuel key [] Hen Hn1 Hnd1 eq_refl)
    as (s2 & Hclose & Hp2 & Hg2 & Hr2 & _); [cbn [length]; lia|].
  exists s2, c, lb. split; [|split; [congruence|split; [|congruence]]].
  - unfold Top_Func. cbn [root_Enabled]. rewrite Hen. unfold newChainParent.
    unfold close_scopes in Hclose. cbn [fst snd As_all] in Hclose.
    unfold mbind, M_bind, bind, mret, M_ret, ret in *.
    destruct (newChain (Some r) (RootPtr (Some r)) s) as [c0 s0| |]; try discriminate.
    rewrite Hrun.
    destruct (Nested_As fuel k (Some lb) key s1) as [[|?|c1|?|?|?] s3| |];
      try discriminate.
    destruct (Chain_End c1 s3) as [p s4| |]; try discriminate.
    now inversion Hclose.
  - rewrite Hp2, Hp1. reflexivity.
Qed.

End ChainFacts.

Lemma C5_round_trip_witness :
  exists s',
    Chain.round_trip 10 (Some Chain.sampleRoot) Chain.KArray [Chain.KObject]
      "k1" ["k0"%string] Chain.empty_state
    = Chain.Ok (Some Chain.sampleRoot) s'
    /\ Chain.reports s' = [].
Proof.
  destruct (C5_chain_round_trip Chain.sampleRoot Chain.KArray [Chain.KObject]
              "k1" ["k0"%string] Chain.empty_state 10 eq_refl eq_refl
              (NoDup_nil_2 (A := Chain.loc)))
    as [(s' & acquired & free & Hrun & _ & _ & _ & _ & _ & _ & Hrep) _].
  - cbn. lia.
  - exists s'. split; [exact Hrun | exact Hrep].
Defined.

(** The same round trip, evaluated: an array holding an object under the
    key [k0] of the parent; four cells acquired, the same four released. *)
Example round_trip_evaluated :
  Chain.summary
    (Chain.round_trip 10 (Some Chain.sampleRoot) Chain.KArray [Chain.KObject]
       "k1" ["k0"%string] Chain.empty_state)
  = Some (Some Chain.sampleRoot, [0; 1; 2; 3]%nat, [3; 1; 0; 2]%nat, [],
          [(Chain.sampleRoot, "k0"%string,
            ArraySupport.JArray [ArraySupport.JObject []])]).
Proof. vm_compute. reflexivity. Qed.

(** [Builder.ArrayFunc] with a nil function, evaluated. *)
Example Builder_ArrayFunc_evaluated :
  Chain.summary (Chain.Builder_ArrayFunc 10 (Some Chain.sampleRoot) "k" None Chain.empty_state)
  = Some (Some Chain.sampleRoot, [0; 1]%nat, [1; 0]%nat, [],
          [(Chain.sampleRoot, "k"%string, ArraySupport.JArray [])]).
Proof. vm_compute. reflexivity. Qed.

(** Claim C6, at the input where the code departs from it: [As] on a
    chain whose current target is its top-level parent (neither an array
    nor an object). The current slot is cleared and the chain is disabled
    from then on, but no report reaches the parent's logger, although the
    same misuse seen by [CurArray] does reach it. *)
Theorem C6_As_misuse_not_reported :
  Chain.Chain_As 5 (Some 0%nat) "k"
    (Chain.chain_state (Chain.RootPtr (Some Chain.sampleRoot)))
  = Chain.Ok (Some 0%nat) (Chain.chain_state Chain.Nil)
  /\ Chain.reports (Chain.chain_state Chain.Nil) = []
  /\ Chain.Chain_Enabled 5 (Some 0%nat) (Chain.chain_state Chain.Nil)
     = Chain.Ok false (Chain.chain_state Chain.Nil)
  /\ Chain.Chain_Root 5 (Some 0%nat)
       (Chain.chain_state (Chain.RootPtr (Some Chain.sampleRoot)))
     = Chain.Ok (Some 9%nat) (Chain.chain_state (Chain.RootPtr (Some Chain.sampleRoot)))
  /\ (exists s', Chain.Chain_CurArray 5 (Some 0%nat)
                   (Chain.chain_state (Chain.RootPtr (Some Chain.sampleRoot)))
                 = Chain.Ok None s'
                 /\ Chain.reports s'
                    = [(9%nat, "logiface: cannot access a non-array as an array"%string)]).
Proof.
  split; [reflexivity|]. split; [reflexivity|]. split; [reflexivity|].
  split; [reflexivity|]. eexists. split; reflexivity.
Qed.

Lemma C10_chain_witness :
  Chain.Chain_Enabled 0 (Some 0%nat) (Chain.chain_state Chain.Nil)
  = Chain.Ok false (Chain.chain_state Chain.Nil)
  /\ Chain.Chain_As 0 (Some 0%nat) "k" (Chain.chain_state Chain.Nil)
     = Chain.Ok (Some 0%nat) (Chain.chain_state Chain.Nil).
Proof.
  pose proof (C10_chain_without_current 0 (Chain.chain_state Chain.Nil) 0%nat
                {| Chain.a := Chain.RootPtr (Some Chain.sampleRoot); Chain.b := Chain.Nil |}
                (Some Chain.sampleRoot) "k" eq_refl eq_refl eq_refl)
    as (_ & He & _ & _ & _ & Ha & _).
  split; assumption.
Defined.

(** Claim C10 as stated fails for [End]: on a chain whose current slot is
    empty, [End] returns the owning parent, not the zero value. *)
Lemma C10_End_returns_owner :
  exists s', Chain.Chain_End (Some 0%nat) (Chain.chain_state Chain.Nil)
             = Chain.Ok (Some Chain.sampleRoot) s'
             /\ Some Chain.sampleRoot <> None.
Proof. eexists. split; [reflexivity | discriminate]. Qed.

(** ** ArgFields and MapFields *)
Section FieldUtilFacts.
Import Core FieldUtil.
Context {E U R : Type}.
Variable Enabled : R -> M E U bool.
Variable Field : R -> string -> any -> M E U R.

Ltac run := unfold mbind, M_bind, bind, mret, M_ret, ret.

Section ArgFieldsFacts.
Context {T : Type}.
Variable box : T -> any.
Variable fmt_Sprint : T -> string.

Implicit Types (f : func E U T (string * bool)) (kvs : list (T * T))
  (last : option T) (l done : list T) (r : R) (w : World E U).

Lemma interleave_cons k v kvs last :
  interleave ((k, v) :: kvs) last = k :: v :: interleave kvs last.
Proof. reflexivity. Qed.

(** Every variadic list is a list of pairs, followed by one more key
    when its length is odd. *)
Lemma interleave_all l : exists kvs last, l = interleave kvs last.
Proof.
  assert (Hgen : forall n l, (length l <= n)%nat -> exists kvs last, l = interleave kvs last).
  { intros n. induction n as [|n IH]; intros l' Hlen.
    - destruct l'; [|cbn in Hlen; lia]. now exists [], None.
    - destruct l' as [|k [|v rest]].
      + now exists [], None.
      + now exists [], (Some k).
      + destruct (IH rest) as (kvs & last & ->); [cbn in Hlen; lia|].
        now exists ((k, v) :: kvs), last. }
  now apply (Hgen (length l)).
Qed.

(** The loop, entered at the start of the pairs that are left, does what
    the pairs ask for, and never indexes out of range. *)
Lemma ArgFields_loop_pairs f kvs :
  forall done last r w fuel,
    (length kvs + length (option_list last) < fuel)%nat ->
    ArgFields_loop Field box fmt_Sprint fuel f (done ++ interleave kvs last)
      (length done) r w
    = (r' ← ArgFields_pairs Field box fmt_Sprint f r kvs;
       ArgFields_last Field fmt_Sprint f r' last) w.
Proof.
  induction kvs as [|[k v] kvs IH]; intros done last r w fuel Hf.
  - unfold interleave, ArgFields_last. cbn [flat_map app ArgFields_pairs]. run.
    destruct fuel as [|fuel]; [lia|]. cbn [ArgFields_loop].
    destruct last as [k|]; unfold option_list; cbn [option_rect].
    + rewrite length_app. cbn [length].
      destruct (Nat.ltb_spec (length done) (length done + 1)) as [_|]; [|lia].
      rewrite lookup_app_r by lia. rewrite Nat.sub_diag. cbn [lookup list_lookup].
      unfold ArgFields_pair. run.
      destruct (argFieldKeyConverter fmt_Sprint f k w) as [[key ok] w1|msg w1];
        [|reflexivity].
      destruct ok; cbn [negb].
      * now rewrite Nat.eqb_refl.
      * unfold option_list in Hf. cbn [length option_rect] in Hf.
        destruct fuel as [|fuel]; [lia|].
        cbn [ArgFields_loop]. rewrite length_app. cbn [length].
        destruct (Nat.ltb_spec (length done + 2) (length done + 1)); [lia | reflexivity].
    + rewrite app_nil_r, Nat.ltb_irrefl. reflexivity.
  - rewrite interleave_cons. cbn [length] in Hf.
    destruct fuel as [|fuel]; [lia|]. cbn [ArgFields_loop ArgFields_pairs].
    rewrite length_app. cbn [length].
    destruct (Nat.ltb_spec (length done) (length done + S (S (length (interleave kvs last)))))
      as [_|]; [|lia].
    rewrite lookup_app_r by lia. rewrite Nat.sub_diag. cbn [lookup list_lookup].
    assert (Hnext : (done ++ k :: v :: interleave kvs last) !! (length done + 1)%nat = Some v).
    { rewrite lookup_app_r by lia.
      replace (length done + 1 - length done)%nat with 1%nat by lia. reflexivity. }
    assert (Hrest : ArgFields_loop Field box fmt_Sprint fuel f
                      (done ++ k :: v :: interleave kvs last) (length done + 2)
                    = ArgFields_loop Field box fmt_Sprint fuel f
                        ((done ++ [k; v]) ++ interleave kvs last) (length (done ++ [k; v]))).
    { rewrite length_app, <- app_assoc. reflexivity. }
    unfold ArgFields_pair. run.
    destruct (argFieldKeyConverter fmt_Sprint f k w) as [[key ok] w1|msg w1];
      [|reflexivity].
    destruct ok; cbn [negb].
    + destruct (Nat.eqb_spec (length done + 1)
                  (length done + S (S (length (interleave kvs last))))); [lia|].
      rewrite Hnext.
      destruct (Field r key (box v) w1) as [r1 w2|msg w2]; [|reflexivity].
      rewrite Hrest. rewrite IH by lia. reflexivity.
    + rewrite Hrest. rewrite IH by lia. reflexivity.
Qed.

(** Property X1. [ArgFields] treats its variadic list as keys with their
    values: on an enabled receiver it converts each key in order and calls
    [Field] with the value that follows it; a key the converter rejects
    is skipped together with its value; a last key without a value gets
    the value nil. Every list has this shape, the loop never indexes out
    of range, and on a receiver that is not enabled neither the converter
    nor [Field] is called. *)
Theorem ArgFields_by_pairs r f w w' (enabled : bool) :
  Enabled r w = Ok enabled w' ->
  (forall kvs last,
     ArgFields Enabled Field box fmt_Sprint r f (interleave kvs last) w
     = if enabled
       then (r' ← ArgFields_pairs Field box fmt_Sprint f r kvs;
             ArgFields_last Field fmt_Sprint f r' last) w'
       else Ok r w')
  /\ (forall l, exists kvs last, l = interleave kvs last)
  /\ (forall l, enabled = false ->
        ArgFields Enabled Field box fmt_Sprint r f l w = Ok r w').
Proof.
  intros Hen. split; [|split].
  - intros kvs last. unfold ArgFields. run. rewrite Hen.
    destruct enabled; [|reflexivity]. cbn [andb].
    destruct (Nat.eqb_spec (length (interleave kvs last)) 0) as [Hz|Hnz]; cbn [negb].
    + destruct kvs as [|[k v] kvs]; [|discriminate].
      destruct last; [discriminate | reflexivity].
    + apply (ArgFields_loop_pairs f kvs [] last r w').
      assert (Hlen : forall kvs', length (interleave kvs' last)
                = (2 * length kvs' + length (option_list last))%nat).
      { induction kvs' as [|[k v] kvs' IH]; [reflexivity|].
        rewrite interleave_cons. cbn [length]. rewrite IH. lia. }
      rewrite Hlen. lia.
  - apply interleave_all.
  - intros l ->. unfold ArgFields. run. now rewrite Hen.
Qed.

End ArgFieldsFacts.

Section MapFieldsFacts.
Context {V : Type}.
Variable box : V -> any.

Implicit Types (kvs : list (string * V)) (r : R) (w : World E U).

Lemma bind_assoc_at {A B C : Type} (m : M E U A) (f : A -> M E U B) (g : B -> M E U C) w :
  ((m ≫= f) ≫= g) w = (m ≫= (fun x => f x ≫= g)) w.
Proof. run. now destruct (m w). Qed.

(** Visiting the same entries in another order gives the same result
    when calls of [Field] under different keys can be swapped. *)
Lemma Field_each_perm kvs1 kvs2 :
  Field_commutes Field -> kvs1 ≡ₚ kvs2 -> NoDup kvs1.*1 ->
  forall r w, Field_each Field box r kvs1 w = Field_each Field box r kvs2 w.
Proof.
  intros Hc Hp. induction Hp as [|[k v] l1 l2 Hp IH|[k1 v1] [k2 v2] l|l1 l2 l3 Hp1 IH1 Hp2 IH2];
    intros Hnd r w.
  - reflexivity.
  - cbn [Field_each]. run. cbn [fmap list_fmap fst] in Hnd.
    apply NoDup_cons in Hnd as [_ Hnd].
    destruct (Field r k (box v) w) as [r1 w1|msg w1]; [|reflexivity]. now apply IH.
  - cbn [Field_each]. cbn [fmap list_fmap fst] in Hnd.
    apply NoDup_cons in Hnd as [Hne _].
    assert (Hk : k2 <> k1) by (intros ->; apply Hne; left).
    rewrite <- !bind_assoc_at. run.
    pose proof (Hc r k2 (box v2) k1 (box v1) w Hk) as Hsw.
    unfold mbind, M_bind, bind in Hsw. now rewrite Hsw.
  - rewrite IH1 by assumption. apply IH2.
    apply (NoDup_Permutation_proper l1.*1); [now apply fmap_Permutation | assumption].
Qed.

(** Property X2. [MapFields] calls [Field] once for every entry of the
    map, in the order the run time happens to visit them. Whenever calls
    of [Field] under different keys can be swapped, the result does not
    depend on that order; and on a receiver that is not enabled [Field]
    is not called at all. *)
Theorem MapFields_order_independent
    (range1 range2 : gmap string V -> list (string * V)) r (m : gmap string V) w :
  Field_commutes Field ->
  range1 m ≡ₚ map_to_list m -> range2 m ≡ₚ map_to_list m ->
  MapFields Enabled Field box range1 r m w = MapFields Enabled Field box range2 r m w
  /\ (forall w', Enabled r w = Ok false w' ->
        MapFields Enabled Field box range1 r m w = Ok r w').
Proof.
  intros Hc H1 H2. split.
  - unfold MapFields. run.
    destruct (Enabled r w) as [[|] w1|msg w1]; try reflexivity.
    apply Field_each_perm; [assumption | now rewrite H1, H2 |].
    apply (NoDup_Permutation_proper (map_to_list m).*1).
    + now apply fmap_Permutation.
    + apply NoDup_fst_map_to_list.
  - intros w' Hen. unfold MapFields. run. now rewrite Hen.
Qed.

End MapFieldsFacts.

End FieldUtilFacts.

Lemma ArgFields_witness :
  FieldUtil.ArgFields FieldUtil.traceEnabled FieldUtil.traceField Core.VString id
    true FieldUtil.nonempty_key ["a"; "1"; ""; "2"; "b"]%string (FieldUtil.emptyWorld [])
  = Core.Ok true
      (FieldUtil.emptyWorld [("a"%string, Core.VString "1"); ("b"%string, Core.VNil)]).
Proof.
  exact (proj1 (ArgFields_by_pairs FieldUtil.traceEnabled FieldUtil.traceField
                  Core.VString id true FieldUtil.nonempty_key
                  (FieldUtil.emptyWorld []) (FieldUtil.emptyWorld []) true eq_refl)
           [("a", "1"); ("", "2")]%string (Some "b"%string)).
Defined.

Lemma sampleField_commutes : FieldUtil.Field_commutes FieldUtil.sampleField.
Proof.
  intros r k1 v1 k2 v2 w Hne. unfold FieldUtil.sampleField, Core.modify.
  unfold mbind, Core.M_bind, Core.bind, mret, Core.M_ret, Core.ret. cbn.
  rewrite insert_insert_ne by congruence. reflexivity.
Qed.

Lemma MapFields_witness :
  FieldUtil.MapFields FieldUtil.sampleEnabled FieldUtil.sampleField Core.VString
    map_to_list true {[ "a"%string := "1"%string; "b"%string := "2"%string ]}
    (FieldUtil.emptyWorld ∅)
  = FieldUtil.MapFields FieldUtil.sampleEnabled FieldUtil.sampleField Core.VString
      (fun m => rev (map_to_list m)) true
      {[ "a"%string := "1"%string; "b"%string := "2"%string ]}
      (FieldUtil.emptyWorld ∅).
Proof.
  refine (proj1 (MapFields_order_independent FieldUtil.sampleEnabled FieldUtil.sampleField
                   Core.VString map_to_list (fun m => rev (map_to_list m)) true _ _
                   sampleField_commutes _ _)).
  - reflexivity.
  - symmetry. apply Permutation_rev.
Defined.

(** ** Builder and Context: how the field methods and the log calls compose *)
Section BuilderFacts.
Import Core.
Context {E : Type} `{Event E} {U : Type}.
Variable std : StdLib.

Implicit Types (w : World E U) (l : loc) (b : Builder E) (sh : loggerShared E).

Ltac run := unfold mbind, M_bind, bind, mret, M_ret, ret.

(** Property X3. On any event, [Field] agrees with the typed setter of the
    dynamic type of its value: [Str] for a string, [Int] for an int,
    [Float32] for a float32; a byte slice, a time and a duration are set
    as strings through [Str], in base64, as formatted by [formatTimestamp]
    and as formatted by [formatDuration]. A value of any other dynamic
    type, an error and nil included, is set as [Interface] sets it: an
    error given to [Field] does not go through [AddError]. *)
Theorem Field_agrees_with_typed_setters (event : E) (key : string) :
  (forall v, methods_Field std event key (VString v) = methods_Str event key v)
  /\ (forall v, methods_Field std event key (VInt v) = methods_Int event key v)
  /\ (forall v, methods_Field std event key (VFloat32 v) = methods_Float32 event key v)
  /\ (forall v, methods_Field std event key (VBytes v)
                = methods_Str event key (base64_StdEncoding_EncodeToString std v))
  /\ (forall v, methods_Field std event key (VTime v)
                = methods_Str event key (Fmt.formatTimestamp (layoutSeconds std) v))
  /\ (forall v, methods_Field std event key (VDuration v)
                = methods_Str event key (Fmt.formatDuration v))
  /\ (forall e, methods_Field std event key (VError e)
                = methods_Interface event key (VError e))
  /\ methods_Field std event key VNil = methods_Interface event key VNil
  /\ (forall d, methods_Field std event key (VOther d)
                = methods_Interface event key (VOther d)).
Proof.
  unfold methods_Field, methods_Str, methods_Int, methods_Float32, methods_Interface,
    methods_bytes, methods_timestamp, methods_duration.
  destruct (Level.Enabled (Level event)); cbn [negb]; repeat split.
Qed.

Lemma Builder_apply_eq w l b (m : ModifyFunc E) :
  builders w !! l = Some b ->
  Builder_apply (Some l) m w
  = match shared b with
    | Some _ => (setEvent l (fst (m (BEvent b)));; mret (Some l)) w
    | None => Ok (Some l) w
    end.
Proof.
  intros Hl. unfold Builder_apply. run. unfold loadBuilder. rewrite Hl.
  destruct (shared b); [|reflexivity]. now destruct (m (BEvent b)).
Qed.

(** What a field method of the Builder may change: the event of its
    receiver, and nothing else. *)
Lemma Builder_apply_frame w l b (m : ModifyFunc E) :
  builders w !! l = Some b ->
  exists w' event',
    Builder_apply (Some l) m w = Ok (Some l) w'
    /\ effects w' = effects w /\ contexts w' = contexts w /\ user w' = user w
    /\ (forall l', l' <> l -> builders w' !! l' = builders w !! l')
    /\ builders w' !! l = Some {| BEvent := event'; shared := shared b |}
    /\ (shared b = None -> w' = w).
Proof.
  intros Hl. rewrite (Builder_apply_eq w l b m Hl).
  destruct (shared b) as [sh|] eqn:Hs.
  - eexists _, (fst (m (BEvent b))). split; [reflexivity|]. cbn.
    repeat split.
    + intros l' Hne. now rewrite lookup_alter_ne.
    + rewrite lookup_alter_eq, Hl. cbn. now rewrite Hs.
    + discriminate.
  - exists w, (BEvent b). repeat split. rewrite Hl. destruct b as [e s]. cbn in *.
    now subst s.
Qed.

(** Property X4. Each field method of the Builder ([Field], [Interface],
    [Err], [Str], [Int], [Float32]) on a live Builder returns its
    receiver and changes at most the event of that Builder: it makes no
    call on the writer or the pool, leaves the contexts, the caller's
    state and every other Builder as they were, and keeps the shared
    state of its receiver. On a Builder without shared state it changes
    nothing at all. *)
Theorem Builder_setters_frame w l b (key sval : string) (val : any) (ival fval : Z)
    (err : option error) (run : M E U (option loc)) :
  builders w !! l = Some b ->
  run ∈ [Builder_Field std (Some l) key val; Builder_Interface (Some l) key val;
         Builder_Err (Some l) err; Builder_Str (Some l) key sval;
         Builder_Int (Some l) key ival; Builder_Float32 (Some l) key fval] ->
  exists w' event',
    run w = Ok (Some l) w'
    /\ effects w' = effects w /\ contexts w' = contexts w /\ user w' = user w
    /\ (forall l', l' <> l -> builders w' !! l' = builders w !! l')
    /\ builders w' !! l = Some {| BEvent := event'; shared := shared b |}
    /\ (shared b = None -> w' = w).
Proof.
  intros Hl Hin. rewrite !elem_of_cons, elem_of_nil in Hin.
  destruct Hin as [->|[->|[->|[->|[->|[->|[]]]]]]]; now apply Builder_apply_frame.
Qed.

Lemma alter_event_twice (m : gmap loc (Builder E)) l (e1 e2 : E) :
  alter (fun b => {| BEvent := e2; shared := shared b |}) l
    (alter (fun b => {| BEvent := e1; shared := shared b |}) l m)
  = alter (fun b => {| BEvent := e2; shared := shared b |}) l m.
Proof.
  apply map_eq. intros i. destruct (decide (l = i)) as [->|Hne].
  - rewrite !lookup_alter_eq. now destruct (m !! i).
  - now rewrite !lookup_alter_ne.
Qed.

(** Property X5. A field method followed by [Log] on a Builder with its
    shared state: when the event is enabled after the field method, the
    writer receives the event that the setter produced, with the message
    added, and then the Builder goes back to its pool; when it is not,
    the Builder only goes back to its pool, with the event as the setter
    left it. *)
Theorem Field_then_Log w l b sh (m : ModifyFunc E) (msg : string) :
  builders w !! l = Some b -> shared b = Some sh ->
  (Builder_apply (Some l) m ≫= fun x => Builder_Log x msg) w
  = if Level.Enabled (Level (fst (m (BEvent b))))
    then Ok tt (logged sh l (with_message (fst (m (BEvent b))) msg) w)
    else Ok tt (released sh l (event_set l (fst (m (BEvent b))) w)).
Proof.
  intros Hl Hs. run. rewrite (Builder_apply_eq w l b m Hl), Hs.
  set (e1 := fst (m (BEvent b))). unfold setEvent, modify. run.
  fold (event_set l e1 w). set (w1 := event_set l e1 w).
  assert (Hl1 : builders w1 !! l = Some {| BEvent := e1; shared := Some sh |}).
  { unfold w1, event_set. cbn [builders]. rewrite lookup_alter_eq, Hl. cbn.
    now rewrite Hs. }
  unfold Builder_Log.
  destruct (Level.Enabled (Level e1)) eqn:Hlev.
  - assert (Hrun : defer (Builder_release l)
                     (b' ← loadBuilder l;
                      if Level.Enabled (Level (BEvent b')) then Builder_log l msg else mret tt) w1
                   = defer (Builder_release l) (Builder_log l msg) w1).
    { unfold defer. run. unfold loadBuilder at 1. rewrite Hl1. cbn [BEvent].
      now rewrite Hlev. }
    rewrite Hrun. rewrite (log_eq w1 l _ sh msg Hl1 eq_refl). cbn [BEvent].
    unfold logged, w1, event_set. cbn [builders contexts effects user].
    now rewrite alter_event_twice.
  - unfold defer. run. unfold loadBuilder at 1. rewrite Hl1. cbn [BEvent].
    rewrite Hlev. now rewrite (release_eq w1 l _ sh Hl1 eq_refl).
Qed.

(** Property X6. [LogFunc] on an enabled event whose message function
    panics, or is nil: the panic goes on to the caller, nothing is
    written, and the deferred release still puts the Builder back into
    its pool. *)
Theorem LogFunc_releases_on_panic w l b sh (f : unit -> M E U string)
    (msg : string) w1 b1 sh1 :
  builders w !! l = Some b -> shared b = Some sh ->
  Level.Enabled (Level (BEvent b)) = true ->
  Builder_LogFunc (Some l) None w = Panic nil_deref (released sh l w)
  /\ (f tt w = Panic msg w1 -> builders w1 !! l = Some b1 -> shared b1 = Some sh1 ->
      Builder_LogFunc (Some l) (Some f) w = Panic msg (released sh1 l w1)).
Proof.
  intros Hl Hs Hlev. split.
  - unfold Builder_LogFunc, defer, call, panic. run. unfold loadBuilder at 1.
    rewrite Hl, Hlev. now rewrite (release_eq w l b sh Hl Hs).
  - intros Hf Hl1 Hs1. unfold Builder_LogFunc, defer, call. run.
    unfold loadBuilder at 1. rewrite Hl, Hlev, Hf.
    now rewrite (release_eq w1 l b1 sh1 Hl1 Hs1).
Qed.

(** Property X7. The field methods of the Context do not touch any event
    when they are called: on a Context with a logger each call adds one
    modifier at the end of the list, so that a chain of calls leaves the
    modifiers in the order of the calls, after those already there; on a
    Context without a logger the call changes nothing. *)
Theorem Context_setters_append w l (c : Context E) (m1 m2 : ModifyFunc E)
    (key1 key2 sval : string) (ival : Z) :
  contexts w !! l = Some c ->
  (logger c <> None ->
     (Context_apply (Some l) m1 ≫= fun x => Context_apply x m2) w
     = Ok (Some l)
         {| builders := builders w;
            contexts := <[l := {| Modifiers := Modifiers c ++ [m1; m2];
                                  logger := logger c |}]> (contexts w);
            effects := effects w; user := user w |})
  /\ (logger c <> None ->
        (Context_Str (Some l) key1 sval ≫= fun x => Context_Int x key2 ival) w
        = Ok (Some l)
            {| builders := builders w;
               contexts := <[l := {| Modifiers :=
                                       Modifiers c ++ [fun e => methods_Str e key1 sval;
                                                       fun e => methods_Int e key2 ival];
                                     logger := logger c |}]> (contexts w);
               effects := effects w; user := user w |})
  /\ (logger c = None -> Context_apply (Some l) m1 w = Ok (Some l) w).
Proof.
  intros Hl.
  assert (Hgen : forall ma mb : ModifyFunc E, logger c <> None ->
    (Context_apply (Some l) ma ≫= fun x => Context_apply x mb) w
    = Ok (Some l)
        {| builders := builders w;
           contexts := <[l := {| Modifiers := Modifiers c ++ [ma; mb];
                                 logger := logger c |}]> (contexts w);
           effects := effects w; user := user w |}).
  { intros ma mb Hlg. destruct (logger c) as [lg|] eqn:Elg; [|congruence].
    run. rewrite (Context_apply_eq w l c lg ma Hl Elg).
    set (c1 := {| Modifiers := Modifiers c ++ [ma]; logger := logger c |}).
    assert (Hl1 : contexts (modifier_added l c ma w) !! l = Some c1).
    { unfold modifier_added. cbn [contexts]. now rewrite lookup_insert_eq. }
    assert (Elg1 : logger c1 = Some lg) by (unfold c1; cbn; exact Elg).
    rewrite (Context_apply_eq _ l c1 lg mb Hl1 Elg1).
    unfold modifier_added, c1. cbn [builders contexts effects user Modifiers logger].
    rewrite insert_insert_eq, <- app_assoc, Elg. reflexivity. }
  split; [apply Hgen|]. split; [apply Hgen|].
  intros Hlg. unfold Context_apply. run. unfold loadContext. now rewrite Hl, Hlg.
Qed.

End BuilderFacts.

Lemma Builder_setters_frame_witness :
  exists w' event',
    Core.Builder_Str (Some 0%nat) "k" "v" (Core.sampleWorld 6 6 true) = Core.Ok (Some 0%nat) w'
    /\ Core.effects w' = []
    /\ Core.builders w' !! 0%nat
       = Some {| Core.BEvent := event'; Core.shared := Some (Core.sampleShared 6) |}.
Proof.
  destruct (Builder_setters_frame Core.sampleStd (Core.sampleWorld 6 6 true) 0%nat
              (Core.sampleBuilder 6 6 true) "k" "v" Core.VNil 0 0 None
              (Core.Builder_Str (Some 0%nat) "k" "v") eq_refl)
    as (w' & event' & Hrun & Heff & _ & _ & _ & Hb & _).
  - rewrite !elem_of_cons. right. right. right. now left.
  - exists w', event'. split; [exact Hrun|]. split; [exact Heff | exact Hb].
Defined.

Lemma Field_then_Log_witness :
  (Core.Builder_Str (Some 0%nat) "k" "v" ≫= fun x => Core.Builder_Log x "hello")
    (Core.sampleWorld 6 6 true)
  = Core.Ok tt
      (Core.logged (Core.sampleShared 6) 0%nat
         {| Core.LevelValue := 6; Core.typed := true;
            Core.fields := [("k"%string, Core.VString "v")];
            Core.message := Some "hello"%string |}
         (Core.sampleWorld 6 6 true)).
Proof.
  exact (Field_then_Log (Core.sampleWorld 6 6 true) 0%nat (Core.sampleBuilder 6 6 true)
           (Core.sampleShared 6) (fun e => Core.methods_Str e "k" "v") "hello"
           eq_refl eq_refl).
Defined.

Lemma LogFunc_releases_on_panic_witness :
  Core.Builder_LogFunc (Some 0%nat) None (Core.sampleWorld 6 6 true)
  = Core.Panic Core.nil_deref
      (Core.released (Core.sampleShared 6) 0%nat (Core.sampleWorld 6 6 true)).
Proof.
  exact (proj1 (LogFunc_releases_on_panic (Core.sampleWorld 6 6 true) 0%nat
                  (Core.sampleBuilder 6 6 true) (Core.sampleShared 6)
                  (Core.constant_message "unused") "" (Core.sampleWorld 6 6 true)
                  (Core.sampleBuilder 6 6 true) (Core.sampleShared 6)
                  eq_refl eq_refl eq_refl)).
Defined.

Lemma Context_setters_append_witness :
  exists w',
    (Core.Context_Str (Some 1%nat) "a" "v" ≫= fun x => Core.Context_Int x "b" 2)
      (Core.sampleWorld 6 6 true) = Core.Ok (Some 1%nat) w'
    /\ Core.builders w' = Core.builders (Core.sampleWorld 6 6 true)
    /\ length <$> (Core.Modifiers <$> (Core.contexts w' !! 1%nat)) = Some 2%nat.
Proof.
  pose proof (proj1 (proj2 (Context_setters_append (Core.sampleWorld 6 6 true) 1%nat
                              Core.sampleContext (fun e => (e, None)) (fun e => (e, None))
                              "a" "b" "v" 2 eq_refl))) as Hrun.
  eexists. split; [apply Hrun; discriminate|]. split; reflexivity.
Defined.

Lemma Log_without_shared_witness :
  Core.Builder_Log (Some 0%nat) "hello" (Core.bareWorld (-1)) = Core.Ok tt (Core.bareWorld (-1))
  /\ exists w', Core.Builder_Log (Some 0%nat) "hello" (Core.bareWorld 6)
                = Core.Panic Core.nil_deref w'
                /\ Core.effects w' = [].
Proof.
  split.
  - exact (proj1 (Log_without_shared (Core.bareWorld (-1)) 0%nat
                    {| Core.BEvent := Core.sampleEventAt (-1) true; Core.shared := None |}
                    "hello" eq_refl eq_refl) eq_refl).
  - exact (proj2 (Log_without_shared (Core.bareWorld 6) 0%nat
                    {| Core.BEvent := Core.sampleEventAt 6 true; Core.shared := None |}
                    "hello" eq_refl eq_refl) eq_refl).
Defined.

(** ** The array strategy and its type-erased form *)
Section ErasedFacts.
Import Erased.
Context {S E A O : Type}.

Implicit Types (impl : ArraySupport S E A O) (t : build A O) (s : S)
  (v val : dyn A O).

Ltac run := unfold mbind, M_bind, bind, mret, M_ret, ret.

(** An array built through the type-erased form is the one the strategy
    builds, as a value of dynamic type [A]. *)
Lemma run_erased_typed impl t :
  forall s, run_erased (newArraySupport impl) t s
            = (a ← run_typed impl t; mret (DynA a)) s.
Proof.
  induction t as [|arr IH val|arr IHa val IHv]; intros s; cbn [run_erased run_typed].
  - reflexivity.
  - run. rewrite IH. run. destruct (run_typed impl arr s) as [a s1|msg s1]; reflexivity.
  - run. rewrite IHa. run. destruct (run_typed impl arr s) as [a s1|msg s1]; [|reflexivity].
    rewrite IHv. run. destruct (run_typed impl val s1) as [v s2|msg s2]; reflexivity.
Qed.

(** Property X9. The type-erased form of a strategy that
    [newArraySupport] builds is safe on its own values: whatever array is
    built through it, by any nesting of [newArray], [appendField] and
    [appendArray], no conversion fails, and the result is the array the
    strategy itself builds (a panic of the strategy, such as the one of
    [UnimplementedArraySupport], comes out unchanged). Given a value of
    any other dynamic type where an array is expected, each function
    panics on the conversion, before the strategy is called. *)
Theorem newArraySupport_conversions impl t s :
  run_erased (newArraySupport impl) t s = (a ← run_typed impl t; mret (DynA a)) s
  /\ (forall (evt : E) key v val, (forall a, v <> DynA a) ->
        addArray (newArraySupport impl) evt key v s = Panic bad_conversion s
        /\ appendField (newArraySupport impl) v val s = Panic bad_conversion s
        /\ appendArray (newArraySupport impl) v val s = Panic bad_conversion s
        /\ (forall a, appendArray (newArraySupport impl) (DynA a) v s
                      = Panic bad_conversion s))
  /\ (forall a1 a2 : A, appendArray (newArraySupport impl) (DynA a1) (DynA a2) s
                        = (r ← AppendArray impl a1 a2; mret (DynA r)) s)
  /\ iface_CanAppendArray (newArraySupport impl) = CanAppendArray impl.
Proof.
  split; [apply run_erased_typed|]. split; [|split; reflexivity].
  intros evt key v val Hv.
  destruct v as [|a|o]; [|now destruct (Hv a)|]; repeat split.
Qed.

(** Property X10. [generifyArraySupport] changes only [addArray]: an
    array built through the result is the array built through the
    argument. Its [addArray] hands an event of the logger's own type and
    an array of the strategy's type to the strategy's [AddArray]; given an
    event of any other dynamic type, or a value that is not an array of
    the strategy, it panics on the conversion and the strategy is not
    called. On a nil argument [generifyArraySupport] itself panics. *)
Theorem generifyArraySupport_addArray impl s :
  generifyArraySupport (S := S) (E := E) (A := A) (O := O) None s = Panic nil_deref s
  /\ exists g,
       generifyArraySupport (Some (newArraySupport impl)) s = Ok g s
       /\ (forall t s', run_erased g t s' = run_erased (newArraySupport impl) t s')
       /\ (forall evt key a s', addArray g (EventE evt) key (DynA a) s'
                                = AddArray impl evt key a s')
       /\ (forall ev key v s', (forall evt, ev <> EventE evt) ->
             addArray g ev key v s' = Panic bad_conversion s')
       /\ (forall evt key v s', (forall a, v <> DynA a) ->
             addArray g (EventE evt) key v s' = Panic bad_conversion s').
Proof.
  split; [reflexivity|]. eexists. split; [reflexivity|].
  split; [|split; [|split]].
  - intros t. induction t as [|arr IH val|arr IHa val IHv]; intros s';
      cbn [run_erased].
    + reflexivity.
    + run. rewrite IH. reflexivity.
    + run. rewrite IHa.
      destruct (run_erased (newArraySupport impl) arr s') as [a s1|msg s1]; [|reflexivity].
      rewrite IHv. reflexivity.
  - reflexivity.
  - intros ev key v s' Hev. destruct ev as [|evt|o]; [|now destruct (Hev evt)|]; reflexivity.
  - intros evt key v s' Hv. destruct v as [|a|o]; [|now destruct (Hv a)|]; reflexivity.
Qed.

End ErasedFacts.

Section SliceFacts.
Import Erased.
Context {S E O : Type}.
Variable AddField : E -> string -> sval O -> M S unit.

Implicit Types (t : build (list (sval O)) O) (s : S) (vals : list (dyn (list (sval O)) O)).

Ltac run := unfold mbind, M_bind, bind, mret, M_ret, ret.

(** With the built-in strategy, building an array always succeeds,
    leaves the store alone, and every append adds one element. *)
Lemma slice_run_typed t :
  forall s, exists arr,
    run_typed (sliceArraySupport AddField) t s = Ok arr s /\ length arr = appends t.
Proof.
  induction t as [|arr IH val|arr IHa val IHv]; intros s; cbn [run_typed appends].
  - now exists [].
  - destruct (IH s) as (a & Ha & Hlen). run. rewrite Ha. eexists. split; [reflexivity|].
    rewrite length_app. cbn [length]. lia.
  - destruct (IHa s) as (a & Ha & Hlen). destruct (IHv s) as (v & Hv & _).
    run. rewrite Ha. rewrite Hv. eexists. split; [reflexivity|].
    rewrite length_app. cbn [length]. lia.
Qed.

Lemma slice_fields_of vals :
  forall s, run_typed (sliceArraySupport AddField) (fields_of vals) s
            = Ok (element <$> vals) s.
Proof.
  unfold fields_of.
  assert (Hgen : forall t arr,
    (forall s, run_typed (sliceArraySupport AddField) t s = Ok arr s) ->
    forall s, run_typed (sliceArraySupport AddField) (foldl BField t vals) s
              = Ok (arr ++ (element <$> vals)) s).
  { induction vals as [|val vals IH]; intros t arr Ht s; cbn [foldl fmap list_fmap].
    - rewrite app_nil_r. apply Ht.
    - rewrite (IH (BField t val) (arr ++ [element val])).
      + now rewrite <- app_assoc.
      + intros s'. cbn [run_typed]. run. now rewrite Ht. }
  intros s. now apply (Hgen BNew []).
Qed.

(** Property X11. The built-in strategy [sliceArraySupport], used through
    its type-erased form: building an array never panics and does not
    touch the store; every [appendField] and every [appendArray] adds
    exactly one element at the end, so an appended array becomes a single
    nested element and is not spliced in; the values appended one by one
    to a new array are, in order, the elements of the result;
    [CanAppendArray] is true; and [addArray] hands the array, as one
    value, to [AddField] of the event under the key given. *)
Theorem sliceArraySupport_builds t vals s :
  (exists arr,
     run_erased (newArraySupport (sliceArraySupport AddField)) t s = Ok (DynA arr) s
     /\ length arr = appends t)
  /\ run_erased (newArraySupport (sliceArraySupport AddField)) (fields_of vals) s
     = Ok (DynA (element <$> vals)) s
  /\ (forall arr val : list (sval O),
        appendArray (newArraySupport (sliceArraySupport AddField)) (DynA arr) (DynA val) s
        = Ok (DynA (arr ++ [SSlice val])) s)
  /\ iface_CanAppendArray (newArraySupport (sliceArraySupport AddField)) s = Ok true s
  /\ (forall (evt : E) key arr,
        addArray (newArraySupport (sliceArraySupport AddField)) evt key (DynA arr) s
        = AddField evt key (SSlice arr) s).
Proof.
  split; [|split; [|repeat split]].
  - destruct (slice_run_typed t s) as (arr & Hrun & Hlen). exists arr.
    split; [|exact Hlen]. rewrite run_erased_typed. run. now rewrite Hrun.
  - rewrite run_erased_typed. run. now rewrite slice_fields_of.
Qed.

End SliceFacts.

(** The built-in strategy, evaluated through its type-erased form: two
    values and then an array of one value are appended to a new array,
    and the result is added to the event 7 under the key [list]. *)
Example sliceArraySupport_evaluated :
  (arr ← Erased.run_erased
           (Erased.newArraySupport (Erased.sliceArraySupport Erased.sampleAddField))
           (Erased.BNested
              (Erased.BField (Erased.BField Erased.BNew (Erased.DynOther "a"%string))
                 Erased.DynNil)
              (Erased.BField Erased.BNew (Erased.DynOther "b"%string)));
   Erased.addArray (Erased.newArraySupport (Erased.sliceArraySupport Erased.sampleAddField))
     7%nat "list" arr) ∅
  = Erased.Ok tt
      {[ 7%nat := [("list"%string,
                    Erased.SSlice [Erased.SOther "a"%string; Erased.SNil;
                                   Erased.SSlice [Erased.SOther "b"%string]])] ]}.
Proof. reflexivity. Qed.

(** A strategy that embeds [UnimplementedArraySupport] reports that it
    cannot append arrays, and panics when asked to. *)
Example flatArraySupport_evaluated :
  Erased.iface_CanAppendArray
    (Erased.newArraySupport (Erased.flatArraySupport Erased.sampleAddField)) ∅
  = Erased.Ok false ∅
  /\ Erased.appendArray
       (Erased.newArraySupport (Erased.flatArraySupport Erased.sampleAddField))
       (Erased.DynA []) (Erased.DynA []) ∅
     = Erased.Panic Erased.not_implemented ∅.
Proof. split; reflexivity. Qed.

(** ** Chain: accessors, callbacks and forwarding *)
Section ChainAccessFacts.
Import Chain ArraySupport.

Implicit Types (s : state) (l : loc) (x : option loc) (it : refPoolItem)
  (p : option root) (v : value) (key : string) (fuel : nat) (k : kind).

Ltac run := unfold mbind, M_bind, bind, mret, M_ret, ret.

(** With enough fuel, a nest answers [Root] as its top-level parent
    does. *)
Lemma Root_nest (r : root) s v locs fuel :
  nest r s v locs -> (length locs < fuel)%nat ->
  Parent_Root fuel v s = Ok (root_logger r) s.
Proof.
  intros Hn. revert fuel. induction Hn as [|k lb lc d cur locs Hb Hl Hn IH]; intros fuel Hf.
  - destruct fuel as [|fuel]; [lia|]. reflexivity.
  - cbn [length] in Hf. destruct fuel as [|[|fuel]]; try lia.
    assert (Hcur : Parent_Root fuel cur s = Ok (root_logger r) s) by (apply IH; lia).
    assert (Hchain : Parent_Root (S fuel) (ChainPtr (Some lc)) s = Ok (root_logger r) s).
    { cbn [Parent_Root]. unfold Chain_Root_with. run.
      rewrite (current_ok s lc _ Hl). cbn [b].
      rewrite (nest_parent _ _ _ _ Hn), (nest_not_nil _ _ _ _ Hn). exact Hcur. }
    destruct k; cbn [builder_ptr Parent_Root Nested_Root_with]; run;
      rewrite (load_ok s lb _ Hb); cbn [a is_parent]; exact Hchain.
Qed.

Lemma nest_cases (r : root) s v locs :
  nest r s v locs ->
  (v = RootPtr (Some r) /\ locs = [])
  \/ exists k lb rest, v = builder_ptr k (Some lb) /\ locs = lb :: rest.
Proof.
  intros Hn. destruct Hn as [|k lb lc d cur locs Hb Hl Hn]; [now left|].
  right. now exists k, lb, (lc :: locs).
Qed.

(** Property X12. [CurArray] and [CurObject] on a chain whose current
    target is the innermost scope of a nest (or the top-level parent when
    no scope is open). When the top-level parent is disabled they return
    nil and nothing else happens. When it is enabled, the accessor of the
    kind of the current target returns that builder and leaves the store
    alone; on any other current target, the top-level parent included,
    it returns nil after reporting the misuse to the root logger of the
    parent. [getParentJSONType] of the chain names the same kind: it is
    the constant of a kind exactly when the accessor of that kind
    succeeds. *)
Theorem Chain_Cur_checks_kind (r : root) s lx cur locs fuel k :
  cells s !! lx = Some {| a := RootPtr (Some r); b := cur |} ->
  nest r s cur locs -> (length locs < fuel)%nat ->
  (root_enabled r = false -> Chain_Cur fuel k (Some lx) s = Ok None s)
  /\ (root_enabled r = true ->
      (forall lb, cur = builder_ptr k (Some lb) ->
         Chain_Cur fuel k (Some lx) s = Ok (Some lb) s)
      /\ ((forall lb, cur <> builder_ptr k (Some lb)) ->
          Chain_Cur fuel k (Some lx) s
          = Ok None (reported (root_logger r) (Cur_failed k) s)))
  /\ (forall lb, cur = builder_ptr k (Some lb) ->
        getParentJSONType (S fuel) (ChainPtr (Some lx)) s = Ok (kind_type k) s)
  /\ ((forall lb, cur <> builder_ptr k (Some lb)) ->
      exists t, getParentJSONType (S fuel) (ChainPtr (Some lx)) s = Ok t s
                /\ t <> kind_type k).
Proof.
  intros Hx Hn Hf.
  assert (Hpar : is_parent cur = true) by (eapply nest_parent; eassumption).
  assert (Hnil : is_nil cur = false) by (eapply nest_not_nil; eassumption).
  assert (Hen : Chain_Enabled fuel (Some lx) s = Ok (root_enabled r) s).
  { unfold Chain_Enabled, Chain_Enabled_with. run. rewrite (current_ok s lx _ Hx).
    cbn [b]. rewrite Hpar, Hnil. now apply (Enabled_nest r s cur locs). }
  assert (Hroot : Chain_Root fuel (Some lx) s = Ok (root_logger r) s).
  { unfold Chain_Root, Chain_Root_with. run. rewrite (current_ok s lx _ Hx).
    cbn [b]. rewrite Hpar, Hnil. now apply (Root_nest r s cur locs). }
  assert (Hjson : getParentJSONType (S fuel) (ChainPtr (Some lx)) s
                  = getParentJSONType fuel cur s).
  { cbn [getParentJSONType]. run. now rewrite (load_ok s lx _ Hx). }
  destruct fuel as [|fuel]; [lia|].
  split; [|split; [|split]].
  - intros Hoff. unfold Chain_Cur. run. rewrite Hen, Hoff. reflexivity.
  - intros Hon. split.
    + intros lb ->. unfold Chain_Cur. run. rewrite Hen, Hon.
      rewrite (current_ok s lx _ Hx). cbn [b]. rewrite Hpar, Hnil.
      now destruct k.
    + intros Hne. unfold Chain_Cur. run. rewrite Hen, Hon.
      rewrite (current_ok s lx _ Hx). cbn [b]. rewrite Hpar, Hnil.
      assert (Hrep : forall msg, (lg ← Chain_Root (S fuel) (Some lx); DPanic_Log lg msg;; mret None) s
                                 = Ok (@None loc) (reported (root_logger r) msg s)).
      { intros msg. run. rewrite Hroot. unfold DPanic_Log, reported, modify.
        now destruct (root_logger r). }
      unfold mbind, M_bind, bind, mret, M_ret, ret in Hrep.
      destruct (nest_cases r s cur locs Hn) as [[-> _]|(k' & lb & rest & -> & _)].
      * destruct k; apply Hrep.
      * destruct k, k'; cbn [builder_ptr];
          first [now destruct (Hne lb) | apply Hrep].
  - intros lb ->. rewrite Hjson. now destruct k.
  - intros Hne. rewrite Hjson.
    destruct (nest_cases r s cur locs Hn) as [[-> _]|(k' & lb & rest & -> & _)].
    + exists 0. split; [reflexivity|]. now destruct k.
    + exists (kind_type k'). split; [now destruct k'|].
      destruct k, k'; first [now destruct (Hne lb) | discriminate].
Qed.

(** Property X13. A chain that [newChainParent] just made for a parent
    answers [Enabled] and [Root] as that parent does, and [End] on it
    gives the parent back and the cell, cleared, to the pool; the cell is
    the only one acquired. *)
Theorem newChainParent_delegates p s fuel :
  exists c s1,
    newChainParent p s = Ok (Some c) s1
    /\ gets s1 = gets s ++ [c] /\ puts s1 = puts s
    /\ cells s1 !! c = Some {| a := RootPtr p; b := RootPtr p |}
    /\ Chain_Enabled (S fuel) (Some c) s1 = Ok (root_Enabled p) s1
    /\ Chain_Root (S fuel) (Some c) s1 = Ok (root_Root p) s1
    /\ exists s2,
         Chain_End (Some c) s1 = Ok p s2
         /\ gets s2 = gets s ++ [c] /\ puts s2 = puts s ++ [c]
         /\ cells s2 !! c = Some zero_item
         /\ reports s2 = reports s.
Proof.
  assert (Hget : exists c s0,
    refPoolGet s = Ok c s0 /\ gets s0 = gets s ++ [c] /\ puts s0 = puts s
    /\ reports s0 = reports s).
  { unfold refPoolGet. destruct (pool s); eexists _, _; repeat split. }
  destruct Hget as (c & s0 & Hget & Hg0 & Hp0 & Hr0).
  set (s1 := with_cells <[c := {| a := RootPtr p; b := RootPtr p |}]> s0).
  assert (Hc : cells s1 !! c = Some {| a := RootPtr p; b := RootPtr p |})
    by (unfold s1, with_cells; cbn [cells]; apply lookup_insert_eq).
  exists c, s1. split; [|split; [|split; [|split; [|split; [|split]]]]].
  - unfold newChainParent, newChain. run. rewrite Hget. reflexivity.
  - exact Hg0.
  - exact Hp0.
  - exact Hc.
  - unfold Chain_Enabled, Chain_Enabled_with. run. now rewrite (current_ok s1 c _ Hc).
  - unfold Chain_Root, Chain_Root_with. run. now rewrite (current_ok s1 c _ Hc).
  - destruct (End_owner s1 c _ p Hc eq_refl) as (s2 & Hend & Hputs & _ & Hz & Hg2 & Hr2 & _).
    exists s2. split; [exact Hend|]. split; [|split; [|split]].
    + rewrite Hg2. exact Hg0.
    + rewrite Hputs. unfold s1, with_cells. cbn [puts]. now rewrite Hp0.
    + exact Hz.
    + rewrite Hr2. exact Hr0.
Qed.

End ChainAccessFacts.

(** ** Chain: the methods that take a callback *)
Section ChainFuncFacts.
Import Chain ArraySupport.

Implicit Types (s : state) (l : loc) (x : option loc) (it : refPoolItem)
  (p : option root) (v : value) (key : string) (fuel : nat) (k : kind)
  (fn : option (option loc -> M unit)).

Ltac run := unfold mbind, M_bind, bind, mret, M_ret, ret.

(** A builder opened directly on a chain: one more scope on top of the
    nest the chain points to, in a cell that was free. *)
Lemma open_builder (r : root) s lx cur locs fuel k key :
  root_enabled r = true ->
  cells s !! lx = Some {| a := RootPtr (Some r); b := cur |} ->
  nest r s cur locs -> NoDup ((lx :: locs) ++ pool s) ->
  (length locs + 1 < fuel)%nat ->
  exists lb s',
    NestedWithKey fuel k (ChainPtr (Some lx)) key s = Ok (Some lb) s'
    /\ nest r s' (builder_ptr k (Some lb)) (lb :: lx :: locs)
    /\ NoDup ((lb :: lx :: locs) ++ pool s')
    /\ gets s' = gets s ++ [lb] /\ puts s' = puts s /\ reports s' = reports s
    /\ attached s' = attached s
    /\ cells s' = <[lb := {| a := ChainPtr (Some lx); b := Data (new_data k) |}]> (cells s).
Proof.
  intros Hen Hx Hn Hnd Hf.
  destruct (refPoolGet_fresh s (lx :: locs) Hnd)
    as (lb & s1 & Hget & Hlb & Hnd1 & Hcells1 & Hg1 & Hp1 & Hr1).
  { intros l Hin. apply elem_of_cons in Hin as [->|Hin]; [eauto|].
    eapply nest_lookup; eassumption. }
  assert (Hatt1 : attached s1 = attached s).
  { unfold refPoolGet in Hget. destruct (pool s); inversion Hget; reflexivity. }
  set (s2 := with_cells <[lb := {| a := ChainPtr (Some lx); b := Data (new_data k) |}]> s1).
  assert (Hne : lb <> lx) by set_solver.
  exists lb, s2. split; [|split; [|split; [|repeat split]]].
  - unfold NestedWithKey. run.
    rewrite (Enabled_chain r s lx cur locs fuel Hx Hn) by lia.
    rewrite Hen, Hget. reflexivity.
  - econstructor.
    + unfold s2, with_cells. cbn [cells]. apply lookup_insert_eq.
    + unfold s2, with_cells. cbn [cells]. rewrite lookup_insert_ne by assumption.
      rewrite Hcells1, lookup_insert_ne by assumption. exact Hx.
    + apply (nest_frame r s); [|assumption]. intros l Hin.
      unfold s2, with_cells. cbn [cells]. rewrite Hcells1.
      rewrite !lookup_insert_ne by set_solver. reflexivity.
  - exact Hnd1.
  - exact Hg1.
  - exact Hp1.
  - exact Hr1.
  - exact Hatt1.
  - unfold s2, with_cells. cbn [cells]. rewrite Hcells1. apply insert_insert_eq.
Qed.

(** What a callback leaves of the scope it was given, and the builder's
    own [As] after it. *)
Lemma close_after_callback (r : root) s1 s2 k lb lc cur locs fuel key :
  root_enabled r = true ->
  nest r s1 (builder_ptr k (Some lb)) (lb :: lc :: locs) ->
  cells s1 !! lc = Some {| a := RootPtr (Some r); b := cur |} ->
  NoDup (lb :: lc :: locs) ->
  same_shape s1 s2 -> (length locs + 2 < fuel)%nat ->
  exists d s',
    Nested_As fuel k (Some lb) key s2 = Ok (ChainPtr (Some lc)) s'
    /\ s' = put_cell lb (attach_to cur key d s2)
    /\ cells s2 !! lb = Some {| a := ChainPtr (Some lc); b := Data d |}
    /\ gets s' = gets s1 /\ puts s' = puts s1 ++ [lb] /\ reports s' = reports s1
    /\ pool s' = lb :: pool s1
    /\ cells s' !! lc = Some {| a := RootPtr (Some r); b := cur |}
    /\ cells s' !! lb = Some zero_item
    /\ nest r s' cur locs.
Proof.
  intros Hen Hn1 Hc1 Hnd Hsh Hf.
  pose proof (nest_same_shape r s1 s2 _ _ Hsh Hn1) as Hn2.
  destruct (nest_inv r s2 k lb lb (lc :: locs) Hn2)
    as (_ & lc' & d & cur' & locs' & Heq & Hb2 & Hl2 & Hncur).
  inversion Heq; subst lc' locs'. clear Heq.
  assert (Hpar : is_parent cur = true).
  { destruct (nest_inv r s1 k lb lb (lc :: locs) Hn1)
      as (_ & lc' & d1 & cur1 & locs' & Heq & _ & Hl1 & Hn').
    inversion Heq; subst lc' locs'. rewrite Hc1 in Hl1. inversion Hl1; subst cur1.
    eapply nest_parent; eassumption. }
  pose proof (same_shape_lookup s1 s2 lc _ Hsh Hc1 Hpar) as Hc2.
  rewrite Hc2 in Hl2. inversion Hl2; subst cur'. clear Hl2.
  apply NoDup_cons in Hnd as [Hlb Hnd]. apply NoDup_cons in Hnd as [Hlc Hnd].
  assert (Hne : lb <> lc) by set_solver.
  assert (Hlb' : lb ∉ locs) by set_solver.
  pose proof (attach_same_shape r s2 cur locs key d Hncur) as Hsh3.
  exists d, (put_cell lb (attach_to cur key d s2)).
  split; [now apply (Nested_As_nest r s2 k lb lc d cur locs)|].
  split; [reflexivity|]. split; [exact Hb2|].
  destruct Hsh as (Hpool & Hgets & Hputs & Hreps & _).
  destruct Hsh3 as (Hpool3 & Hgets3 & Hputs3 & Hreps3 & _).
  unfold put_cell. cbn [gets puts reports pool cells].
  split; [congruence|]. split; [congruence|]. split; [congruence|].
  split; [congruence|]. split; [|split].
  - rewrite lookup_insert_ne by assumption.
    rewrite (attach_frame r s2 cur locs key d lc Hncur Hlc). exact Hc2.
  - apply lookup_insert_eq.
  - apply (nest_frame r (attach_to cur key d s2)).
    + intros l Hin. cbn [cells]. rewrite lookup_insert_ne; [reflexivity|].
      intros <-. contradiction.
    + apply (nest_same_shape r s2); [|assumption].
      apply (attach_same_shape r s2 cur locs); assumption.
Qed.

(** The cells of a scope do not tell an array from an object. *)
Lemma nest_any_kind (r : root) s k1 k2 lb locs :
  nest r s (builder_ptr k1 (Some lb)) locs -> nest r s (builder_ptr k2 (Some lb)) locs.
Proof.
  intros Hn. destruct locs as [|l1 rest]; [inversion Hn; destruct k1; discriminate|].
  destruct (nest_inv r s k1 lb l1 rest Hn) as (-> & lc & d & cur & locs' & -> & Hb & Hc & Hn').
  econstructor; eassumption.
Qed.

Lemma run_callback (r : root) s k lb locs fn :
  adds_fields_only r fn -> nest r s (builder_ptr k (Some lb)) locs ->
  exists s',
    (match fn with
     | Some f => f (Some lb)
     | None => mret tt
     end) s = Ok tt s'
    /\ same_shape s s' /\ (fn = None -> s' = s).
Proof.
  intros Hfn Hn. destruct fn as [f|].
  - destruct (Hfn f k lb locs s eq_refl Hn) as (s' & Hrun & Hsh).
    exists s'. split; [exact Hrun|]. split; [exact Hsh | discriminate].
  - exists s. split; [reflexivity|]. split; [apply same_shape_refl | reflexivity].
Qed.

(** A free cell that was given out does not change what attaching a
    value to another target does. *)
Lemma attach_extra_cell v key (d : json) s s1 lb (it : refPoolItem) :
  cells s1 = <[lb := it]> (cells s) -> attached s1 = attached s ->
  v <> ArrayPtr (Some lb) -> v <> ObjectPtr (Some lb) ->
  attached (attach_to v key d s1) = attached (attach_to v key d s)
  /\ forall l, l <> lb ->
       cells (attach_to v key d s1) !! l = cells (attach_to v key d s) !! l.
Proof.
  intros Hcells Hatt Ha Ho.
  assert (Hbase : forall l, l <> lb -> cells s1 !! l = cells s !! l)
    by (intros l Hl; rewrite Hcells; now apply lookup_insert_ne).
  assert (Hcell : forall l0 (f : refPoolItem -> refPoolItem), l0 <> lb ->
    attached (match cells s1 !! l0 with
              | Some i => with_cells <[l0 := f i]> s1
              | None => s1
              end)
    = attached (match cells s !! l0 with
                | Some i => with_cells <[l0 := f i]> s
                | None => s
                end)
    /\ forall l, l <> lb ->
         cells (match cells s1 !! l0 with
                | Some i => with_cells <[l0 := f i]> s1
                | None => s1
                end) !! l
         = cells (match cells s !! l0 with
                  | Some i => with_cells <[l0 := f i]> s
                  | None => s
                  end) !! l).
  { intros l0 f Hl0. rewrite (Hbase l0 Hl0).
    destruct (cells s !! l0) as [i|]; [|split; [exact Hatt | exact Hbase]].
    split; [exact Hatt|]. intros l Hl. unfold with_cells. cbn [cells].
    destruct (decide (l0 = l)) as [->|Hne].
    - now rewrite !lookup_insert_eq.
    - rewrite !lookup_insert_ne by assumption. now apply Hbase. }
  destruct v as [|[r|]|c|[l0|]|[l0|]|dd]; cbn [attach_to];
    try (split; [exact Hatt | exact Hbase]).
  - cbn [attached cells]. split; [now rewrite Hatt | exact Hbase].
  - apply (Hcell l0 (fun i => {| a := a i; b := Data (AppendArray (item_data i) d) |})).
    congruence.
  - apply (Hcell l0 (fun i => {| a := a i; b := Data (SetMember (item_data i) key d) |})).
    congruence.
Qed.

(** Property X14. [Chain.ArrayFunc] and [Chain.ObjectFunc] on a chain
    whose current target is the innermost scope of a nest, with a
    callback that only adds fields (or none). When the top-level parent
    is disabled the call does nothing and the callback does not run.
    When it is enabled the call returns its receiver; one cell is
    acquired for the new builder and the same cell is released, cleared;
    nothing is reported; and the chain still points to the same current
    target, so that it can be used as before. Without a callback, and
    apart from the released cell, the store is the one before with the
    empty array or object attached to the current target under the
    key. *)
Theorem Chain_Func_balanced (r : root) s lx cur locs fuel k key fn :
  cells s !! lx = Some {| a := RootPtr (Some r); b := cur |} ->
  nest r s cur locs -> NoDup ((lx :: locs) ++ pool s) ->
  (length locs + 2 < fuel)%nat -> adds_fields_only r fn ->
  (root_enabled r = false -> Chain_Func fuel k (Some lx) key fn s = Ok (Some lx) s)
  /\ (root_enabled r = true ->
      exists s' lb,
        Chain_Func fuel k (Some lx) key fn s = Ok (Some lx) s'
        /\ gets s' = gets s ++ [lb] /\ puts s' = puts s ++ [lb]
        /\ reports s' = reports s
        /\ cells s' !! lx = Some {| a := RootPtr (Some r); b := cur |}
        /\ nest r s' cur locs
        /\ cells s' !! lb = Some zero_item
        /\ (fn = None ->
            attached s' = attached (attach_to cur key (new_data k) s)
            /\ forall l, l <> lb ->
                 cells s' !! l = cells (attach_to cur key (new_data k) s) !! l)).
Proof.
  intros Hx Hn Hnd Hf Hfn.
  assert (Hpar : is_parent cur = true) by (eapply nest_parent; eassumption).
  assert (Hnil : is_nil cur = false) by (eapply nest_not_nil; eassumption).
  assert (Hen : Chain_Enabled fuel (Some lx) s = Ok (root_enabled r) s).
  { unfold Chain_Enabled, Chain_Enabled_with. run. rewrite (current_ok s lx _ Hx).
    cbn [b]. rewrite Hpar, Hnil. apply (Enabled_nest r s cur locs); [assumption | lia]. }
  split.
  - intros Hoff. unfold Chain_Func. run. now rewrite Hen, Hoff.
  - intros Hon.
    destruct (open_builder r s lx cur locs fuel k key Hon Hx Hn Hnd)
      as (lb & s1 & Hopen & Hn1 & Hnd1 & Hg1 & Hp1 & Hr1 & Hatt1 & Hcells1); [lia|].
    destruct (run_callback r s1 k lb _ fn Hfn Hn1) as (s2 & Hcall & Hsh & Hnone).
    assert (Hne : lb <> lx).
    { apply NoDup_app in Hnd1 as (Hnd1 & _). apply NoDup_cons in Hnd1 as [Hnotin _].
      set_solver. }
    assert (Hx1 : cells s1 !! lx = Some {| a := RootPtr (Some r); b := cur |}).
    { rewrite Hcells1, lookup_insert_ne by assumption. exact Hx. }
    apply NoDup_app in Hnd1 as (Hnd1' & _).
    destruct (close_after_callback r s1 s2 k lb lx cur locs fuel key Hon Hn1 Hx1 Hnd1' Hsh Hf)
      as (d & s3 & Has & Hs3 & Hb2 & Hg3 & Hp3 & Hr3 & _ & Hx3 & Hz3 & Hn3).
    exists s3, lb. split; [|split; [|split; [|split; [|split; [|split; [|split]]]]]].
    + unfold Chain_Func. run. rewrite Hen, Hon, Hopen.
      unfold mbind, M_bind, bind, mret, M_ret, ret in Hcall. rewrite Hcall, Has.
      reflexivity.
    + congruence.
    + congruence.
    + congruence.
    + exact Hx3.
    + exact Hn3.
    + exact Hz3.
    + intros ->. specialize (Hnone eq_refl). subst s2.
      rewrite Hcells1, lookup_insert_eq in Hb2. inversion Hb2; subst d.
      assert (Hlb_out : lb ∉ locs).
      { apply NoDup_cons in Hnd1' as [Hnotin _]. set_solver. }
      assert (Hcur : cur <> ArrayPtr (Some lb) /\ cur <> ObjectPtr (Some lb)).
      { destruct (nest_cases r s cur locs Hn) as [[-> _]|(k' & l0 & rest & -> & ->)].
        - split; discriminate.
        - assert (l0 <> lb) by set_solver.
          destruct k'; cbn [builder_ptr]; split; congruence. }
      destruct (attach_extra_cell cur key (new_data k) s s1 lb _ Hcells1 Hatt1
                  (proj1 Hcur) (proj2 Hcur)) as [Hatt Hcells].
      rewrite Hs3. unfold put_cell. cbn [attached cells]. split; [exact Hatt|].
      intros l Hl. rewrite lookup_insert_ne by congruence. now apply Hcells.
Qed.

(** What a successful [ArrayWithKey] or [ObjectWithKey] leaves in the
    cell it returns. *)
Lemma NestedWithKey_cell fuel k v key s lb s' :
  NestedWithKey fuel k v key s = Ok (Some lb) s' ->
  cells s' = <[lb := {| a := v; b := Data (new_data k) |}]> (cells s)
  /\ attached s' = attached s.
Proof.
  unfold NestedWithKey. run. intros Hrun.
  destruct (Parent_Enabled fuel v s) as [en s0| |] eqn:Een; try discriminate.
  pose proof (Parent_Enabled_pure fuel v s en s0 Een) as Hs0. unfold unchanged in Hs0.
  subst s0. destruct en; [|discriminate].
  unfold refPoolGet in Hrun.
  destruct (pool s); cbn in Hrun; inversion Hrun; subst; cbn;
    (split; [apply insert_insert_eq | reflexivity]).
Qed.

(** A successful sub-builder went through a new chain cell that points
    back to the builder it was opened on. *)
Lemma Nested_sub_inv fuel kx k lb key s lb' s1 :
  Nested_sub fuel kx k (Some lb) key s = Ok (Some lb') s1 ->
  exists c p s0,
    NestedWithKey fuel k (ChainPtr (Some c)) key s0 = Ok (Some lb') s1
    /\ cells s0 = <[c := {| a := RootPtr p; b := builder_ptr kx (Some lb) |}]> (cells s).
Proof.
  unfold Nested_sub. run. intros Hrun.
  destruct (Parent_Enabled fuel (builder_ptr kx (Some lb)) s) as [en s0| |] eqn:Een;
    try discriminate.
  pose proof (Parent_Enabled_pure _ _ _ _ _ Een) as Hs0. unfold unchanged in Hs0.
  subst s0. destruct en; [|discriminate].
  cbn [Nested_p] in Hrun. unfold mbind, M_bind, bind, mret, M_ret, ret in Hrun.
  unfold load in Hrun at 1. destruct (cells s !! lb) as [it|]; [|discriminate].
  destruct (a it) as [|q|[c0|]|y|y|dd];
    try (destruct (Parent_Root fuel (builder_ptr kx (Some lb)) s) as [lg sr| |];
         try discriminate;
         destruct (DPanic_Log lg _ sr) as [u su| |]; discriminate).
  - cbn [Chain_newChain] in Hrun. unfold mbind, M_bind, bind, mret, M_ret, ret in Hrun.
    unfold load in Hrun at 1. destruct (cells s !! c0) as [itc|]; [|discriminate].
    destruct (a itc) as [|p| | | |]; try discriminate.
    unfold newChain in Hrun. unfold mbind, M_bind, bind, mret, M_ret, ret in Hrun.
    unfold refPoolGet in Hrun.
    destruct (pool s) as [|c rest]; cbn in Hrun.
    + eexists _, p, _. split; [exact Hrun|]. cbn. apply insert_insert_eq.
    + eexists c, p, _. split; [exact Hrun|]. cbn. apply insert_insert_eq.
Qed.

Lemma newChain_attached p v s c s' :
  newChain p v s = Ok c s' -> attached s' = attached s.
Proof.
  unfold newChain, refPoolGet. run. intros Hrun.
  destruct (pool s); cbn in Hrun; inversion Hrun; reflexivity.
Qed.

(** Property X15. [Builder.ArrayFunc], [Builder.ObjectFunc],
    [Context.ArrayFunc] and [Context.ObjectFunc] with a callback that
    only adds fields (or none). On a nil or disabled receiver the call
    does nothing and the callback does not run. On an enabled receiver it
    returns the receiver, after attaching to it, under the key, the array
    or object the callback filled (an empty one without a callback); the
    two cells acquired, for the chain and for the builder, are both
    released, the builder first; nothing is reported. *)
Theorem Top_Func_balanced (r : root) s fuel k key fn :
  NoDup (pool s) -> (3 < fuel)%nat -> adds_fields_only r fn ->
  Top_Func fuel k None key fn s = Ok None s
  /\ (root_enabled r = false -> Top_Func fuel k (Some r) key fn s = Ok (Some r) s)
  /\ (root_enabled r = true ->
      exists s' c lb d pre,
        Top_Func fuel k (Some r) key fn s = Ok (Some r) s'
        /\ gets s' = gets s ++ [c; lb] /\ puts s' = puts s ++ [lb; c]
        /\ reports s' = reports s
        /\ attached s' = pre ++ [(r, key, d)]
        /\ cells s' !! c = Some zero_item /\ cells s' !! lb = Some zero_item
        /\ (fn = None -> pre = attached s /\ d = new_data k)).
Proof.
  intros Hnd Hf Hfn. split; [reflexivity|]. split.
  - intros Hoff. unfold Top_Func. cbn [root_Enabled]. now rewrite Hoff.
  - intros Hon.
    destruct (open_one r s (RootPtr (Some r)) [] fuel k key Hon (nest_root r s) Hnd)
      as (c & lb & s1 & Hrun & Hn1 & Hnd1 & Hg1 & Hp1 & Hr1); [cbn [length]; lia|].
    unfold mbind, M_bind, bind in Hrun.
    destruct (newChain (Some r) (RootPtr (Some r)) s) as [c0 s0| |] eqn:Enew;
      try discriminate.
    pose proof (newChain_attached _ _ _ _ _ Enew) as Hatt0.
    destruct (NestedWithKey_cell _ _ _ _ _ _ _ Hrun) as (Hcells1 & Hatt1).
    assert (Hcell1 : cells s1 !! lb
                     = Some {| a := ChainPtr c0; b := Data (new_data k) |})
      by (rewrite Hcells1; apply lookup_insert_eq).
    destruct (nest_inv r s1 k lb lb [c] Hn1)
      as (_ & lc' & d1 & cur1 & locs' & Heq & Hb1 & Hc1 & Hncur).
    inversion Heq; subst lc' locs'. clear Heq. inversion Hncur; subst cur1.
    destruct (run_callback r s1 k lb _ fn Hfn Hn1) as (s2 & Hcall & Hsh & Hnone).
    apply NoDup_app in Hnd1 as (Hnd1' & _).
    destruct (close_after_callback r s1 s2 k lb c (RootPtr (Some r)) [] fuel key
                Hon Hn1 Hc1 Hnd1' Hsh)
      as (d & s3 & Has & Hs3 & Hb2 & Hg3 & Hp3 & Hr3 & _ & Hc3 & Hz3 & _);
      [cbn [length]; lia|].
    destruct (End_owner s3 c _ (Some r) Hc3 eq_refl)
      as (s4 & Hend & Hp4 & _ & Hz4 & Hg4 & Hr4 & Hfr4).
    assert (Hne : lb <> c).
    { apply NoDup_cons in Hnd1' as [Hnotin _]. set_solver. }
    exists s4, c, lb, d, (attached s2).
    split; [|split; [|split; [|split; [|split; [|split; [|split]]]]]].
    + unfold Top_Func. cbn [root_Enabled]. rewrite Hon. unfold newChainParent. run.
      rewrite Enew, Hrun.
      unfold mbind, M_bind, bind, mret, M_ret, ret in Hcall. rewrite Hcall, Has.
      now rewrite Hend.
    + congruence.
    + rewrite Hp4, Hp3, Hp1. now rewrite <- app_assoc.
    + congruence.
    + assert (Hatt4 : attached s4 = attached s3).
      { unfold Chain_End in Hend. run.
        unfold mbind, M_bind, bind, mret, M_ret, ret in Hend.
        rewrite (load_ok s3 c _ Hc3) in Hend. cbn in Hend. now inversion Hend. }
      rewrite Hatt4, Hs3. reflexivity.
    + exact Hz4.
    + rewrite Hfr4 by assumption. exact Hz3.
    + intros ->. specialize (Hnone eq_refl). subst s2. split; [congruence|].
      rewrite Hcell1 in Hb2. now inversion Hb2.
Qed.

(** Property X16. [ArrayBuilder.ArrayFunc], [ArrayBuilder.ObjectFunc],
    [ObjectBuilder.ArrayFunc] and [ObjectBuilder.ObjectFunc] on the
    innermost builder of a nest, with a callback that only adds fields
    (or none). When the top-level parent is disabled the call does
    nothing and the callback does not run. When it is enabled the call
    returns its receiver, which is still the innermost builder of the
    same nest; the two cells acquired, for the chain and for the new
    builder, are both released, cleared, the builder first; nothing is
    reported. Without a callback the only change to the receiver is the
    empty array or object added to it: appended when the receiver is an
    array, set under the key when it is an object. *)
Theorem Nested_Func_balanced (r : root) s kx lb lc locs fuel k key fn :
  nest r s (builder_ptr kx (Some lb)) (lb :: lc :: locs) ->
  NoDup ((lb :: lc :: locs) ++ pool s) ->
  (length locs + 4 < fuel)%nat -> adds_fields_only r fn ->
  (root_enabled r = false ->
     Nested_Func fuel kx k (Some lb) key fn s = Ok (Some lb) s)
  /\ (root_enabled r = true ->
      exists s' c lb',
        Nested_Func fuel kx k (Some lb) key fn s = Ok (Some lb) s'
        /\ gets s' = gets s ++ [c; lb'] /\ puts s' = puts s ++ [lb'; c]
        /\ reports s' = reports s
        /\ nest r s' (builder_ptr kx (Some lb)) (lb :: lc :: locs)
        /\ cells s' !! c = Some zero_item /\ cells s' !! lb' = Some zero_item
        /\ (fn = None ->
            forall it, cells s !! lb = Some it ->
              cells s' !! lb
              = Some {| a := a it;
                        b := Data (match kx with
                                   | KArray => AppendArray (item_data it) (new_data k)
                                   | KObject => SetMember (item_data it) key (new_data k)
                                   end) |})).
Proof.
  intros Hn Hnd Hf Hfn. split.
  - intros Hoff. unfold Nested_Func, Nested_sub. run.
    rewrite (Enabled_nest r s _ _ fuel Hn) by (cbn [length]; lia).
    now rewrite Hoff.
  - intros Hon.
    destruct (Nested_sub_nest r s kx lb lc locs fuel k key Hon Hn Hnd)
      as (c & lb' & s1 & Hsub & Hn1 & Hnd1 & Hg1 & Hp1 & Hr1); [lia|].
    destruct (nest_inv r s1 k lb' lb' (c :: lb :: lc :: locs) Hn1)
      as (_ & lc' & d1 & cur1 & locs' & Heq & Hb1 & Hc1 & Hncur).
    inversion Heq; subst lc' locs'. clear Heq.
    destruct (nest_value_inv r s1 cur1 lb (lc :: locs) Hncur) as [kx' Hcur1].
    destruct (run_callback r s1 k lb' _ fn Hfn Hn1) as (s2 & Hcall & Hsh & Hnone).
    apply NoDup_app in Hnd1 as (Hnd1' & _).
    destruct (close_after_callback r s1 s2 k lb' c cur1 (lb :: lc :: locs) fuel key
                Hon Hn1 Hc1 Hnd1' Hsh)
      as (d & s3 & Has & Hs3 & Hb2 & Hg3 & Hp3 & Hr3 & _ & Hc3 & Hz3 & Hn3);
      [cbn [length]; lia|].
    subst cur1.
    set (s4 := put_cell c s3).
    assert (Hne : lb' <> c).
    { apply NoDup_cons in Hnd1' as [Hnotin _]. set_solver. }
    assert (Hc_out : c ∉ lb :: lc :: locs).
    { apply NoDup_cons in Hnd1' as [_ Hnd2]. apply NoDup_cons in Hnd2 as [Hnotin _].
      exact Hnotin. }
    assert (Hlb_out : lb <> lb' /\ lb <> c).
    { apply NoDup_cons in Hnd1' as [H1 Hnd2]. apply NoDup_cons in Hnd2 as [H2 _].
      set_solver. }
    exists s4, c, lb'. split; [|split; [|split; [|split; [|split; [|split; [|split]]]]]].
    8:{ intros ->. specialize (Hnone eq_refl). subst s2. intros it Hit.
        destruct (Nested_sub_inv _ _ _ _ _ _ _ _ Hsub) as (c' & p & s0 & Hwith & Hcells0).
        destruct (NestedWithKey_cell _ _ _ _ _ _ _ Hwith) as (Hcells1 & _).
        assert (Hc' : c' = c).
        { rewrite Hcells1, lookup_insert_eq in Hb1. now inversion Hb1. }
        subst c'.
        assert (Hkx : kx' = kx).
        { rewrite Hcells1, lookup_insert_ne, Hcells0, lookup_insert_eq in Hc1
            by congruence.
          inversion Hc1. destruct kx, kx'; cbn in *; congruence. }
        subst kx'.
        assert (Hd : d = new_data k).
        { rewrite Hcells1, lookup_insert_eq in Hb2. now inversion Hb2. }
        subst d.
        assert (Hit1 : cells s1 !! lb = Some it).
        { rewrite Hcells1, lookup_insert_ne, Hcells0, lookup_insert_ne by intuition.
          exact Hit. }
        unfold s4, put_cell. cbn [cells]. rewrite lookup_insert_ne by intuition.
        rewrite Hs3. unfold put_cell. cbn [cells]. rewrite lookup_insert_ne by intuition.
        destruct kx; cbn [builder_ptr attach_to]; rewrite Hit1;
          unfold with_cells; cbn [cells]; apply lookup_insert_eq. }
    + unfold Nested_Func. run. rewrite Hsub.
      unfold mbind, M_bind, bind, mret, M_ret, ret in Hcall. rewrite Hcall, Has.
      reflexivity.
    + unfold s4, put_cell. cbn [gets]. congruence.
    + unfold s4, put_cell. cbn [puts]. rewrite Hp3, Hp1. now rewrite <- app_assoc.
    + unfold s4, put_cell. cbn [reports]. congruence.
    + apply (nest_frame r s3); [|exact (nest_any_kind r s3 kx' kx lb _ Hn3)].
      intros l Hin. unfold s4, put_cell. cbn [cells].
      rewrite lookup_insert_ne; [reflexivity|]. intros <-. contradiction.
    + unfold s4, put_cell. cbn [cells]. apply lookup_insert_eq.
    + unfold s4, put_cell. cbn [cells]. rewrite lookup_insert_ne by congruence.
      exact Hz3.
Qed.

(** Property X17. [ArrayBuilder.Array], [ArrayBuilder.Object],
    [ObjectBuilder.Array] and [ObjectBuilder.Object], and the methods
    with a callback built on them, on a builder that was opened directly
    on a top-level parent and not through a chain: on an enabled parent
    the misuse is reported to the root logger of the parent, no cell is
    acquired, the result is nil, and a callback does not run; on a
    disabled parent nothing happens at all. *)
Theorem Nested_sub_needs_chain (r : root) s kx lb d fuel k key fn :
  cells s !! lb = Some {| a := RootPtr (Some r); b := Data d |} ->
  Nested_sub (S (S fuel)) kx k (Some lb) key s
  = Ok None (if root_enabled r
             then reported (root_logger r)
                    (match k with
                     | KArray => "logiface: cannot chain a sub-array from a non-chain parent"
                     | KObject => "logiface: cannot chain a sub-object from a non-chain parent"
                     end) s
             else s)
  /\ Nested_Func (S (S fuel)) kx k (Some lb) key fn s
     = (Nested_sub (S (S fuel)) kx k (Some lb) key;; mret (Some lb)) s.
Proof.
  intros Hb.
  assert (Hsub : Nested_sub (S (S fuel)) kx k (Some lb) key s
    = Ok None (if root_enabled r
               then reported (root_logger r)
                      (match k with
                       | KArray => "logiface: cannot chain a sub-array from a non-chain parent"
                       | KObject => "logiface: cannot chain a sub-object from a non-chain parent"
                       end) s
               else s)).
  { unfold Nested_sub. run.
    assert (Hen : Parent_Enabled (S (S fuel)) (builder_ptr kx (Some lb)) s
                  = Ok (root_enabled r) s).
    { destruct kx; cbn [builder_ptr Parent_Enabled Nested_Enabled_with]; run;
        rewrite (load_ok s lb _ Hb); reflexivity. }
    assert (Hroot : Parent_Root (S (S fuel)) (builder_ptr kx (Some lb)) s
                    = Ok (root_logger r) s).
    { destruct kx; cbn [builder_ptr Parent_Root Nested_Root_with]; run;
        rewrite (load_ok s lb _ Hb); reflexivity. }
    rewrite Hen. destruct (root_enabled r); [|reflexivity].
    cbn [Nested_p]. run. rewrite (load_ok s lb _ Hb). cbn [a].
    rewrite Hroot. unfold DPanic_Log, reported, modify.
    now destruct (root_logger r). }
  split; [exact Hsub|].
  unfold Nested_Func. run. now rewrite Hsub.
Qed.

(** The sample callback only adds a field. *)
Lemma append_empty_adds_fields (r : root) : adds_fields_only r (Some append_empty).
Proof.
  intros f k lb locs s Heq Hn. inversion Heq; subst f. clear Heq.
  pose proof (nest_any_kind r s k KArray lb locs Hn) as Hn'. cbn [builder_ptr] in Hn'.
  exists (attach_to (ArrayPtr (Some lb)) "" NewArray s). split.
  - unfold append_empty. apply (write_nest r s _ locs); [assumption | lia].
  - apply (attach_same_shape r s _ locs). assumption.
Qed.

(** Property X18. A forwarding method of [Chain] hands the call to the
    current target and has no guard of its own: on a chain with a current
    target it is the method of that target; on a nil chain, or on one
    whose current slot holds no Parent, it panics with a nil dereference
    and the store is as before, whereas [Array], [Object], [ArrayFunc]
    and [ObjectFunc] on such a chain do nothing ([Array] and [Object]
    return nil, a callback does not run). So a chain that [As] has
    terminated (its current target was not an array or object builder)
    still answers [Enabled] with false, but panics in every forwarding
    method. *)
Theorem Chain_forward_needs_current {T : Type} (method : value -> M T)
    (r : root) s lx fuel key k fn :
  cells s !! lx = Some {| a := RootPtr (Some r); b := RootPtr (Some r) |} ->
  (forall l it s0, cells s0 !! l = Some it -> is_parent (b it) = true ->
     Chain_forward method (Some l) s0 = method (b it) s0)
  /\ (forall x s0, Chain_current x s0 = Ok Nil s0 ->
        Chain_forward method x s0 = Panic nil_deref s0
        /\ Chain_nested fuel k x s0 = Ok None s0
        /\ Chain_Func fuel k x key fn s0 = Ok x s0)
  /\ (forall x val s0,
        Parent_write (S fuel) (ChainPtr x) key val s0
        = Chain_forward (fun current => Parent_write fuel current key val) x s0)
  /\ exists s',
       Chain_As fuel (Some lx) key s = Ok (Some lx) s'
       /\ Chain_Enabled fuel (Some lx) s' = Ok false s'
       /\ Chain_forward method (Some lx) s' = Panic nil_deref s'.
Proof.
  intros Hx. split; [|split; [|split]].
  - intros l it s0 Hl Hp. unfold Chain_forward. run.
    rewrite (current_ok s0 l _ Hl), Hp.
    destruct (b it); try discriminate; reflexivity.
  - intros x s0 Hc. split; [|split].
    + unfold Chain_forward. run. now rewrite Hc.
    + unfold Chain_nested. run. now rewrite (Enabled_no_current fuel s0 x Hc).
    + unfold Chain_Func. run. now rewrite (Enabled_no_current fuel s0 x Hc).
  - reflexivity.
  - set (s' := with_cells <[lx := {| a := RootPtr (Some r); b := Nil |}]> s).
    assert (Hx' : cells s' !! lx = Some {| a := RootPtr (Some r); b := Nil |})
      by (unfold s', with_cells; cbn [cells]; apply lookup_insert_eq).
    assert (Hc' : Chain_current (Some lx) s' = Ok Nil s')
      by (apply (current_nil s' lx _ Hx'); reflexivity).
    exists s'. split; [|split].
    + unfold Chain_As. run. rewrite (current_ok s lx _ Hx). cbn [b is_parent is_nil].
      cbn [Chain_setCurrent]. run. rewrite (load_ok s lx _ Hx). cbn [a].
      unfold store, modify. fold s'. rewrite Hc'. cbn [is_nil].
      rewrite (Root_no_current fuel s' (Some lx) Hc'). reflexivity.
    + now apply Enabled_no_current.
    + unfold Chain_forward. run. now rewrite Hc'.
Qed.

End ChainFuncFacts.

Lemma nested_state_nest :
  Chain.nest Chain.sampleRoot Chain.nested_state (Chain.ArrayPtr (Some 1%nat)) [1; 0]%nat.
Proof.
  apply (Chain.nest_scope Chain.sampleRoot Chain.nested_state Chain.KArray 1%nat 0%nat
           (ArraySupport.JArray []) (Chain.RootPtr (Some Chain.sampleRoot)) []).
  - reflexivity.
  - reflexivity.
  - constructor.
Qed.

Lemma nested_state_NoDup : NoDup ([2; 1; 0]%nat ++ Chain.pool Chain.nested_state).
Proof. apply (bool_decide_unpack _). vm_compute. exact I. Qed.

Lemma no_callback (r : Chain.root) : Chain.adds_fields_only r None.
Proof. intros f k lb locs s Heq. discriminate. Qed.

Lemma Chain_Cur_witness :
  Chain.Chain_CurArray 5 (Some 2%nat) Chain.nested_state = Chain.Ok (Some 1%nat) Chain.nested_state
  /\ Chain.Chain_CurObject 5 (Some 2%nat) Chain.nested_state
     = Chain.Ok None
         (Chain.reported (Some 9%nat) "logiface: cannot access a non-object as an object"
            Chain.nested_state).
Proof.
  split.
  - refine (proj1 (proj1 (proj2 (Chain_Cur_checks_kind Chain.sampleRoot Chain.nested_state
                                   2%nat (Chain.ArrayPtr (Some 1%nat)) [1; 0]%nat 5
                                   Chain.KArray eq_refl nested_state_nest _)) eq_refl)
              1%nat eq_refl).
    cbn. lia.
  - refine (proj2 (proj1 (proj2 (Chain_Cur_checks_kind Chain.sampleRoot Chain.nested_state
                                   2%nat (Chain.ArrayPtr (Some 1%nat)) [1; 0]%nat 5
                                   Chain.KObject eq_refl nested_state_nest _)) eq_refl) _).
    + cbn. lia.
    + intros lb. discriminate.
Defined.

Lemma Chain_Func_witness :
  exists s' lb,
    Chain.Chain_ArrayFunc 5 (Some 2%nat) "k" None Chain.nested_state = Chain.Ok (Some 2%nat) s'
    /\ Chain.gets s' = [0; 1; 2; lb]%nat /\ Chain.puts s' = [lb].
Proof.
  destruct (proj2 (Chain_Func_balanced Chain.sampleRoot Chain.nested_state 2%nat
                     (Chain.ArrayPtr (Some 1%nat)) [1; 0]%nat 5 Chain.KArray "k" None
                     eq_refl nested_state_nest nested_state_NoDup
                     ltac:(cbn; lia) (no_callback _)) eq_refl)
    as (s' & lb & Hrun & Hg & Hp & _).
  exists s', lb. split; [exact Hrun|]. split; [exact Hg | exact Hp].
Defined.

Lemma Top_Func_witness :
  (exists s' c lb,
     Chain.Builder_ArrayFunc 10 (Some Chain.sampleRoot) "k" None Chain.empty_state
     = Chain.Ok (Some Chain.sampleRoot) s'
     /\ Chain.gets s' = [c; lb] /\ Chain.puts s' = [lb; c]
     /\ Chain.attached s' = [(Chain.sampleRoot, "k"%string, ArraySupport.JArray [])])
  /\ (exists s' c lb,
        Chain.Builder_ArrayFunc 10 (Some Chain.sampleRoot) "k" (Some Chain.append_empty)
          Chain.empty_state
        = Chain.Ok (Some Chain.sampleRoot) s'
        /\ Chain.gets s' = [c; lb] /\ Chain.puts s' = [lb; c]).
Proof.
  split.
  - destruct (proj2 (proj2 (Top_Func_balanced Chain.sampleRoot Chain.empty_state 10
                              Chain.KArray "k" None (NoDup_nil_2 (A := Chain.loc))
                              ltac:(lia) (no_callback _))) eq_refl)
      as (s' & c & lb & d & pre & Hrun & Hg & Hp & _ & Hatt & _ & _ & Hnone).
    destruct (Hnone eq_refl) as [-> ->].
    exists s', c, lb. split; [exact Hrun|]. split; [exact Hg|]. split; [exact Hp | exact Hatt].
  - destruct (proj2 (proj2 (Top_Func_balanced Chain.sampleRoot Chain.empty_state 10
                              Chain.KArray "k" (Some Chain.append_empty)
                              (NoDup_nil_2 (A := Chain.loc))
                              ltac:(lia) (append_empty_adds_fields _))) eq_refl)
      as (s' & c & lb & d & pre & Hrun & Hg & Hp & _).
    exists s', c, lb. split; [exact Hrun|]. split; [exact Hg | exact Hp].
Defined.

(** The same call with the sample callback, evaluated: the array
    attached under the key holds the empty array the callback appended. *)
Example Builder_ArrayFunc_callback_evaluated :
  Chain.summary
    (Chain.Builder_ArrayFunc 10 (Some Chain.sampleRoot) "k" (Some Chain.append_empty)
       Chain.empty_state)
  = Some (Some Chain.sampleRoot, [0; 1]%nat, [1; 0]%nat, [],
          [(Chain.sampleRoot, "k"%string, ArraySupport.JArray [ArraySupport.JArray []])]).
Proof. vm_compute. reflexivity. Qed.

Lemma Chain_forward_witness :
  Chain.Chain_forward (fun current => Chain.Parent_write 3 current "k" ArraySupport.NewArray)
    (Some 0%nat) (Chain.chain_state Chain.Nil)
  = Chain.Panic Chain.nil_deref (Chain.chain_state Chain.Nil).
Proof.
  exact (proj1 (proj1 (proj2 (Chain_forward_needs_current
                                (fun current =>
                                   Chain.Parent_write 3 current "k" ArraySupport.NewArray)
                                Chain.sampleRoot
                                (Chain.chain_state (Chain.RootPtr (Some Chain.sampleRoot)))
                                0%nat 5 "k" Chain.KArray None eq_refl))
                  (Some 0%nat) (Chain.chain_state Chain.Nil) eq_refl)).
Defined.

Lemma Nested_Func_witness :
  exists s' c lb',
    Chain.ArrayBuilder_ObjectFunc 6 (Some 1%nat) None Chain.nested_state
    = Chain.Ok (Some 1%nat) s'
    /\ Chain.gets s' = [0; 1; 2; c; lb']%nat /\ Chain.puts s' = [lb'; c]
    /\ Chain.cells s' !! 1%nat
       = Some {| Chain.a := Chain.ChainPtr (Some 0%nat);
                 Chain.b := Chain.Data (ArraySupport.JArray [ArraySupport.JObject []]) |}.
Proof.
  destruct (proj2 (Nested_Func_balanced Chain.sampleRoot Chain.nested_state Chain.KArray
                     1%nat 0%nat [] 6 Chain.KObject "" None nested_state_nest
                     ltac:(apply (bool_decide_unpack _); vm_compute; exact I)
                     ltac:(cbn; lia) (no_callback _)) eq_refl)
    as (s' & c & lb' & Hrun & Hg & Hp & _ & _ & _ & _ & Hdata).
  exists s', c, lb'. split; [exact Hrun|]. split; [exact Hg|]. split; [exact Hp|].
  exact (Hdata eq_refl _ eq_refl).
Defined.

Lemma Nested_sub_needs_chain_witness :
  Chain.ArrayBuilder_Array 5 (Some 0%nat) Chain.direct_state
  = Chain.Ok None
      (Chain.reported (Some 9%nat)
         "logiface: cannot chain a sub-array from a non-chain parent" Chain.direct_state).
Proof.
  exact (proj1 (Nested_sub_needs_chain Chain.sampleRoot Chain.direct_state Chain.KArray
                  0%nat (ArraySupport.JArray []) 3 Chain.KArray "" None eq_refl)).
Defined.

Lemma As_never_reports_witness :
  Chain.same_reports (Chain.chain_state (Chain.RootPtr (Some Chain.sampleRoot)))
    (Chain.chain_state Chain.Nil).
Proof.
  exact (As_never_reports 5 (Some 0%nat) "k"
           (Chain.chain_state (Chain.RootPtr (Some Chain.sampleRoot)))
           (Some 0%nat) (Chain.chain_state Chain.Nil) eq_refl).
Defined.
